(** * A shallow embedding of [advanced-vector/vector.h]

    The header defines two class templates: [RawMemory<T>], an owner of an
    untyped buffer, and [Vector<T>], a contiguous sequence that keeps its
    live elements in a prefix of a [RawMemory<T>].

    The embedding keeps the program's own split:
    - the free store is a finite map from allocation identifiers to arrays
      of slots, a slot being raw memory or a live [T];
    - objects of the two classes are records holding exactly the data
      members of the source, and every member function is a function on
      these records and on the store;
    - exceptions and precondition violations are explicit outcomes of a
      small state monad, and every constructor, assignment, destructor,
      allocation and release is written to a trace. *)

From stdpp Require Import base option list gmap.
From Stdlib Require Import NArith Lia.

(** ** Pointers *)

(** An allocation made by [operator new] is identified by a number; a
    [T*] is either null or a slot index inside one allocation. *)
Abbreviation block := nat (only parsing).
Abbreviation loc := (nat * nat)%type (only parsing).
Abbreviation ptr := (option (nat * nat)) (only parsing).
Abbreviation nullptr := (@None (nat * nat)).

(** [p + k] *)
Definition ptr_add (p : ptr) (k : nat) : ptr :=
  match p with
  | Some (b, o) => Some (b, o + k)
  | None => None
  end.

(** [p - k] *)
Definition ptr_sub (p : ptr) (k : nat) : ptr :=
  match p with
  | Some (b, o) => Some (b, o - k)
  | None => None
  end.

(** [last - first], the number of elements between two pointers into the
    same array. *)
Definition ptr_diff (last first : ptr) : nat :=
  match last, first with
  | Some (_, o2), Some (_, o1) => o2 - o1
  | _, _ => 0
  end.

(** ** The element type *)

(** What the container needs to know about [T]: the three type traits it
    branches on, the state a moved-from object is left in, the value
    produced by value-initialisation, whether the destructor is trivial
    (such a destructor does nothing, also when it is called on storage
    that holds no object), and [sizeof(T)]. *)
Class ElementType (T : Type) : Type := {
  is_nothrow_move_constructible : bool;
  is_copy_constructible : bool;
  is_nothrow_move_assignable : bool;
  moved_from : T → T;
  value_initialized : T;
  is_trivially_destructible : bool;
  sizeof : N
}.

(** Where an object lives: in a slot of the free store, or in automatic
    storage (the temporary of [NoReallocationEmplace]). *)
Inductive place : Type :=
  | Slot (l : loc)
  | Local.

(** Everything the program does to the store or to an element. *)
Inductive event (T : Type) : Type :=
  | EvAllocate (b : block) (n : nat)
  | EvDeallocate (b : block)
  | EvValueCtor (dst : place)
  | EvCopyCtor (dst : place) (x : T)
  | EvMoveCtor (dst : place) (x : T)
  | EvCopyAssign (dst : place) (x : T)
  | EvMoveAssign (dst : place) (x : T)
  | EvDtor (obj : place).
Arguments EvAllocate {T} b n.
Arguments EvDeallocate {T} b.
Arguments EvValueCtor {T} dst.
Arguments EvCopyCtor {T} dst x.
Arguments EvMoveCtor {T} dst x.
Arguments EvCopyAssign {T} dst x.
Arguments EvMoveAssign {T} dst x.
Arguments EvDtor {T} obj.

(** The circumstances under which [operator new] or an operation of [T]
    raises an exception are not fixed by the header: they are given by
    an oracle that sees the history and the operation about to run. *)
Class Faults (T : Type) : Type := {
  throws : list (event T) → event T → bool
}.

Inductive exn : Type :=
  | bad_alloc
  | element_exn.

(** ** Outcomes and the state monad *)

(** A call returns normally, leaves by an exception, or has no defined
    behaviour (a failed [assert], an access outside a live buffer, a read
    of a slot holding no object). *)
Inductive outcome (A : Type) : Type :=
  | Normal (a : A)
  | Thrown (e : exn)
  | Undefined.
Arguments Normal {A} a.
Arguments Thrown {A} e.
Arguments Undefined {A}.

Definition ST (S A : Type) : Type := S → outcome A * S.

Definition ret {S A : Type} (a : A) : ST S A := λ s, (Normal a, s).

Definition bind {S A B : Type} (m : ST S A) (k : A → ST S B) : ST S B :=
  λ s, match m s with
       | (Normal a, s') => k a s'
       | (Thrown e, s') => (Thrown e, s')
       | (Undefined, s') => (Undefined, s')
       end.

Definition throw {S A : Type} (e : exn) : ST S A := λ s, (Thrown e, s).
Definition undefined {S A : Type} : ST S A := λ s, (Undefined, s).

Notation "x <- m ;; k" := (bind m (λ x, k))
  (at level 100, m at next level, right associativity).
Notation "m ;;; k" := (bind m (λ _, k))
  (at level 100, right associativity).

(** Stack unwinding: when [m] leaves by an exception, [cleanup] runs (the
    destructor of a local, or the [catch] block of a standard algorithm)
    and the exception propagates. *)
Definition on_unwind {S A : Type} (m : ST S A) (cleanup : ST S unit) : ST S A :=
  λ s, match m s with
       | (Thrown e, s') =>
           match cleanup s' with
           | (Normal _, s'') => (Thrown e, s'')
           | (_, s'') => (Undefined, s'')
           end
       | r => r
       end.

Section Model.
Context {T : Type} `{ElementType T} `{Faults T}.

(** ** The store *)

Inductive slot : Type :=
  | Raw
  | Live (x : T).

Record World : Type := mkWorld {
  heap : gmap block (list slot);
  next_block : block;
  trace : list (event T)
}.

Definition M (A : Type) : Type := ST World A.

(** Operations declared or required [noexcept]. *)
Definition noexcept (e : event T) : bool :=
  match e with
  | EvDeallocate _ | EvDtor _ => true
  | EvMoveCtor _ _ => is_nothrow_move_constructible
  | EvMoveAssign _ _ => is_nothrow_move_assignable
  | _ => false
  end.

Definition raises (w : World) (e : event T) : bool :=
  negb (noexcept e) && throws (trace w) e.

Definition log (e : event T) (w : World) : World :=
  mkWorld (heap w) (next_block w) (trace w ++ [e]).

Definition slot_at (w : World) (p : ptr) : option slot :=
  match p with
  | Some (b, o) =>
      match heap w !! b with
      | Some blk => blk !! o
      | None => None
      end
  | None => None
  end.

Definition store (l : loc) (s : slot) (w : World) : World :=
  mkWorld (alter (λ blk, <[l.2 := s]> blk) l.1 (heap w)) (next_block w) (trace w).

(** The value of the object a pointer designates. *)
Definition read (p : ptr) : M T :=
  λ w, match slot_at w p with
       | Some (Live x) => (Normal x, w)
       | _ => (Undefined, w)
       end.

(** [operator new(n * sizeof(T))]: a fresh array of [n] raw slots. *)
Definition operator_new (n : nat) : M ptr :=
  λ w, let b := next_block w in
       if raises w (EvAllocate b n) then (Thrown bad_alloc, w)
       else (Normal (Some (b, 0)),
             mkWorld (<[b := replicate n Raw]> (heap w)) (S b)
                     (trace w ++ [EvAllocate b n])).

(** [operator delete(buf)]: a null pointer is accepted and ignored; any
    other pointer must be the start of a live allocation. *)
Definition operator_delete (buf : ptr) : M unit :=
  λ w, match buf with
       | None => (Normal tt, w)
       | Some (b, o) =>
           match heap w !! b, o with
           | Some _, 0 =>
               (Normal tt,
                mkWorld (delete b (heap w)) (next_block w)
                        (trace w ++ [EvDeallocate b]))
           | _, _ => (Undefined, w)
           end
       end.

(** ** Operations on single elements *)

(** A constructor running on the storage [dst] points to; the storage
    must exist, whatever it holds. *)
Definition construct_in (dst : ptr) (e : loc → event T) (x : T) : M unit :=
  λ w, match dst, slot_at w dst with
       | Some l, Some _ =>
           if raises w (e l) then (Thrown element_exn, w)
           else (Normal tt, log (e l) (store l (Live x) w))
       | _, _ => (Undefined, w)
       end.

(** An assignment to the object [dst] points to; the object must be
    live. *)
Definition assign_in (dst : ptr) (e : loc → event T) (x : T) : M unit :=
  λ w, match dst, slot_at w dst with
       | Some l, Some (Live _) =>
           if raises w (e l) then (Thrown element_exn, w)
           else (Normal tt, log (e l) (store l (Live x) w))
       | _, _ => (Undefined, w)
       end.

(** The source of a move is left in its moved-from state. *)
Definition leave_moved_from (src : ptr) (x : T) : M unit :=
  λ w, match src with
       | Some l => (Normal tt, store l (Live (moved_from x)) w)
       | None => (Undefined, w)
       end.

(** [new (dst) T()] *)
Definition value_construct_at (dst : ptr) : M unit :=
  construct_in dst (λ l, EvValueCtor (Slot l)) value_initialized.

(** [new (dst) T(x)] for an lvalue [x] *)
Definition copy_construct_at (dst : ptr) (x : T) : M unit :=
  construct_in dst (λ l, EvCopyCtor (Slot l) x) x.

(** [new (dst) T(std::move(x))]; the caller updates the source. *)
Definition move_construct_at (dst : ptr) (x : T) : M unit :=
  construct_in dst (λ l, EvMoveCtor (Slot l) x) x.

(** [new (dst) T(s)] where [s] is the object [src] points to *)
Definition copy_construct (dst src : ptr) : M unit :=
  x <- read src ;; copy_construct_at dst x.

(** [new (dst) T(std::move(s))] where [s] is the object [src] points to *)
Definition move_construct (dst src : ptr) : M unit :=
  x <- read src ;;
  move_construct_at dst x ;;;
  leave_moved_from src x.

(** [d = s] for the objects [d] and [s] that [dst] and [src] point to *)
Definition copy_assign (dst src : ptr) : M unit :=
  x <- read src ;; assign_in dst (λ l, EvCopyAssign (Slot l) x) x.

(** [d = std::move(s)] for the objects that [dst] and [src] point to *)
Definition move_assign (dst src : ptr) : M unit :=
  x <- read src ;;
  assign_in dst (λ l, EvMoveAssign (Slot l) x) x ;;;
  leave_moved_from src x.

(** [p->~T()]. The call is recorded and the slot holds no object
    afterwards. The object must be within its lifetime: a destructor
    call on a slot that holds no object is undefined, unless the
    destructor of [T] is trivial; then the call does nothing and is
    recorded all the same. *)
Definition destroy_at (p : ptr) : M unit :=
  λ w, match p, slot_at w p with
       | Some l, Some (Live _) => (Normal tt, log (EvDtor (Slot l)) (store l Raw w))
       | Some l, Some Raw =>
           if is_trivially_destructible
           then (Normal tt, log (EvDtor (Slot l)) (store l Raw w))
           else (Undefined, w)
       | _, _ => (Undefined, w)
       end.

(** ** The standard algorithms the header calls *)

(** [std::destroy_n(first, n)] *)
Fixpoint destroy_n (first : ptr) (n : nat) : M unit :=
  match n with
  | 0 => ret tt
  | S n' => destroy_at first ;;; destroy_n (ptr_add first 1) n'
  end.

(** The three [std::uninitialized_*_n] algorithms construct [n] objects
    in turn; when the construction of object [i] throws, the objects
    already built, [d_first[0 .. i)], are destroyed and the exception is
    rethrown. *)
Fixpoint uninitialized_loop (step : nat → M unit) (d_first : ptr) (i n : nat) : M unit :=
  match n with
  | 0 => ret tt
  | S n' =>
      on_unwind (step i) (destroy_n d_first i) ;;;
      uninitialized_loop step d_first (S i) n'
  end.

(** [std::uninitialized_copy_n(first, n, d_first)] *)
Definition uninitialized_copy_n (first : ptr) (n : nat) (d_first : ptr) : M unit :=
  uninitialized_loop (λ i, copy_construct (ptr_add d_first i) (ptr_add first i)) d_first 0 n.

(** [std::uninitialized_move_n(first, n, d_first)] *)
Definition uninitialized_move_n (first : ptr) (n : nat) (d_first : ptr) : M unit :=
  uninitialized_loop (λ i, move_construct (ptr_add d_first i) (ptr_add first i)) d_first 0 n.

(** [std::uninitialized_value_construct_n(first, n)] *)
Definition uninitialized_value_construct_n (first : ptr) (n : nat) : M unit :=
  uninitialized_loop (λ i, value_construct_at (ptr_add first i)) first 0 n.

Fixpoint assign_forward (assign : ptr → ptr → M unit) (first d_first : ptr) (n : nat) : M unit :=
  match n with
  | 0 => ret tt
  | S n' =>
      assign d_first first ;;;
      assign_forward assign (ptr_add first 1) (ptr_add d_first 1) n'
  end.

(** [std::copy(first, last, d_first)] *)
Definition std_copy (first last d_first : ptr) : M unit :=
  assign_forward copy_assign first d_first (ptr_diff last first).

(** [std::move(first, last, d_first)] *)
Definition std_move (first last d_first : ptr) : M unit :=
  assign_forward move_assign first d_first (ptr_diff last first).

Fixpoint move_backward_loop (last d_last : ptr) (n : nat) : M unit :=
  match n with
  | 0 => ret tt
  | S n' =>
      move_assign (ptr_sub d_last 1) (ptr_sub last 1) ;;;
      move_backward_loop (ptr_sub last 1) (ptr_sub d_last 1) n'
  end.

(** [std::move_backward(first, last, d_last)] *)
Definition std_move_backward (first last d_last : ptr) : M unit :=
  move_backward_loop last d_last (ptr_diff last first).

(** ** [RawMemory<T>] *)

(** Values of type [size_t] are natural numbers. A size or a capacity
    is bounded by the extent of a buffer that exists, and the sums and
    differences the header forms stay within that bound whenever the
    preconditions of the operation hold; the one product, [size_ * 2] in
    the growth policy, is written with its wrap-around (see
    [GrowthCapacity]). *)
Record RawMemory : Type := mkRawMemory {
  buffer_ : ptr;
  capacity_ : nat
}.

(** [RawMemory() = default], with the default member initialisers
    [buffer_ = nullptr] and [capacity_ = 0]. *)
Definition RawMemory_default : RawMemory := mkRawMemory nullptr 0.

(** [Allocate(n)]. The source asks [operator new] for [n * sizeof(T)]
    bytes, a product formed in [size_t]. The model hands out [n] slots:
    it covers the requests whose byte count does not wrap around (see
    [allocation_fits]); for a request that wraps, the source obtains a
    buffer shorter than [n] elements. *)
Definition Allocate (n : nat) : M ptr :=
  if n =? 0 then ret nullptr else operator_new n.

Definition Deallocate (buf : ptr) : M unit := operator_delete buf.

(** [explicit RawMemory(size_t capacity)] *)
Definition RawMemory_sized (capacity : nat) : M RawMemory :=
  buf <- Allocate capacity ;;
  ret (mkRawMemory buf capacity).

(** [~RawMemory()] *)
Definition RawMemory_dtor (m : RawMemory) : M unit := Deallocate (buffer_ m).

(** [Swap(other)]: the result is the pair ([*this], [other]) after the
    two [std::swap] calls. *)
Definition RawMemory_Swap (this other : RawMemory) : RawMemory * RawMemory :=
  (mkRawMemory (buffer_ other) (capacity_ other),
   mkRawMemory (buffer_ this) (capacity_ this)).

(** [RawMemory(RawMemory&& other)]: the new object starts from the
    default member initialisers and swaps with [other]. *)
Definition RawMemory_move_ctor (other : RawMemory) : RawMemory * RawMemory :=
  RawMemory_Swap RawMemory_default other.

(** [operator=(RawMemory&& rhs)] *)
Definition RawMemory_move_assign (this rhs : RawMemory) : RawMemory * RawMemory :=
  RawMemory_Swap this rhs.

(** [operator+(offset)], with its [assert]. *)
Definition RawMemory_plus (m : RawMemory) (offset : nat) : M ptr :=
  if offset <=? capacity_ m then ret (ptr_add (buffer_ m) offset) else undefined.

(** [operator[](index)], with its [assert]; the reference is the address
    of the slot. *)
Definition RawMemory_index (m : RawMemory) (index : nat) : M ptr :=
  if index <? capacity_ m then ret (ptr_add (buffer_ m) index) else undefined.

Definition RawMemory_GetAddress (m : RawMemory) : ptr := buffer_ m.
Definition RawMemory_Capacity (m : RawMemory) : nat := capacity_ m.

(** ** [Vector<T>] *)

Record Vector : Type := mkVector {
  data_ : RawMemory;
  size_ : nat
}.

(** A member function works on the object it is called on and on the
    store. *)
Definition Method (A : Type) : Type := ST (Vector * World) A.

Definition lift {A : Type} (m : M A) : Method A :=
  λ s, match m s.2 with (o, w') => (o, (s.1, w')) end.

Definition this : Method Vector := λ s, (Normal s.1, s).
Definition set_this (v : Vector) : Method unit := λ s, (Normal tt, (v, s.2)).

(** [++size_] *)
Definition increment_size : Method unit :=
  λ s, (Normal tt, (mkVector (data_ s.1) (S (size_ s.1)), s.2)).

Definition Vector_Size (v : Vector) : nat := size_ v.
Definition Vector_Capacity (v : Vector) : nat := RawMemory_Capacity (data_ v).
Definition Vector_begin (v : Vector) : ptr := RawMemory_GetAddress (data_ v).
Definition Vector_end (v : Vector) : M ptr := RawMemory_plus (data_ v) (size_ v).

(** [operator[](index)], with its [assert]. *)
Definition Vector_index (v : Vector) (index : nat) : M ptr :=
  if index <? size_ v then RawMemory_index (data_ v) index else undefined.

(** [Vector() = default] *)
Definition Vector_default : Vector := mkVector RawMemory_default 0.

(** [explicit Vector(size_t size)]; when the body throws, the member
    [data_], already constructed, is destroyed. *)
Definition Vector_sized (size : nat) : M Vector :=
  data <- RawMemory_sized size ;;
  on_unwind (uninitialized_value_construct_n (RawMemory_GetAddress data) size)
            (RawMemory_dtor data) ;;;
  ret (mkVector data size).

(** [Vector(const Vector& other)] *)
Definition Vector_copy_ctor (other : Vector) : M Vector :=
  data <- RawMemory_sized (size_ other) ;;
  on_unwind (uninitialized_copy_n (RawMemory_GetAddress (data_ other)) (size_ other)
                                  (RawMemory_GetAddress data))
            (RawMemory_dtor data) ;;;
  ret (mkVector data (size_ other)).

(** [Vector(Vector&& other) noexcept]: the pair is (the new object,
    [other] afterwards). *)
Definition Vector_move_ctor (other : Vector) : Vector * Vector :=
  let '(data, other_data) := RawMemory_move_ctor (data_ other) in
  (mkVector data (size_ other), mkVector other_data 0).

(** [Swap(other)]: the pair is ([*this], [other]) afterwards. *)
Definition Vector_Swap (v other : Vector) : Vector * Vector :=
  let '(d, od) := RawMemory_Swap (data_ v) (data_ other) in
  (mkVector d (size_ other), mkVector od (size_ v)).

Definition Vector_Destroy (buf : ptr) : M unit := destroy_at buf.

(** [DestroyN(buf, n)]: the loop runs [n] times and every iteration
    calls [Destroy(buf)]. *)
Fixpoint Vector_DestroyN (buf : ptr) (n : nat) : M unit :=
  match n with
  | 0 => ret tt
  | S n' => Vector_Destroy buf ;;; Vector_DestroyN buf n'
  end.

(** [~Vector()]: the body, then the destructor of the member [data_]. *)
Definition Vector_dtor (v : Vector) : M unit :=
  Vector_DestroyN (RawMemory_GetAddress (data_ v)) (size_ v) ;;;
  RawMemory_dtor (data_ v).

Definition Vector_Uninitialized (data : ptr) (size : nat) (new_data : ptr) : M unit :=
  if is_nothrow_move_constructible || negb is_copy_constructible
  then uninitialized_move_n data size new_data
  else uninitialized_copy_n data size new_data.

(** [DestroyAndSwap(new_data)]: returns [new_data] after the swap. *)
Definition Vector_DestroyAndSwap (new_data : RawMemory) : Method RawMemory :=
  v <- this ;;
  lift (destroy_n (RawMemory_GetAddress (data_ v)) (size_ v)) ;;;
  let '(d, new_data') := RawMemory_Swap (data_ v) new_data in
  set_this (mkVector d (size_ v)) ;;;
  ret new_data'.

(** [operator=(const Vector& rhs)]. Objects are values here, so the
    test [this != &rhs] is an input: [same_object] says whether [rhs] is
    the object assigned to. *)
Definition Vector_copy_assign (same_object : bool) (rhs : Vector) : Method unit :=
  if same_object then ret tt
  else
    v <- this ;;
    if RawMemory_Capacity (data_ v) <? size_ rhs then
      rhs_copy <- lift (Vector_copy_ctor rhs) ;;
      let '(v', rhs_copy') := Vector_Swap v rhs_copy in
      set_this v' ;;;
      lift (Vector_dtor rhs_copy')
    else
      (if size_ rhs <? size_ v then
         lift (std_copy (Vector_begin rhs) (ptr_add (Vector_begin rhs) (size_ rhs))
                        (Vector_begin v)) ;;;
         p <- lift (RawMemory_plus (data_ v) (size_ rhs)) ;;
         lift (destroy_n p (size_ v - size_ rhs))
       else ret tt) ;;;
      (if size_ v <=? size_ rhs then
         lift (std_copy (Vector_begin rhs) (ptr_add (Vector_begin rhs) (size_ v))
                        (Vector_begin v)) ;;;
         p <- lift (RawMemory_plus (data_ rhs) (size_ v)) ;;
         lift (uninitialized_copy_n p (size_ rhs - size_ v)
                                    (RawMemory_GetAddress (data_ v)))
       else ret tt) ;;;
      set_this (mkVector (data_ v) (size_ rhs)).

(** [operator=(Vector&& rhs) noexcept]; returns [rhs] as the call leaves
    it. *)
Definition Vector_move_assign (same_object : bool) (rhs : Vector) : Method Vector :=
  if same_object then this
  else
    v <- this ;;
    if RawMemory_Capacity (data_ v) <? size_ rhs then
      let '(rhs_copy, rhs') := Vector_move_ctor rhs in
      let '(v', rhs_copy') := Vector_Swap v rhs_copy in
      set_this v' ;;;
      lift (Vector_dtor rhs_copy') ;;;
      ret rhs'
    else
      let '(d, rhs_data) := RawMemory_move_assign (data_ v) (data_ rhs) in
      set_this (mkVector d (size_ rhs)) ;;;
      ret (mkVector rhs_data (size_ rhs)).

(** [Reserve(new_capacity)]; the local [new_data] is destroyed when the
    function returns and when an exception leaves it. *)
Definition Vector_Reserve (new_capacity : nat) : Method unit :=
  v <- this ;;
  if new_capacity <? RawMemory_Capacity (data_ v) then ret tt
  else
    new_data <- lift (RawMemory_sized new_capacity) ;;
    on_unwind
      (lift (Vector_Uninitialized (RawMemory_GetAddress (data_ v)) (size_ v)
                                  (RawMemory_GetAddress new_data)))
      (lift (RawMemory_dtor new_data)) ;;;
    new_data' <- Vector_DestroyAndSwap new_data ;;
    lift (RawMemory_dtor new_data').

(** [Resize(new_size)] *)
Definition Vector_Resize (new_size : nat) : Method unit :=
  v <- this ;;
  (if new_size <? size_ v then
     p <- lift (RawMemory_plus (data_ v) new_size) ;;
     lift (destroy_n p (size_ v - new_size)) ;;;
     set_this (mkVector (data_ v) new_size)
   else ret tt) ;;;
  v <- this ;;
  (if size_ v <? new_size then
     Vector_Reserve new_size ;;;
     v <- this ;;
     p <- lift (RawMemory_plus (data_ v) (size_ v)) ;;
     lift (uninitialized_value_construct_n p (new_size - size_ v)) ;;;
     set_this (mkVector (data_ v) new_size)
   else ret tt).

(** ** Insertion *)

(** A [const T&] argument refers to an object outside the store holding
    [x], or to a slot of the store, possibly one of the vector's own
    elements. *)
Inductive const_ref : Type :=
  | RefObject (x : T)
  | RefSlot (p : ptr).

(** The argument pack of [Emplace], as [Insert], [PushBack] and
    [EmplaceBack(v[i])] instantiate it: one [const T&], or one [T&&]
    bound to an object outside the store holding [x]. *)
Inductive EmplaceArgs : Type :=
  | ByCopy (r : const_ref)
  | ByMove (x : T).

(** [new (dst) T(std::forward<Args>(args)...)] *)
Definition construct_from (dst : ptr) (args : EmplaceArgs) : M unit :=
  match args with
  | ByCopy (RefObject x) => copy_construct_at dst x
  | ByCopy (RefSlot p) => copy_construct dst p
  | ByMove x => move_construct_at dst x
  end.

Definition construct_local (e : event T) (x : T) : M T :=
  λ w, if raises w e then (Thrown element_exn, w) else (Normal x, log e w).

(** [T elem(std::forward<Args>(args)...)], a local object. *)
Definition construct_temporary (args : EmplaceArgs) : M T :=
  match args with
  | ByCopy (RefObject x) => construct_local (EvCopyCtor Local x) x
  | ByCopy (RefSlot p) => x <- read p ;; construct_local (EvCopyCtor Local x) x
  | ByMove x => construct_local (EvMoveCtor Local x) x
  end.

(** The end of the lifetime of a local [T]. *)
Definition destroy_local : M unit := λ w, (Normal tt, log (EvDtor Local) w).

(** [size_t] has 64 bits. *)
Definition size_t_modulus : N := 2 ^ 64.

(** The growth policy, in [size_t] arithmetic:
    [size_ == 0 ? 1 : size_ * 2]. *)
Definition GrowthCapacity (size : nat) : nat :=
  if size =? 0 then 1
  else N.to_nat ((N.of_nat size * 2) mod size_t_modulus).

(** [ReallocationEmplace(pos, args...)]; the local [new_data] is
    destroyed when the function returns and when an exception leaves
    it. The element built at [elem] is not destroyed on that path. *)
Definition Vector_ReallocationEmplace (pos : ptr) (args : EmplaceArgs) : Method ptr :=
  v <- this ;;
  let new_pos := ptr_diff pos (Vector_begin v) in
  new_data <- lift (RawMemory_sized (GrowthCapacity (size_ v))) ;;
  elem <- on_unwind
    (elem <- lift (RawMemory_plus new_data new_pos) ;;
     lift (construct_from elem args) ;;;
     lift (Vector_Uninitialized (RawMemory_GetAddress (data_ v)) new_pos
                                (RawMemory_GetAddress new_data)) ;;;
     src <- lift (RawMemory_plus (data_ v) new_pos) ;;
     (* [new_data + new_pos + 1]: [new_data + new_pos] is [elem] *)
     lift (Vector_Uninitialized src (size_ v - new_pos) (ptr_add elem 1)) ;;;
     ret elem)
    (lift (RawMemory_dtor new_data)) ;;
  new_data' <- Vector_DestroyAndSwap new_data ;;
  increment_size ;;;
  lift (RawMemory_dtor new_data') ;;;
  ret elem.

(** [NoReallocationEmplace(pos, args...)]; the local [elem] is destroyed
    when its block is left, normally or by an exception. *)
Definition Vector_NoReallocationEmplace (pos : ptr) (args : EmplaceArgs) : Method ptr :=
  v <- this ;;
  let new_pos := ptr_diff pos (Vector_begin v) in
  e <- lift (Vector_end v) ;;
  (if decide (pos = e) then
     p <- lift (RawMemory_plus (data_ v) (size_ v)) ;;
     lift (construct_from p args)
   else
     elem <- lift (construct_temporary args) ;;
     on_unwind
       (p <- lift (RawMemory_plus (data_ v) (size_ v)) ;;
        lift (move_construct p (ptr_sub e 1)) ;;;
        first <- lift (RawMemory_plus (data_ v) new_pos) ;;
        lift (std_move_backward first (ptr_sub e 1) e) ;;;
        dst <- lift (RawMemory_plus (data_ v) new_pos) ;;
        lift (assign_in dst (λ l, EvMoveAssign (Slot l) elem) elem))
       (lift destroy_local) ;;;
     lift destroy_local) ;;;
  increment_size ;;;
  ret pos.

(** [Emplace(pos, args...)] *)
Definition Vector_Emplace (pos : ptr) (args : EmplaceArgs) : Method ptr :=
  v <- this ;;
  if size_ v =? RawMemory_Capacity (data_ v)
  then Vector_ReallocationEmplace pos args
  else Vector_NoReallocationEmplace pos args.

(** [EmplaceBack(args...)]; the reference returned is the address of the
    new element. *)
Definition Vector_EmplaceBack (args : EmplaceArgs) : Method ptr :=
  v <- this ;;
  e <- lift (Vector_end v) ;;
  Vector_Emplace e args.

(** [PushBack(const T& value)] *)
Definition Vector_PushBack_copy (value : const_ref) : Method unit :=
  Vector_EmplaceBack (ByCopy value) ;;; ret tt.

(** [PushBack(T&& value)] *)
Definition Vector_PushBack_move (value : T) : Method unit :=
  v <- this ;;
  if size_ v =? RawMemory_Capacity (data_ v) then
    new_data <- lift (RawMemory_sized (GrowthCapacity (size_ v))) ;;
    on_unwind
      (p <- lift (RawMemory_plus new_data (size_ v)) ;;
       lift (move_construct_at p value) ;;;
       lift (Vector_Uninitialized (RawMemory_GetAddress (data_ v)) (size_ v)
                                  (RawMemory_GetAddress new_data)))
      (lift (RawMemory_dtor new_data)) ;;;
    new_data' <- Vector_DestroyAndSwap new_data ;;
    increment_size ;;;
    lift (RawMemory_dtor new_data')
  else
    p <- lift (RawMemory_plus (data_ v) (size_ v)) ;;
    lift (move_construct_at p value) ;;;
    increment_size.

(** [Insert(pos, const T& value)] *)
Definition Vector_Insert_copy (pos : ptr) (value : const_ref) : Method ptr :=
  Vector_Emplace pos (ByCopy value).

(** [Insert(pos, T&& value)] *)
Definition Vector_Insert_move (pos : ptr) (value : T) : Method ptr :=
  Vector_Emplace pos (ByMove value).

(** [PopBack()]; the precondition is a non-empty vector. *)
Definition Vector_PopBack : Method unit :=
  v <- this ;;
  e <- lift (Vector_end v) ;;
  lift (destroy_n (ptr_sub e 1) 1) ;;;
  set_this (mkVector (data_ v) (size_ v - 1)).

(** [Erase(pos)] *)
Definition Vector_Erase (pos : ptr) : Method ptr :=
  v <- this ;;
  e <- lift (Vector_end v) ;;
  (if is_nothrow_move_assignable
   then lift (std_move (ptr_add pos 1) e pos)
   else lift (std_copy (ptr_add pos 1) e pos)) ;;;
  Vector_PopBack ;;;
  ret pos.

End Model.

Arguments slot : clear implicits.
Arguments World : clear implicits.
Arguments M : clear implicits.
Arguments Method : clear implicits.
Arguments const_ref : clear implicits.
Arguments EmplaceArgs : clear implicits.

(** * The vocabulary of the specification *)

(** ** Properties of every outcome *)

(** The state a computation ends in is related by [R] to the state it
    starts in, whatever the outcome. *)
Definition always {S A : Type} (R : relation S) (m : ST S A) : Prop :=
  ∀ s, R s (m s).2.

(** Every exception a computation leaves by satisfies [P]. *)
Definition raises_only {S A : Type} (P : exn → Prop) (m : ST S A) : Prop :=
  ∀ s e, (m s).1 = Thrown e → P e.

(** No exception at all. *)
Definition never (e : exn) : Prop := False.

(** The state a member function call leaves behind, whatever its
    outcome. *)
Definition after {T A : Type} (r : outcome A * (Vector * World T)) : Vector * World T := r.2.

Section Vocabulary.
Context {T : Type} `{ElementType T} `{Faults T}.

(** No allocation fails and no element operation throws. *)
Definition no_throw : Prop := ∀ tr e, throws tr e = false.

(** Relocation is done by copies. *)
Definition relocates_by_copy : Prop :=
  is_nothrow_move_constructible || negb is_copy_constructible = false.

(** ** The abstract contents of a vector *)

(** A buffer of [cap] slots whose prefix holds the live elements [xs]
    and whose other slots are raw. *)
Definition slots_of (xs : list T) (cap : nat) : list (slot T) :=
  (Live <$> xs) ++ replicate (cap - length xs) Raw.

(** In the store [w], the vector [v] is well formed and holds the
    sequence [xs]: [size_] is the length of [xs], which does not exceed
    [capacity_]; a null buffer has capacity 0; any other buffer is the
    start of an existing allocation of [capacity_] slots, the first
    [size_] of which hold [xs] and the others no object. *)
Definition Vector_repr (w : World T) (v : Vector) (xs : list T) : Prop :=
  size_ v = length xs ∧
  length xs ≤ capacity_ (data_ v) ∧
  match buffer_ (data_ v) with
  | None => capacity_ (data_ v) = 0
  | Some (b, o) =>
      o = 0 ∧ b < next_block w ∧
      heap w !! b = Some (slots_of xs (capacity_ (data_ v)))
  end.

(** Reading [v[i]]. *)
Definition Vector_at (v : Vector) (i : nat) : M T T :=
  p <- Vector_index v i ;; read p.

(** The value the argument pack of [Emplace] denotes when the call is
    made on the vector [v] holding [xs]: the value of the object
    referred to, which may be the element [v[i]] itself. *)
Definition args_value (v : Vector) (xs : list T) (args : EmplaceArgs T) (x : T) : Prop :=
  match args with
  | ByCopy (RefObject y) => x = y
  | ByCopy (RefSlot p) => ∃ i, p = ptr_add (Vector_begin v) i ∧ xs !! i = Some x
  | ByMove y => x = y
  end.

(** The byte count [n * sizeof(T)] of a request for [n] elements does
    not wrap around in [size_t]. *)
Definition allocation_fits (n : nat) : Prop :=
  (N.of_nat n * sizeof < size_t_modulus)%N.

(** Two vectors whose buffers are not in the same allocation. *)
Definition disjoint_buffers (a rhs : Vector) : Prop :=
  match buffer_ (data_ a), buffer_ (data_ rhs) with
  | Some (b, _), Some (b', _) => b ≠ b'
  | _, _ => True
  end.

(** ** Relations between stores *)

(** The allocation [b], if it predates the computation, is neither
    released nor written to. *)
Definition keeps (b : block) (w w' : World T) : Prop :=
  b < next_block w → b < next_block w' ∧ heap w' !! b = heap w !! b.

(** The pointer does not point into the allocation [b]. *)
Definition off_block (b : block) (p : ptr) : Prop := ∀ o, p ≠ Some (b, o).

(** A step that builds an object in a slot of the allocation [bd] from a
    live object of another allocation [bs], and leaves [f x] in the
    source. *)
Definition transfers (step : ptr → ptr → M T unit) (f : T → T) : Prop :=
  ∀ bd od bs os w dblk sblk x,
    bs ≠ bd → heap w !! bd = Some dblk → heap w !! bs = Some sblk →
    od < length dblk → sblk !! os = Some (Live x) →
    ∃ w', step (Some (bd, od)) (Some (bs, os)) w = (Normal tt, w') ∧
          heap w' !! bd = Some (<[od := Live x]> dblk) ∧
          heap w' !! bs = Some (<[os := Live (f x)]> sblk) ∧
          (∀ b, b ≠ bs → b ≠ bd → heap w' !! b = heap w !! b) ∧
          next_block w' = next_block w.

(** The step of a construction loop that fills the allocation [b] with
    the elements [xs]. From any store that differs from [w0] in [b]
    only, step [j] either builds [xs !! j] in slot [j] and records
    [ev j x], or throws the element's exception and changes nothing. *)
Definition builds (b : block) (w0 : World T) (step : nat → M T unit)
    (xs : list T) (ev : nat → T → event T) : Prop :=
  ∀ j x w blk,
    xs !! j = Some x → heap w !! b = Some blk → j < length blk →
    (∀ b', b' ≠ b → heap w !! b' = heap w0 !! b') →
    match step j w with
    | (Normal _, w1) =>
        heap w1 !! b = Some (<[j := Live x]> blk) ∧
        (∀ b', b' ≠ b → heap w1 !! b' = heap w !! b') ∧
        next_block w1 = next_block w ∧
        trace w1 = trace w ++ [ev j x]
    | (Thrown e, w1) => e = element_exn ∧ w1 = w
    | (Undefined, _) => False
    end.

(** The destructor calls on the slots [0 .. n) of the allocation [b],
    in order. *)
Definition dtor_events (b : block) (n : nat) : list (event T) :=
  (λ j, EvDtor (Slot (b, j))) <$> seq 0 n.

(** No constraint on the store. *)
Definition any_world : relation (World T) := λ _ _, True.

(** The object is left as it was and the store changes by [R]. *)
Definition lifted (R : relation (World T)) : relation (Vector * World T) :=
  λ s s', s'.1 = s.1 ∧ R s.2 s'.2.

(** The store changes by [R], whatever happens to the object. *)
Definition on_world (R : relation (World T)) : relation (Vector * World T) :=
  λ s s', R s.2 s'.2.

(** ** The trace *)

Definition is_copy_ctor (e : event T) : bool :=
  match e with EvCopyCtor _ _ => true | _ => false end.

Definition is_move_ctor (e : event T) : bool :=
  match e with EvMoveCtor _ _ => true | _ => false end.

(** The trace grows by events that satisfy [Q]. *)
Definition emits (Q : event T → Prop) (w w' : World T) : Prop :=
  ∃ evs, trace w' = trace w ++ evs ∧ Forall Q evs.

Definition no_copy_ctor (e : event T) : Prop := is_copy_ctor e = false.
Definition no_move_ctor (e : event T) : Prop := is_move_ctor e = false.

(** The events of an erasure that shifts by moves, and of one that
    shifts by copies: assignments of the one kind and destructor
    calls. *)
Definition move_assign_or_dtor (e : event T) : Prop :=
  match e with EvMoveAssign _ _ | EvDtor _ => True | _ => False end.

Definition copy_assign_or_dtor (e : event T) : Prop :=
  match e with EvCopyAssign _ _ | EvDtor _ => True | _ => False end.

End Vocabulary.

Arguments keeps : clear implicits.
Arguments any_world : clear implicits.

(** ** Element types to run the program on *)

(** [int]: every operation is [noexcept], a moved-from [int] keeps its
    value, value-initialisation gives zero. *)
Definition int_type : ElementType Z :=
  {| is_nothrow_move_constructible := true;
     is_copy_constructible := true;
     is_nothrow_move_assignable := true;
     moved_from := λ x, x;
     value_initialized := 0%Z;
     is_trivially_destructible := true;
     sizeof := 4 |}.

(** No allocation fails and no element operation throws. *)
Definition no_faults (T : Type) : Faults T := {| throws := λ _ _, false |}.

(** An element type relocated by copies: its move constructor may
    throw and it can be copied. *)
Definition throwing_type : ElementType Z :=
  {| is_nothrow_move_constructible := false;
     is_copy_constructible := true;
     is_nothrow_move_assignable := false;
     moved_from := λ x, x;
     value_initialized := 0%Z;
     is_trivially_destructible := false;
     sizeof := 8 |}.

(** The copy constructor throws when it copies the value 2. *)
Definition copy_of_2_throws : Faults Z :=
  {| throws := λ _ e, match e with EvCopyCtor _ 2%Z => true | _ => false end |}.

(** The copy constructor throws on its third call. *)
Definition third_copy_throws : Faults Z :=
  {| throws := λ tr e,
       match e with
       | EvCopyCtor _ _ => length (filter (λ e', is_copy_ctor e' = true) tr) =? 2
       | _ => false
       end |}.

(** The default constructor throws when it builds the element of
    index 1 of a buffer. *)
Definition second_value_throws : Faults Z :=
  {| throws := λ _ e, match e with EvValueCtor (Slot (_, 1)) => true | _ => false end |}.

Definition empty_world (T : Type) : World T := mkWorld ∅ 0 [].

(** A concrete vector is well formed and holds a given sequence: every
    part of [Vector_repr] by evaluation. *)
Ltac holds_by_computation :=
  split; [reflexivity|]; split; [cbn; lia|]; split; [reflexivity|];
  split; [cbn; lia|]; reflexivity.

(** * Properties *)

(** ** The scenarios of the specification, run on the model *)

(** S1: three appends to an empty vector; the capacity goes 0, 1, 2, 4. *)
Example scenario_S1 :
  let H := int_type in
  let F := no_faults Z in
  ∃ w : World Z,
    after ((Vector_PushBack_move 1 ;;; Vector_PushBack_move 2 ;;;
            Vector_PushBack_move 3)%Z (Vector_default, empty_world Z))
      = (mkVector (mkRawMemory (Some (2, 0)) 4) 3, w) ∧
    heap w !! 2 = Some [Live 1; Live 2; Live 3; Raw]%Z.
Proof. intros HT HF. eexists. split; vm_compute; reflexivity. Qed.

(** S2: [Resize(5)] on an empty vector of [int]. *)
Example scenario_S2 :
  let H := int_type in
  let F := no_faults Z in
  ∃ w : World Z,
    Vector_Resize 5 (Vector_default, empty_world Z)
      = (Normal tt, (mkVector (mkRawMemory (Some (0, 0)) 5) 5, w)) ∧
    heap w !! 0 = Some [Live 0; Live 0; Live 0; Live 0; Live 0]%Z.
Proof. intros HT HF. eexists. split; vm_compute; reflexivity. Qed.

(** S3: [Insert(begin() + 1, 15)] into 10, 20, 30. *)
Example scenario_S3 :
  let H := int_type in
  let F := no_faults Z in
  let w : World Z := mkWorld {[ 2 := [Live 10; Live 20; Live 30; Raw]%Z ]} 3 [] in
  let v := mkVector (mkRawMemory (Some (2, 0)) 4) 3 in
  ∃ w' : World Z,
    Vector_Insert_copy (ptr_add (Vector_begin v) 1) (RefObject 15%Z) (v, w)
      = (Normal (Some (2, 1)), (mkVector (mkRawMemory (Some (2, 0)) 4) 4, w')) ∧
    heap w' !! 2 = Some [Live 10; Live 15; Live 20; Live 30]%Z.
Proof. intros HT HF w v. eexists. split; vm_compute; reflexivity. Qed.

(** S4: [Erase(begin() + 2)] from 10, 20, 30, 40. *)
Example scenario_S4 :
  let H := int_type in
  let F := no_faults Z in
  let w : World Z := mkWorld {[ 2 := [Live 10; Live 20; Live 30; Live 40]%Z ]} 3 [] in
  let v := mkVector (mkRawMemory (Some (2, 0)) 4) 4 in
  ∃ w' : World Z,
    Vector_Erase (ptr_add (Vector_begin v) 2) (v, w)
      = (Normal (Some (2, 2)), (mkVector (mkRawMemory (Some (2, 0)) 4) 3, w')) ∧
    heap w' !! 2 = Some [Live 10; Live 20; Live 40; Raw]%Z.
Proof. intros HT HF w v. eexists. split; vm_compute; reflexivity. Qed.

(** S5: [v.EmplaceBack(v[0])] on a full vector holding 7. *)
Example scenario_S5 :
  let H := int_type in
  let F := no_faults Z in
  let w : World Z := mkWorld {[ 0 := [Live 7%Z] ]} 1 [] in
  let v := mkVector (mkRawMemory (Some (0, 0)) 1) 1 in
  ∃ w' : World Z,
    (p <- lift (Vector_index v 0) ;; Vector_EmplaceBack (ByCopy (RefSlot p))) (v, w)
      = (Normal (Some (1, 1)), (mkVector (mkRawMemory (Some (1, 0)) 2) 2, w')) ∧
    heap w' !! 1 = Some [Live 7; Live 7]%Z ∧
    heap w' !! 0 = None.
Proof. intros HT HF w v. eexists. split; [|split]; vm_compute; reflexivity. Qed.

(** S6: the copy constructor throws on its third call while a vector of
    five elements is copied; the two copies already made are destroyed
    and the new buffer is released. *)
Example scenario_S6 :
  let H := throwing_type in
  let F := third_copy_throws in
  let w : World Z := mkWorld {[ 0 := [Live 0; Live 0; Live 0; Live 0; Live 0]%Z ]} 1 [] in
  let a := mkVector (mkRawMemory (Some (0, 0)) 5) 5 in
  ∃ w' : World Z,
    Vector_copy_ctor a w = (Thrown element_exn, w') ∧
    heap w' = heap w ∧
    trace w' = [EvAllocate 1 5; EvCopyCtor (Slot (1, 0)) 0%Z; EvCopyCtor (Slot (1, 1)) 0%Z;
                EvDtor (Slot (1, 0)); EvDtor (Slot (1, 1)); EvDeallocate 1].
Proof. intros HT HF w a. eexists. split; [|split]; vm_compute; reflexivity. Qed.

Section RawMemoryFacts.
Context {T : Type} `{ElementType T} `{Faults T}.

Lemma RawMemory_Swap_eq (m other : RawMemory) :
  RawMemory_Swap m other = (other, m).
Proof. by destruct m, other. Qed.

(** C10. Move-constructing a vector from [a] gives a vector with [a]'s
    storage and size, and leaves [a] equal to a default-constructed
    vector: size 0, capacity 0, null buffer, [begin()] and [end()] both
    null. *)
Theorem Vector_move_ctor_source_default (a : Vector) :
  let '(b, a') := Vector_move_ctor a in
  b = a ∧
  a' = Vector_default ∧
  Vector_Size a' = 0 ∧
  Vector_Capacity a' = 0 ∧
  buffer_ (data_ a') = nullptr ∧
  Vector_begin a' = nullptr ∧
  ∀ w : World T, Vector_end a' w = (Normal nullptr, w).
Proof.
  destruct a as [[buf cap] n]. cbn. repeat split.
Qed.

(** C4, as the code has it. Move-assignment of a [RawMemory] exchanges
    the two objects: the target receives the buffer and the capacity of
    the source, the source receives the previous buffer and capacity of
    the target, so the source is left in the default state exactly when
    the target was in it. The assignment does not touch the store; the
    previous buffer of the target is released once, by the destructor of
    the source. *)
Theorem RawMemory_move_assign_exchanges (target source : RawMemory) :
  RawMemory_move_assign target source = (source, target) ∧
  ((RawMemory_move_assign target source).2 = RawMemory_default ↔
   target = RawMemory_default) ∧
  ∀ (w : World T) (b : block) (blk : list (slot T)),
    buffer_ target = Some (b, 0) →
    heap w !! b = Some blk →
    RawMemory_dtor (RawMemory_move_assign target source).2 w =
      (Normal tt,
       mkWorld (delete b (heap w)) (next_block w) (trace w ++ [EvDeallocate b])).
Proof.
  unfold RawMemory_move_assign. rewrite RawMemory_Swap_eq. cbn.
  split; [done|]. split; [done|].
  intros w b blk Hbuf Hblk.
  unfold RawMemory_dtor, Deallocate, operator_delete.
  by rewrite Hbuf, Hblk.
Qed.

End RawMemoryFacts.

(** C4, as stated, fails: a target that owns a buffer hands it to the
    source, which is therefore not left in the default state, and the
    buffer is still allocated after the assignment. *)
Lemma RawMemory_move_assign_source_not_default :
  let H := int_type in
  let F := no_faults Z in
  ∃ (target source : RawMemory) (w : World Z),
    (x <- RawMemory_sized 1 ;; y <- RawMemory_sized 2 ;; ret (x, y)) (empty_world Z)
      = (Normal (target, source), w) ∧
    (RawMemory_move_assign target source).2 = target ∧
    (RawMemory_move_assign target source).2 ≠ RawMemory_default ∧
    buffer_ target = Some (0, 0) ∧
    heap w !! 0 = Some [Raw].
Proof.
  intros HT HF. eexists _, _, _. split; [vm_compute; reflexivity|].
  split; [reflexivity|]. split; [discriminate|]. split; reflexivity.
Qed.

Lemma RawMemory_move_assign_exchanges_witness :
  let H := int_type in
  let F := no_faults Z in
  let target := mkRawMemory (Some (0, 0)) 1 in
  let source := mkRawMemory (Some (1, 0)) 2 in
  let w : World Z := mkWorld {[ 0 := [Raw]; 1 := [Raw; Raw] ]} 2 [] in
  buffer_ target = Some (0, 0) ∧
  heap w !! 0 = Some [Raw] ∧
  RawMemory_dtor (RawMemory_move_assign target source).2 w =
    (Normal tt, mkWorld (delete 0 (heap w)) (next_block w) (trace w ++ [EvDeallocate 0])).
Proof.
  intros HT HF target source w.
  split; [reflexivity|]. split; [reflexivity|].
  apply (proj2 (proj2 (RawMemory_move_assign_exchanges target source)) w 0 [Raw]);
    reflexivity.
Defined.

(** ** The destructor *)

Section Destructor.
Context {T : Type} `{ElementType T} `{Faults T}.

(** The destructor call of a trivially destructible [T] on any slot
    that exists. *)
Lemma destroy_at_trivial (l : loc) (w : World T) :
  is_trivially_destructible = true → is_Some (slot_at w (Some l)) →
  destroy_at (Some l) w = (Normal tt, log (EvDtor (Slot l)) (store l Raw w)).
Proof.
  intros Htriv [s Hs]. unfold destroy_at. rewrite Hs, Htriv. by destruct s.
Qed.

Lemma Vector_DestroyN_trace (b : block) (n : nat) (w : World T) :
  is_trivially_destructible = true →
  is_Some (slot_at w (Some (b, 0))) →
  ∃ w', Vector_DestroyN (Some (b, 0)) n w = (Normal tt, w') ∧
        trace w' = trace w ++ replicate n (EvDtor (Slot (b, 0))) ∧
        next_block w' = next_block w ∧
        (∀ blk, heap w !! b = Some blk →
           heap w' !! b = Some (if n is 0 then blk else <[0 := Raw]> blk)).
Proof.
  intros Htriv. revert w. induction n as [|n IH]; intros w Hs.
  - exists w. cbn. rewrite app_nil_r. done.
  - cbn [Vector_DestroyN]. unfold bind, Vector_Destroy.
    rewrite (destroy_at_trivial _ _ Htriv Hs). destruct Hs as [s Hs].
    set (w1 := log _ _).
    assert (Hblk : ∀ blk, heap w !! b = Some blk →
                          heap w1 !! b = Some (<[0 := Raw]> blk)).
    { intros blk Hb. cbn. rewrite lookup_alter_eq, Hb. done. }
    destruct (IH w1) as (w' & Hrun & Htr & Hnb & Hheap).
    { cbn in Hs. destruct (heap w !! b) as [blk|] eqn:Hb; [|done].
      cbn. rewrite lookup_alter_eq, Hb. cbn.
      destruct blk; [done|]. by eexists. }
    exists w'. rewrite Hrun. split; [done|]. split.
    { rewrite Htr. cbn. by rewrite <- app_assoc. }
    split; [done|].
    intros blk Hb. rewrite (Hheap _ (Hblk _ Hb)).
    destruct n; [done|]. by rewrite list_insert_insert_eq.
Qed.

(** What [~Vector()] does to a vector of a trivially destructible [T]
    whose buffer is the allocation [b]: [size_] destructor calls, all
    of them on slot 0, then the release of [b]. *)
Lemma Vector_dtor_trace (b : block) (cap n : nat) (w : World T) :
  is_trivially_destructible = true →
  is_Some (slot_at w (Some (b, 0))) →
  ∃ w', Vector_dtor (mkVector (mkRawMemory (Some (b, 0)) cap) n) w = (Normal tt, w') ∧
        trace w' = trace w ++ replicate n (EvDtor (Slot (b, 0))) ++ [EvDeallocate b].
Proof.
  intros Htriv Hs.
  destruct (Vector_DestroyN_trace b n w Htriv Hs) as (w1 & Hrun & Htr & _ & Hheap).
  unfold Vector_dtor, bind. cbn [data_ size_ RawMemory_GetAddress buffer_].
  rewrite Hrun. unfold RawMemory_dtor, Deallocate, operator_delete.
  cbn [data_ buffer_].
  destruct Hs as [s Hs]. cbn in Hs.
  destruct (heap w !! b) as [blk|] eqn:Hb; [|done].
  rewrite (Hheap _ eq_refl).
  eexists. split; [done|]. cbn. by rewrite Htr, <- app_assoc.
Qed.

End Destructor.

(** C1 fails on the code. A vector holding 1, 2, 3 is built by three
    [PushBack] calls; its destructor then calls the element destructor
    three times on slot 0 and never on slots 1 and 2, and releases the
    buffer. *)
Theorem Vector_dtor_destroys_slot_0_only :
  let H := int_type in
  let F := no_faults Z in
  ∃ (v : Vector) (w w' : World Z),
    after ((Vector_PushBack_move 1 ;;; Vector_PushBack_move 2 ;;;
            Vector_PushBack_move 3)%Z (Vector_default, empty_world Z)) = (v, w) ∧
    v = mkVector (mkRawMemory (Some (2, 0)) 4) 3 ∧
    heap w !! 2 = Some [Live 1; Live 2; Live 3; Raw]%Z ∧
    Vector_dtor v w = (Normal tt, w') ∧
    trace w' = trace w ++ [EvDtor (Slot (2, 0)); EvDtor (Slot (2, 0));
                           EvDtor (Slot (2, 0)); EvDeallocate 2].
Proof.
  intros HT HF. eexists _, _, _.
  split; [vm_compute; reflexivity|].
  split; [reflexivity|]. split; [vm_compute; reflexivity|].
  split; vm_compute; reflexivity.
Qed.

(** ** Assignment *)

Section Assignment.
Context {T : Type} `{ElementType T} `{Faults T}.

(** The in-place branch of move-assignment: the two [RawMemory] members
    are exchanged, both objects end with [rhs.size_], and the store is
    not touched. *)
Lemma Vector_move_assign_in_place (v rhs : Vector) (w : World T) :
  size_ rhs ≤ Vector_Capacity v →
  Vector_move_assign false rhs (v, w) =
    (Normal (mkVector (data_ v) (size_ rhs)), (mkVector (data_ rhs) (size_ rhs), w)).
Proof.
  intros Hle. unfold Vector_move_assign, bind, this.
  cbn [fst snd]. unfold Vector_Capacity in Hle.
  destruct (Nat.ltb_spec (RawMemory_Capacity (data_ v)) (size_ rhs)) as [Hlt|_]; [lia|].
  unfold RawMemory_move_assign. rewrite RawMemory_Swap_eq. done.
Qed.

(** [Reserve(k)] with [k] below the capacity returns at once. *)
Lemma Vector_Reserve_below_capacity (k : nat) (v : Vector) (w : World T) :
  k < Vector_Capacity v →
  Vector_Reserve k (v, w) = (Normal tt, (v, w)).
Proof.
  intros Hlt. unfold Vector_Reserve, bind, this. cbn [fst snd].
  unfold Vector_Capacity in Hlt.
  destruct (Nat.ltb_spec k (RawMemory_Capacity (data_ v))) as [_|Hge]; [done|lia].
Qed.

End Assignment.

(** C3 fails on the code. [a] holds 1, 2 in a buffer of capacity 2 and
    [rhs] holds 5. After [a = std::move(rhs)], [a] owns the buffer of
    [rhs], but the store is exactly as before: no element of [a] was
    destroyed and no buffer was released. The previous buffer of [a],
    with its two live elements, now belongs to [rhs], whose size is
    still 1. *)
Theorem Vector_move_assign_releases_nothing :
  let H := int_type in
  let F := no_faults Z in
  ∃ (a rhs : Vector) (w1 w : World Z),
    after ((Vector_PushBack_move 1 ;;; Vector_PushBack_move 2)%Z
             (Vector_default, empty_world Z)) = (a, w1) ∧
    after (Vector_PushBack_move 5%Z (Vector_default, w1)) = (rhs, w) ∧
    a = mkVector (mkRawMemory (Some (1, 0)) 2) 2 ∧
    rhs = mkVector (mkRawMemory (Some (2, 0)) 1) 1 ∧
    heap w !! 1 = Some [Live 1; Live 2]%Z ∧
    heap w !! 2 = Some [Live 5]%Z ∧
    size_ rhs ≤ Vector_Capacity a ∧
    Vector_move_assign false rhs (a, w) =
      (Normal (mkVector (mkRawMemory (Some (1, 0)) 2) 1),
       (mkVector (mkRawMemory (Some (2, 0)) 1) 1, w)).
Proof.
  intros HT HF. eexists _, _, _, _.
  split; [vm_compute; reflexivity|].
  split; [vm_compute; reflexivity|].
  split; [reflexivity|]. split; [reflexivity|].
  split; [vm_compute; reflexivity|].
  split; [vm_compute; reflexivity|].
  split; [cbn; lia|].
  vm_compute; reflexivity.
Qed.

(** C2 fails on the code. [a] holds 9 in a buffer of capacity 3 and [rhs]
    holds 1, 2, 3. After [a = rhs] the size of [a] is 3, but the new
    elements were constructed from slot 0 on: [a[0]] is 2 and not 1,
    [a[1]] is 3 and not 2, and slot 2 holds no object. *)
Theorem Vector_copy_assign_constructs_at_slot_0 :
  let H := int_type in
  let F := no_faults Z in
  ∃ (a rhs a' : Vector) (w1 w w' : World Z),
    after ((Vector_Reserve 3 ;;; Vector_PushBack_move 9%Z)
             (Vector_default, empty_world Z)) = (a, w1) ∧
    after ((Vector_PushBack_move 1 ;;; Vector_PushBack_move 2 ;;;
            Vector_PushBack_move 3)%Z (Vector_default, w1)) = (rhs, w) ∧
    heap w !! 0 = Some [Live 9; Raw; Raw]%Z ∧
    heap w !! 3 = Some [Live 1; Live 2; Live 3; Raw]%Z ∧
    size_ a ≤ size_ rhs ≤ Vector_Capacity a ∧
    Vector_copy_assign false rhs (a, w) = (Normal tt, (a', w')) ∧
    size_ a' = 3 ∧
    heap w' !! 0 = Some [Live 2; Live 3; Raw]%Z ∧
    (p <- Vector_index a' 0 ;; read p) w' = (Normal 2%Z, w') ∧
    (p <- Vector_index rhs 0 ;; read p) w' = (Normal 1%Z, w') ∧
    (p <- Vector_index a' 2 ;; read p) w' = (Undefined, w').
Proof.
  intros HT HF. eexists _, _, _, _, _, _.
  split; [vm_compute; reflexivity|].
  split; [vm_compute; reflexivity|].
  split; [vm_compute; reflexivity|].
  split; [vm_compute; reflexivity|].
  split; [cbn; lia|].
  split; [vm_compute; reflexivity|].
  split; [reflexivity|].
  split; [vm_compute; reflexivity|].
  split; [vm_compute; reflexivity|].
  split; vm_compute; reflexivity.
Qed.

(** C8 fails on the code when [k] equals the capacity. A vector holding 1
    in a buffer of capacity 1 is asked to [Reserve(1)]: a second buffer
    is allocated, the element is moved into it, the old element is
    destroyed and the old buffer released, so [begin()] changes. *)
Theorem Vector_Reserve_equal_capacity_reallocates :
  let H := int_type in
  let F := no_faults Z in
  ∃ (v v' : Vector) (w w' : World Z),
    after (Vector_PushBack_move 1%Z (Vector_default, empty_world Z)) = (v, w) ∧
    v = mkVector (mkRawMemory (Some (0, 0)) 1) 1 ∧
    Vector_Reserve (Vector_Capacity v) (v, w) = (Normal tt, (v', w')) ∧
    v' = mkVector (mkRawMemory (Some (1, 0)) 1) 1 ∧
    Vector_begin v' ≠ Vector_begin v ∧
    heap w' !! 0 = None ∧
    trace w' = trace w ++ [EvAllocate 1 1; EvMoveCtor (Slot (1, 0)) 1%Z;
                           EvDtor (Slot (0, 0)); EvDeallocate 0].
Proof.
  intros HT HF. eexists _, _, _, _.
  split; [vm_compute; reflexivity|].
  split; [reflexivity|].
  split; [vm_compute; reflexivity|].
  split; [reflexivity|].
  split; [discriminate|].
  split; vm_compute; reflexivity.
Qed.

(** ** Reasoning about the store *)

Section Store.
Context {T : Type} `{ElementType T} `{Faults T}.

Lemma raises_no_throw (w : World T) (e : event T) : no_throw → raises w e = false.
Proof. intros Hn. unfold raises. rewrite Hn. apply andb_false_r. Qed.

Lemma bind_normal {S A B : Type} (m : ST S A) (k : A → ST S B) (s s' : S) (a : A) :
  m s = (Normal a, s') → bind m k s = k a s'.
Proof. intros Hm. unfold bind. by rewrite Hm. Qed.

Lemma bind_thrown {S A B : Type} (m : ST S A) (k : A → ST S B) (s s' : S) (e : exn) :
  m s = (Thrown e, s') → bind m k s = (Thrown e, s').
Proof. intros Hm. unfold bind. by rewrite Hm. Qed.

Lemma on_unwind_normal {S A : Type} (m : ST S A) (c : ST S unit) (s s' : S) (a : A) :
  m s = (Normal a, s') → on_unwind m c s = (Normal a, s').
Proof. intros Hm. unfold on_unwind. by rewrite Hm. Qed.

Lemma lift_eq {A : Type} (m : M T A) (v : Vector) (w w' : World T) (o : outcome A) :
  m w = (o, w') → lift m (v, w) = (o, (v, w')).
Proof. intros Hm. unfold lift. cbn. by rewrite Hm. Qed.

Lemma heap_store_eq (b o : nat) (s : slot T) (w : World T) :
  heap (store (b, o) s w) !! b = (λ blk, <[o := s]> blk) <$> heap w !! b.
Proof. cbn. apply lookup_alter_eq. Qed.

Lemma heap_store_ne (b b' o : nat) (s : slot T) (w : World T) :
  b ≠ b' → heap (store (b, o) s w) !! b' = heap w !! b'.
Proof. intros Hne. cbn. by apply lookup_alter_ne. Qed.

Lemma slot_at_block (w : World T) (b o : nat) (blk : list (slot T)) :
  heap w !! b = Some blk → slot_at w (Some (b, o)) = blk !! o.
Proof. intros Hb. cbn. by rewrite Hb. Qed.

Lemma read_live (w : World T) (b o : nat) (blk : list (slot T)) (x : T) :
  heap w !! b = Some blk → blk !! o = Some (Live x) →
  read (Some (b, o)) w = (Normal x, w).
Proof.
  intros Hb Ho. unfold read. by rewrite (slot_at_block _ _ _ _ Hb), Ho.
Qed.

(** The effect of a constructor call that does not throw. *)
Lemma construct_in_spec (e : loc → event T) (x : T) (b o : nat)
    (w : World T) (blk : list (slot T)) :
  no_throw → heap w !! b = Some blk → o < length blk →
  ∃ w', construct_in (Some (b, o)) e x w = (Normal tt, w') ∧
        heap w' !! b = Some (<[o := Live x]> blk) ∧
        (∀ b', b' ≠ b → heap w' !! b' = heap w !! b') ∧
        next_block w' = next_block w ∧
        trace w' = trace w ++ [e (b, o)].
Proof.
  intros Hn Hb Ho. unfold construct_in.
  rewrite (slot_at_block _ _ _ _ Hb).
  destruct (lookup_lt_is_Some_2 blk o Ho) as [s Hs]. rewrite Hs.
  rewrite raises_no_throw by done.
  eexists. split; [done|]. split.
  { cbn [log heap]. by rewrite heap_store_eq, Hb. }
  split; [|done].
  intros b' Hne. cbn [log heap]. by rewrite heap_store_ne.
Qed.

Lemma assign_in_spec (e : loc → event T) (x y : T) (b o : nat)
    (w : World T) (blk : list (slot T)) :
  no_throw → heap w !! b = Some blk → blk !! o = Some (Live y) →
  ∃ w', assign_in (Some (b, o)) e x w = (Normal tt, w') ∧
        heap w' !! b = Some (<[o := Live x]> blk) ∧
        (∀ b', b' ≠ b → heap w' !! b' = heap w !! b') ∧
        next_block w' = next_block w.
Proof.
  intros Hn Hb Ho. unfold assign_in.
  rewrite (slot_at_block _ _ _ _ Hb), Ho.
  rewrite raises_no_throw by done.
  eexists. split; [done|]. split.
  { cbn [log heap]. by rewrite heap_store_eq, Hb. }
  split; [|done].
  intros b' Hne. cbn [log heap]. by rewrite heap_store_ne.
Qed.

(** The destructor call on a slot that holds an object. *)
Lemma destroy_at_spec (b o : nat) (w : World T) (blk : list (slot T)) (x : T) :
  heap w !! b = Some blk → blk !! o = Some (Live x) →
  ∃ w', destroy_at (Some (b, o)) w = (Normal tt, w') ∧
        heap w' !! b = Some (<[o := Raw]> blk) ∧
        (∀ b', b' ≠ b → heap w' !! b' = heap w !! b') ∧
        next_block w' = next_block w.
Proof.
  intros Hb Hs. unfold destroy_at.
  rewrite (slot_at_block _ _ _ _ Hb). rewrite Hs.
  eexists. split; [done|]. split.
  { cbn [log heap]. by rewrite heap_store_eq, Hb. }
  split; [|done].
  intros b' Hne. cbn [log heap]. by rewrite heap_store_ne.
Qed.

(** [std::destroy_n] over slots of one allocation that hold objects:
    the allocation keeps its extent, the slots of the range hold no
    object afterwards, and nothing else changes. *)
Lemma destroy_n_spec (n b o : nat) (w : World T) (blk : list (slot T)) :
  heap w !! b = Some blk → o + n ≤ length blk →
  (∀ j, o ≤ j < o + n → ∃ x, blk !! j = Some (Live x)) →
  ∃ w' blk', destroy_n (Some (b, o)) n w = (Normal tt, w') ∧
        heap w' !! b = Some blk' ∧
        length blk' = length blk ∧
        (∀ j, o ≤ j < o + n → blk' !! j = Some Raw) ∧
        (∀ j, j < o ∨ o + n ≤ j → blk' !! j = blk !! j) ∧
        (∀ b', b' ≠ b → heap w' !! b' = heap w !! b') ∧
        next_block w' = next_block w.
Proof.
  revert o w blk. induction n as [|n IH]; intros o w blk Hb Hlen Hlive.
  - exists w, blk. cbn. repeat split; try done. intros j ?; lia.
  - destruct (Hlive o) as [x Hx]; [lia|].
    destruct (destroy_at_spec b o w blk x Hb Hx) as (w1 & Hrun & Hb1 & Hfr1 & Hnb1).
    destruct (IH (o + 1) w1 _ Hb1) as (w' & blk' & Hrun' & Hb' & Hlen' & Hin & Hout & Hfr' & Hnb').
    { rewrite length_insert. lia. }
    { intros j Hj. rewrite list_lookup_insert_ne by lia. apply Hlive. lia. }
    exists w', blk'. split.
    { cbn [destroy_n]. rewrite (bind_normal _ _ _ _ _ Hrun). exact Hrun'. }
    split; [done|]. split; [by rewrite Hlen', length_insert|].
    split.
    { intros j Hj. destruct (decide (j = o)) as [->|Hne].
      - rewrite Hout by lia. apply list_lookup_insert_eq. lia.
      - apply Hin. lia. }
    split.
    { intros j Hj. rewrite Hout by lia. apply list_lookup_insert_ne. lia. }
    split; [|congruence].
    intros b' Hne. rewrite Hfr' by done. by apply Hfr1.
Qed.

End Store.

(** ** Relocation *)

Section Relocation.
Context {T : Type} `{ElementType T} `{Faults T}.

Lemma copy_construct_transfers : no_throw → transfers copy_construct (λ x, x).
Proof.
  intros Hn bd od bs os w dblk sblk x Hne Hd Hs Hod Hos.
  destruct (construct_in_spec (λ l, EvCopyCtor (Slot l) x) x bd od w dblk Hn Hd Hod)
    as (w' & Hrun & Hd' & Hfr & Hnb & _).
  exists w'. split.
  { unfold copy_construct. rewrite (bind_normal _ _ _ _ _ (read_live _ _ _ _ _ Hs Hos)).
    exact Hrun. }
  split; [done|]. split.
  { rewrite Hfr by done. rewrite Hs. f_equal. symmetry. by apply list_insert_id. }
  split; [|done]. intros b _ Hb. by apply Hfr.
Qed.

Lemma move_construct_transfers : no_throw → transfers move_construct moved_from.
Proof.
  intros Hn bd od bs os w dblk sblk x Hne Hd Hs Hod Hos.
  destruct (construct_in_spec (λ l, EvMoveCtor (Slot l) x) x bd od w dblk Hn Hd Hod)
    as (w1 & Hrun & Hd' & Hfr & Hnb & _).
  eexists. split.
  { unfold move_construct, move_construct_at.
    rewrite (bind_normal _ _ _ _ _ (read_live _ _ _ _ _ Hs Hos)).
    rewrite (bind_normal _ _ _ _ _ Hrun). unfold leave_moved_from. reflexivity. }
  split.
  { rewrite heap_store_ne by done. done. }
  split.
  { rewrite heap_store_eq, Hfr, Hs by done. done. }
  split; [|done].
  intros b Hbs Hbd. rewrite heap_store_ne by done. by apply Hfr.
Qed.

(** The loop of the [std::uninitialized_*_n] algorithms, from step [i]
    on, between two allocations. *)
Lemma uninitialized_loop_transfers (step : ptr → ptr → M T unit) (f : T → T)
    (bd od bs os : nat) :
  transfers step f → bs ≠ bd →
  ∀ (n i : nat) (w : World T) (dblk sblk : list (slot T)),
    heap w !! bd = Some dblk → heap w !! bs = Some sblk →
    od + i + n ≤ length dblk →
    (∀ j, i ≤ j < i + n → ∃ x, sblk !! (os + j) = Some (Live x)) →
    ∃ w' dblk' sblk',
      uninitialized_loop
        (λ i, step (ptr_add (Some (bd, od)) i) (ptr_add (Some (bs, os)) i))
        (Some (bd, od)) i n w = (Normal tt, w') ∧
      heap w' !! bd = Some dblk' ∧ heap w' !! bs = Some sblk' ∧
      (∀ b, b ≠ bs → b ≠ bd → heap w' !! b = heap w !! b) ∧
      next_block w' = next_block w ∧
      length dblk' = length dblk ∧ length sblk' = length sblk ∧
      (∀ j, i ≤ j < i + n → dblk' !! (od + j) = sblk !! (os + j)) ∧
      (∀ o, o < od + i ∨ od + i + n ≤ o → dblk' !! o = dblk !! o) ∧
      (∀ o, o < os + i ∨ os + i + n ≤ o → sblk' !! o = sblk !! o) ∧
      (∀ j, i ≤ j < i + n → ∃ y, sblk' !! (os + j) = Some (Live y)).
Proof.
  intros Hstep Hne. induction n as [|n IH]; intros i w dblk sblk Hd Hs Hlen Hsrc.
  - exists w, dblk, sblk. cbn. repeat split; try done; intros j ?; lia.
  - destruct (Hsrc i) as [x Hx]; [lia|].
    destruct (Hstep bd (od + i) bs (os + i) w dblk sblk x Hne Hd Hs) as
      (w1 & Hrun & Hd1 & Hs1 & Hfr1 & Hnb1); [lia|done|].
    destruct (IH (S i) w1 _ _ Hd1 Hs1) as
      (w' & dblk' & sblk' & Hrun' & Hd' & Hs' & Hfr' & Hnb' & Hld & Hls & Hin & Hdo & Hso
       & Hlv).
    { rewrite length_insert. lia. }
    { intros j Hj. destruct (Hsrc j) as [y Hy]; [lia|]. exists y.
      rewrite list_lookup_insert_ne by lia. done. }
    exists w', dblk', sblk'. split.
    { cbn [uninitialized_loop].
      rewrite (bind_normal _ _ _ _ _ (on_unwind_normal _ _ _ _ _ Hrun)). exact Hrun'. }
    split; [done|]. split; [done|]. split.
    { intros b Hb1 Hb2. rewrite Hfr' by done. by apply Hfr1. }
    split; [congruence|].
    split; [by rewrite Hld, length_insert|].
    split; [by rewrite Hls, length_insert|].
    split.
    { intros j Hj. destruct (decide (j = i)) as [->|Hji].
      - rewrite Hdo by lia. rewrite list_lookup_insert_eq by lia. done.
      - rewrite Hin by lia. apply list_lookup_insert_ne. lia. }
    split.
    { intros o Ho. rewrite Hdo by lia. apply list_lookup_insert_ne. lia. }
    split.
    { intros o Ho. rewrite Hso by lia. apply list_lookup_insert_ne. lia. }
    intros j Hj. destruct (decide (j = i)) as [->|Hji]; [|apply Hlv; lia].
    exists (f x). rewrite Hso by lia. apply list_lookup_insert_eq.
    by eapply lookup_lt_Some.
Qed.

(** The relocation of [n] live elements from slot [os] of the allocation
    [bs] on, to slot [od] of another allocation [bd] on, when nothing
    throws: the destination range holds the values of the source range,
    and nothing outside the two ranges changes. *)
Lemma Vector_Uninitialized_relocates (n bd od bs os : nat) (w : World T)
    (dblk sblk : list (slot T)) :
  no_throw → bs ≠ bd →
  heap w !! bd = Some dblk → heap w !! bs = Some sblk →
  od + n ≤ length dblk →
  (∀ j, j < n → ∃ x, sblk !! (os + j) = Some (Live x)) →
  ∃ w' dblk' sblk',
    Vector_Uninitialized (Some (bs, os)) n (Some (bd, od)) w = (Normal tt, w') ∧
    heap w' !! bd = Some dblk' ∧ heap w' !! bs = Some sblk' ∧
    (∀ b, b ≠ bs → b ≠ bd → heap w' !! b = heap w !! b) ∧
    next_block w' = next_block w ∧
    length dblk' = length dblk ∧ length sblk' = length sblk ∧
    (∀ j, j < n → dblk' !! (od + j) = sblk !! (os + j)) ∧
    (∀ o, o < od ∨ od + n ≤ o → dblk' !! o = dblk !! o) ∧
    (∀ o, o < os ∨ os + n ≤ o → sblk' !! o = sblk !! o) ∧
    (∀ j, j < n → ∃ y, sblk' !! (os + j) = Some (Live y)).
Proof.
  intros Hn Hne Hd Hs Hlen Hsrc.
  unfold Vector_Uninitialized, uninitialized_move_n, uninitialized_copy_n.
  destruct (is_nothrow_move_constructible || negb is_copy_constructible).
  - destruct (uninitialized_loop_transfers _ _ bd od bs os
                (move_construct_transfers Hn) Hne n 0 w dblk sblk Hd Hs)
      as (w' & dblk' & sblk' & Hrun & Hd' & Hs' & Hfr & Hnb & Hld & Hls & Hin & Hdo & Hso
          & Hlv).
    { lia. } { intros j Hj. apply Hsrc. lia. }
    exists w', dblk', sblk'. split; [exact Hrun|].
    repeat (split; [done|]). split; [intros j Hj; apply Hin; lia|].
    split; [intros o Ho; apply Hdo; lia|].
    split; [intros o Ho; apply Hso; lia|]. intros j Hj. apply Hlv. lia.
  - destruct (uninitialized_loop_transfers _ _ bd od bs os
                (copy_construct_transfers Hn) Hne n 0 w dblk sblk Hd Hs)
      as (w' & dblk' & sblk' & Hrun & Hd' & Hs' & Hfr & Hnb & Hld & Hls & Hin & Hdo & Hso
          & Hlv).
    { lia. } { intros j Hj. apply Hsrc. lia. }
    exists w', dblk', sblk'. split; [exact Hrun|].
    repeat (split; [done|]). split; [intros j Hj; apply Hin; lia|].
    split; [intros o Ho; apply Hdo; lia|].
    split; [intros o Ho; apply Hso; lia|]. intros j Hj. apply Hlv. lia.
Qed.

(** Relocating no element does nothing, whatever the pointers. *)
Lemma Vector_Uninitialized_0 (p q : ptr) (w : World T) :
  Vector_Uninitialized p 0 q w = (Normal tt, w).
Proof.
  unfold Vector_Uninitialized, uninitialized_move_n, uninitialized_copy_n.
  by destruct (_ || _).
Qed.

End Relocation.

(** ** Facts about the representation *)

Section Representation.
Context {T : Type} `{ElementType T} `{Faults T}.

Lemma length_slots_of (xs : list T) (cap : nat) :
  length xs ≤ cap → length (slots_of xs cap) = cap.
Proof.
  intros Hle. unfold slots_of.
  rewrite length_app, length_fmap, length_replicate. lia.
Qed.

Lemma lookup_slots_of_live (xs : list T) (cap j : nat) (x : T) :
  xs !! j = Some x → slots_of xs cap !! j = Some (Live x).
Proof.
  intros Hx. unfold slots_of.
  rewrite lookup_app_l by (rewrite length_fmap; by eapply lookup_lt_Some).
  by rewrite list_lookup_fmap, Hx.
Qed.

Lemma lookup_slots_of_raw (xs : list T) (cap j : nat) :
  length xs ≤ j < cap → slots_of xs cap !! j = Some Raw.
Proof.
  intros Hj. unfold slots_of.
  rewrite lookup_app_r by (rewrite length_fmap; lia).
  rewrite length_fmap. apply lookup_replicate_2. lia.
Qed.

(** A buffer is determined by its extent and its slots. *)
Lemma slots_of_intro (blk : list (slot T)) (xs : list T) (cap : nat) :
  length blk = cap → length xs ≤ cap →
  (∀ j x, xs !! j = Some x → blk !! j = Some (Live x)) →
  (∀ j, length xs ≤ j < cap → blk !! j = Some Raw) →
  blk = slots_of xs cap.
Proof.
  intros Hlen Hle Hlive Hraw. apply list_eq. intros j.
  destruct (decide (j < length xs)) as [Hj|Hj].
  - destruct (lookup_lt_is_Some_2 xs j Hj) as [x Hx].
    by rewrite (Hlive _ _ Hx), (lookup_slots_of_live _ _ _ _ Hx).
  - destruct (decide (j < cap)) as [Hc|Hc].
    + rewrite Hraw by lia. by rewrite lookup_slots_of_raw by lia.
    + rewrite lookup_ge_None_2 by lia.
      by rewrite lookup_ge_None_2 by (rewrite length_slots_of by done; lia).
Qed.

Lemma RawMemory_sized_spec (n : nat) (w : World T) :
  no_throw → n ≠ 0 →
  RawMemory_sized n w =
    (Normal (mkRawMemory (Some (next_block w, 0)) n),
     mkWorld (<[next_block w := replicate n Raw]> (heap w)) (S (next_block w))
             (trace w ++ [EvAllocate (next_block w) n])).
Proof.
  intros Hn Hne. unfold RawMemory_sized, Allocate, bind, operator_new.
  destruct (Nat.eqb_spec n 0) as [->|_]; [done|].
  by rewrite raises_no_throw.
Qed.

Lemma RawMemory_dtor_spec (b cap : nat) (w : World T) (blk : list (slot T)) :
  heap w !! b = Some blk →
  RawMemory_dtor (mkRawMemory (Some (b, 0)) cap) w =
    (Normal tt, mkWorld (delete b (heap w)) (next_block w) (trace w ++ [EvDeallocate b])).
Proof.
  intros Hb. unfold RawMemory_dtor, Deallocate, operator_delete. cbn. by rewrite Hb.
Qed.

Lemma RawMemory_dtor_null (cap : nat) (w : World T) :
  RawMemory_dtor (mkRawMemory None cap) w = (Normal tt, w).
Proof. done. Qed.

(** The constructor call of [Emplace] writes the value the arguments
    denote; an argument referring to a slot is read in the store as it
    is when the constructor runs. *)
Lemma construct_from_spec (args : EmplaceArgs T) (x : T) (b o : nat)
    (w : World T) (blk : list (slot T)) :
  no_throw → heap w !! b = Some blk → o < length blk →
  match args with
  | ByCopy (RefSlot p) => read p w = (Normal x, w)
  | ByCopy (RefObject y) | ByMove y => x = y
  end →
  ∃ w', construct_from (Some (b, o)) args w = (Normal tt, w') ∧
        heap w' !! b = Some (<[o := Live x]> blk) ∧
        (∀ b', b' ≠ b → heap w' !! b' = heap w !! b') ∧
        next_block w' = next_block w.
Proof.
  intros Hn Hb Ho Hargs. destruct args as [[y|p]|y]; cbn [construct_from].
  - subst y.
    destruct (construct_in_spec (λ l, EvCopyCtor (Slot l) x) x b o w blk Hn Hb Ho)
      as (w' & ? & ? & ? & ? & _). by exists w'.
  - destruct (construct_in_spec (λ l, EvCopyCtor (Slot l) x) x b o w blk Hn Hb Ho)
      as (w' & ? & ? & ? & ? & _). exists w'. split; [|done].
    unfold copy_construct. by rewrite (bind_normal _ _ _ _ _ Hargs).
  - subst y.
    destruct (construct_in_spec (λ l, EvMoveCtor (Slot l) x) x b o w blk Hn Hb Ho)
      as (w' & ? & ? & ? & ? & _). by exists w'.
Qed.

End Representation.

(** ** Insertion with reallocation *)

Section Growth.
Context {T : Type} `{ElementType T} `{Faults T}.

Lemma GrowthCapacity_eq (n : nat) :
  (N.of_nat n * 2 < size_t_modulus)%N →
  GrowthCapacity n = if n =? 0 then 1 else 2 * n.
Proof.
  intros Hfit. unfold GrowthCapacity. destruct (n =? 0); [done|].
  rewrite N.mod_small by done. lia.
Qed.

Lemma Vector_DestroyAndSwap_spec (new_data : RawMemory) (b cap n : nat)
    (w : World T) (blk : list (slot T)) :
  heap w !! b = Some blk → n ≤ length blk →
  (∀ j, j < n → ∃ x, blk !! j = Some (Live x)) →
  ∃ w', Vector_DestroyAndSwap new_data (mkVector (mkRawMemory (Some (b, 0)) cap) n, w) =
          (Normal (mkRawMemory (Some (b, 0)) cap), (mkVector new_data n, w')) ∧
        next_block w' = next_block w ∧
        is_Some (heap w' !! b) ∧
        ∀ b', b' ≠ b → heap w' !! b' = heap w !! b'.
Proof.
  intros Hheap Hlen Hlive.
  unfold Vector_DestroyAndSwap.
  rewrite (bind_normal this _ _ _ _ eq_refl). cbn [fst data_ size_ RawMemory_GetAddress buffer_].
  destruct (destroy_n_spec n b 0 w _ Hheap) as (w' & blk' & Hrun & Hb' & _ & _ & _ & Hfr & Hnb);
    [lia|intros j Hj; apply Hlive; lia|].
  exists w'. rewrite (bind_normal _ _ _ _ _ (lift_eq _ _ _ _ _ Hrun)).
  rewrite RawMemory_Swap_eq. split; [reflexivity|]. split; [done|]. split; [by eexists|done].
Qed.

Lemma Vector_DestroyAndSwap_null (new_data : RawMemory) (cap : nat) (w : World T) :
  Vector_DestroyAndSwap new_data (mkVector (mkRawMemory None cap) 0, w) =
    (Normal (mkRawMemory None cap), (mkVector new_data 0, w)).
Proof. by destruct new_data. Qed.

Lemma RawMemory_plus_ok (m : RawMemory) (offset : nat) (w : World T) :
  offset ≤ capacity_ m →
  RawMemory_plus m offset w = (Normal (ptr_add (buffer_ m) offset), w).
Proof.
  intros Hle. unfold RawMemory_plus.
  by destruct (Nat.leb_spec offset (capacity_ m)); [|lia].
Qed.

Lemma lookup_insert_middle (xs : list T) (k j : nat) (x y : T) :
  k ≤ length xs →
  (take k xs ++ x :: drop k xs) !! j = Some y →
  (j < k ∧ xs !! j = Some y) ∨ (j = k ∧ y = x) ∨ (k < j ∧ xs !! (j - 1) = Some y).
Proof.
  intros Hk Hj.
  destruct (decide (j < k)) as [Hlt|Hge].
  - left. split; [done|].
    rewrite lookup_app_l in Hj by (rewrite length_take; lia).
    by rewrite lookup_take_lt in Hj.
  - right. rewrite lookup_app_r in Hj by (rewrite length_take; lia).
    rewrite length_take, Nat.min_l in Hj by done.
    destruct (decide (j = k)) as [->|Hne].
    + left. rewrite Nat.sub_diag in Hj. cbn in Hj. split; congruence.
    + right. split; [lia|].
      replace (j - k) with (S (j - k - 1)) in Hj by lia.
      change (drop k xs !! (j - k - 1) = Some y) in Hj.
      rewrite lookup_drop in Hj. by replace (j - 1) with (k + (j - k - 1)) by lia.
Qed.

Lemma Vector_ReallocationEmplace_spec (w : World T) (v : Vector) (xs : list T)
    (k : nat) (args : EmplaceArgs T) (x : T) :
  no_throw → Vector_repr w v xs → k ≤ length xs → args_value v xs args x →
  (N.of_nat (size_ v) * 2 < size_t_modulus)%N →
  ∃ v' w',
    Vector_ReallocationEmplace (ptr_add (Vector_begin v) k) args (v, w) =
      (Normal (ptr_add (Vector_begin v') k), (v', w')) ∧
    Vector_repr w' v' (take k xs ++ x :: drop k xs) ∧
    data_ v' = mkRawMemory (Some (next_block w, 0)) (GrowthCapacity (size_ v)) ∧
    size_ v' = S (size_ v).
Proof.
  intros Hn Hrepr Hk Hargs Hfit.
  pose proof (GrowthCapacity_eq _ Hfit) as Hcap'.
  destruct Hrepr as (Hsize & Hle & Hbuf).
  destruct v as [[buf cap] n]. cbn [size_ data_ buffer_ capacity_] in *.
  set (cap' := GrowthCapacity n) in *.
  set (nb := next_block w).
  assert (Hgrow : n + 1 ≤ cap').
  { rewrite Hcap'. destruct (Nat.eqb_spec n 0); lia. }
  set (xs' := take k xs ++ x :: drop k xs).
  assert (Hlen' : length xs' = S n).
  { unfold xs'. rewrite length_app, length_cons, length_take, length_drop. lia. }
  set (new_data := mkRawMemory (Some (nb, 0)) cap').
  set (w1 := mkWorld (<[nb := replicate cap' Raw]> (heap w)) (S nb)
                     (trace w ++ [EvAllocate nb cap'])).
  assert (Halloc : RawMemory_sized cap' w = (Normal new_data, w1)).
  { apply RawMemory_sized_spec; [done|lia]. }
  assert (Hnb1 : heap w1 !! nb = Some (replicate cap' Raw)).
  { cbn. apply lookup_insert_eq. }
  assert (Hnpos : ptr_diff (ptr_add buf k) buf = k).
  { destruct buf as [[b o]|]; cbn; lia. }
  unfold Vector_ReallocationEmplace.
  rewrite (bind_normal this _ _ _ _ eq_refl).
  cbn [fst data_ size_ Vector_begin RawMemory_GetAddress buffer_].
  rewrite Hnpos. fold cap'.
  rewrite (bind_normal _ _ _ _ _ (lift_eq _ _ _ _ _ Halloc)).
  assert (Hplus : RawMemory_plus new_data k w1 = (Normal (Some (nb, 0 + k)), w1)).
  { apply RawMemory_plus_ok. cbn. lia. }
  destruct buf as [[b o]|].
  - destruct Hbuf as (-> & Hb & Hheap). fold nb in Hb.
    assert (Hne : b ≠ nb) by (unfold nb; lia).
    assert (Hb1 : heap w1 !! b = Some (slots_of xs cap)).
    { cbn. rewrite lookup_insert_ne by lia. done. }
    destruct (construct_from_spec args x nb (0 + k) w1 _ Hn Hnb1)
      as (w2 & Hrun2 & Hnb2 & Hfr2 & Hnx2).
    { rewrite length_replicate. lia. }
    { destruct args as [[y|p]|y]; try done.
      destruct Hargs as (i & -> & Hi). cbn.
      eapply read_live; [exact Hb1|]. by apply lookup_slots_of_live. }
    assert (Hb2 : heap w2 !! b = Some (slots_of xs cap)).
    { rewrite Hfr2 by lia. done. }
    destruct (Vector_Uninitialized_relocates k nb 0 b 0 w2 _ _ Hn Hne Hnb2 Hb2)
      as (w3 & dblk3 & sblk3 & Hrun3 & Hnb3 & Hb3 & Hfr3 & Hnx3 & Hld3 & Hls3 & Hin3 & Hdo3 & Hso3
          & Hlv3).
    { rewrite length_insert, length_replicate. lia. }
    { intros j Hj. destruct (lookup_lt_is_Some_2 xs j) as [y Hy]; [lia|].
      exists y. by apply lookup_slots_of_live. }
    destruct (Vector_Uninitialized_relocates (n - k) nb (0 + k + 1) b (0 + k) w3 _ _
                Hn Hne Hnb3 Hb3)
      as (w4 & dblk4 & sblk4 & Hrun4 & Hnb4 & Hb4 & Hfr4 & Hnx4 & Hld4 & Hls4 & Hin4 & Hdo4 & Hso4
          & Hlv4).
    { rewrite Hld3, length_insert, length_replicate. lia. }
    { intros j Hj. destruct (lookup_lt_is_Some_2 xs (k + j)) as [y Hy]; [lia|].
      exists y. rewrite Hso3 by lia. apply lookup_slots_of_live.
      by replace (0 + k + j) with (k + j) by lia. }
    destruct (Vector_DestroyAndSwap_spec new_data b cap n w4 _ Hb4)
      as (w5 & Hrun5 & Hnx5 & [blk5 Hb5] & Hfr5).
    { rewrite Hls4, Hls3, length_slots_of by done. lia. }
    { intros j Hj. destruct (decide (j < k)) as [Hjk|Hjk].
      - rewrite Hso4 by lia. apply (Hlv3 j Hjk).
      - replace j with (0 + k + (j - k)) by lia. apply Hlv4. lia. }
    eexists (mkVector new_data (S n)), _. split.
    { erewrite bind_normal; cycle 1.
      { apply on_unwind_normal.
        rewrite (bind_normal _ _ _ _ _ (lift_eq _ _ _ _ _ Hplus)).
        rewrite (bind_normal _ _ _ _ _ (lift_eq _ _ _ _ _ Hrun2)).
        rewrite (bind_normal _ _ _ _ _ (lift_eq _ _ _ _ _ Hrun3)).
        rewrite (bind_normal _ _ _ _ _
                   (lift_eq _ _ _ _ _ (RawMemory_plus_ok (mkRawMemory (Some (b, 0)) cap) k w3
                                         ltac:(cbn; lia)))).
        rewrite (bind_normal _ _ _ _ _ (lift_eq _ _ _ _ _ Hrun4)).
        reflexivity. }
      rewrite (bind_normal _ _ _ _ _ Hrun5).
      rewrite (bind_normal increment_size _ _ _ _ eq_refl).
      cbn [fst snd data_ size_].
      rewrite (bind_normal _ _ _ _ _
                 (lift_eq _ _ _ _ _ (RawMemory_dtor_spec b cap w5 _ Hb5))).
      reflexivity. }
    split; [|done].
    split; [by rewrite Hlen'|]. split; [rewrite Hlen'; cbn; lia|].
    cbn [data_ buffer_ new_data capacity_ next_block heap].
    split; [done|]. split; [rewrite Hnx5, Hnx4, Hnx3, Hnx2; cbn; lia|].
    rewrite lookup_delete_ne by lia. rewrite Hfr5 by lia. rewrite Hnb4. f_equal.
    apply slots_of_intro.
    + rewrite Hld4, Hld3, length_insert, length_replicate. done.
    + lia.
    + intros j y Hj.
      destruct (lookup_insert_middle xs k j x y Hk Hj) as [[Hjk Hy]|[[-> ->]|[Hjk Hy]]].
      * rewrite Hdo4 by lia. rewrite (Hin3 j Hjk : dblk3 !! j = _).
        by apply lookup_slots_of_live.
      * rewrite Hdo4 by lia. rewrite Hdo3 by lia.
        apply list_lookup_insert_eq. rewrite length_replicate. lia.
      * pose proof (lookup_lt_Some _ _ _ Hy) as Hlt.
        replace j with (0 + k + 1 + (j - k - 1)) by lia.
        rewrite Hin4 by lia. rewrite Hso3 by lia.
        apply lookup_slots_of_live. by replace (0 + k + (j - k - 1)) with (j - 1) by lia.
    + intros j Hj. rewrite Hlen' in Hj.
      rewrite Hdo4 by lia. rewrite Hdo3 by lia.
      rewrite list_lookup_insert_ne by lia. apply lookup_replicate_2. lia.
  - assert (n = 0) as -> by lia. assert (k = 0) as -> by lia.
    destruct xs; [|done]. clear Hnpos.
    destruct (construct_from_spec args x nb (0 + 0) w1 _ Hn Hnb1)
      as (w2 & Hrun2 & Hnb2 & Hfr2 & Hnx2).
    { rewrite length_replicate. lia. }
    { destruct args as [[y|p]|y]; try done. by destruct Hargs as (i & _ & Hi). }
    eexists (mkVector new_data 1), _. split.
    { erewrite bind_normal; cycle 1.
      { apply on_unwind_normal.
        rewrite (bind_normal _ _ _ _ _ (lift_eq _ _ _ _ _ Hplus)).
        rewrite (bind_normal _ _ _ _ _ (lift_eq _ _ _ _ _ Hrun2)).
        rewrite (bind_normal _ _ _ _ _
                   (lift_eq _ _ _ _ _ (Vector_Uninitialized_0 None (Some (nb, 0)) w2))).
        rewrite (bind_normal _ _ _ _ _
                   (lift_eq _ _ _ _ _ (RawMemory_plus_ok (mkRawMemory None cap) 0 w2
                                         ltac:(cbn; lia)))).
        cbn [ptr_add buffer_ Nat.sub].
        rewrite (bind_normal _ _ _ _ _
                   (lift_eq _ _ _ _ _ (Vector_Uninitialized_0 None _ w2))).
        reflexivity. }
      rewrite (bind_normal _ _ _ _ _ (Vector_DestroyAndSwap_null new_data cap w2)).
      rewrite (bind_normal increment_size _ _ _ _ eq_refl).
      cbn [fst snd data_ size_].
      rewrite (bind_normal _ _ _ _ _ (lift_eq _ _ _ _ _ (RawMemory_dtor_null cap w2))).
      reflexivity. }
    split; [|done].
    split; [done|]. split; [cbn; lia|].
    cbn [data_ buffer_ new_data capacity_].
    split; [done|]. split; [rewrite Hnx2; cbn; lia|].
    rewrite Hnb2. reflexivity.
Qed.

End Growth.

(** ** Insertion in place *)

Section InPlace.
Context {T : Type} `{ElementType T} `{Faults T}.

Lemma move_construct_same_block (b d s : nat) (w : World T) (blk : list (slot T)) (x : T) :
  no_throw → heap w !! b = Some blk → d < length blk → blk !! s = Some (Live x) →
  ∃ w', move_construct (Some (b, d)) (Some (b, s)) w = (Normal tt, w') ∧
        heap w' !! b = Some (<[s := Live (moved_from x)]> (<[d := Live x]> blk)) ∧
        (∀ b', b' ≠ b → heap w' !! b' = heap w !! b') ∧
        next_block w' = next_block w.
Proof.
  intros Hn Hb Hd Hs.
  destruct (construct_in_spec (λ l, EvMoveCtor (Slot l) x) x b d w blk Hn Hb Hd)
    as (w1 & Hrun & Hb1 & Hfr & Hnb & _).
  eexists. split.
  { unfold move_construct, move_construct_at.
    rewrite (bind_normal _ _ _ _ _ (read_live _ _ _ _ _ Hb Hs)).
    rewrite (bind_normal _ _ _ _ _ Hrun). unfold leave_moved_from. reflexivity. }
  split; [by rewrite heap_store_eq, Hb1|].
  split; [|done].
  intros b' Hne. rewrite heap_store_ne by done. by apply Hfr.
Qed.

Lemma move_assign_same_block (b d s : nat) (w : World T) (blk : list (slot T)) (x y : T) :
  no_throw → heap w !! b = Some blk → blk !! d = Some (Live y) → blk !! s = Some (Live x) →
  ∃ w', move_assign (Some (b, d)) (Some (b, s)) w = (Normal tt, w') ∧
        heap w' !! b = Some (<[s := Live (moved_from x)]> (<[d := Live x]> blk)) ∧
        (∀ b', b' ≠ b → heap w' !! b' = heap w !! b') ∧
        next_block w' = next_block w.
Proof.
  intros Hn Hb Hd Hs.
  destruct (assign_in_spec (λ l, EvMoveAssign (Slot l) x) x y b d w blk Hn Hb Hd)
    as (w1 & Hrun & Hb1 & Hfr & Hnb).
  eexists. split.
  { unfold move_assign.
    rewrite (bind_normal _ _ _ _ _ (read_live _ _ _ _ _ Hb Hs)).
    rewrite (bind_normal _ _ _ _ _ Hrun). unfold leave_moved_from. reflexivity. }
  split; [by rewrite heap_store_eq, Hb1|].
  split; [|done].
  intros b' Hne. rewrite heap_store_ne by done. by apply Hfr.
Qed.

(** [std::move_backward] of the [n] elements that end at slot [L]
    (excluded) to the range that ends at slot [L + 1] (excluded): every
    element moves up by one slot. *)
Lemma move_backward_loop_spec (b : nat) :
  no_throw →
  ∀ (n L : nat) (w : World T) (blk : list (slot T)),
    heap w !! b = Some blk → n ≤ L → L < length blk →
    (∀ j, L - n ≤ j ≤ L → ∃ y, blk !! j = Some (Live y)) →
    ∃ w' blk',
      move_backward_loop (Some (b, L)) (Some (b, S L)) n w = (Normal tt, w') ∧
      heap w' !! b = Some blk' ∧ length blk' = length blk ∧
      (∀ b', b' ≠ b → heap w' !! b' = heap w !! b') ∧
      next_block w' = next_block w ∧
      (∀ j, L - n < j ≤ L → blk' !! j = blk !! (j - 1)) ∧
      (∀ j, j < L - n ∨ L < j → blk' !! j = blk !! j) ∧
      (∃ y, blk' !! (L - n) = Some (Live y)).
Proof.
  intros Hn. induction n as [|n IH]; intros L w blk Hb HnL HL Hlive.
  - exists w, blk. cbn. repeat split; try done.
    + intros j ?; lia.
    + apply Hlive. lia.
  - destruct L as [|L]; [lia|].
    destruct (Hlive (S L)) as [y Hy]; [lia|].
    destruct (Hlive L) as [x Hx]; [lia|].
    destruct (move_assign_same_block b (S L) L w blk x y Hn Hb Hy Hx)
      as (w1 & Hrun & Hb1 & Hfr1 & Hnb1).
    destruct (IH L w1 _ Hb1) as (w' & blk' & Hrun' & Hb' & Hlen' & Hfr' & Hnb' & Hup & Hout & Hlow).
    { lia. } { rewrite !length_insert. lia. }
    { intros j Hj. destruct (decide (j = L)) as [->|Hne].
      - eexists. apply list_lookup_insert_eq. rewrite length_insert. lia.
      - destruct (Hlive j) as [z Hz]; [lia|]. exists z.
        rewrite !list_lookup_insert_ne by lia. done. }
    exists w', blk'. split.
    { cbn [move_backward_loop ptr_sub].
      replace (S (S L) - 1) with (S L) by lia. replace (S L - 1) with L by lia.
      rewrite (bind_normal _ _ _ _ _ Hrun). exact Hrun'. }
    split; [done|]. split; [by rewrite Hlen', !length_insert|].
    split; [intros b' Hne; rewrite Hfr' by done; by apply Hfr1|].
    split; [congruence|].
    replace (S L - S n) with (L - n) by lia.
    split.
    { intros j Hj. destruct (decide (j = S L)) as [->|Hne].
      - rewrite Hout by lia. rewrite list_lookup_insert_ne by lia.
        rewrite list_lookup_insert_eq by lia. by replace (S L - 1) with L by lia.
      - rewrite Hup by lia. rewrite !list_lookup_insert_ne by lia. done. }
    split; [|done].
    intros j Hj. rewrite Hout by lia. rewrite !list_lookup_insert_ne by lia. done.
Qed.

Lemma construct_temporary_spec (args : EmplaceArgs T) (x : T) (w : World T) :
  no_throw →
  match args with
  | ByCopy (RefSlot p) => read p w = (Normal x, w)
  | ByCopy (RefObject y) | ByMove y => x = y
  end →
  ∃ w', construct_temporary args w = (Normal x, w') ∧
        heap w' = heap w ∧ next_block w' = next_block w.
Proof.
  intros Hn Hargs. destruct args as [[y|p]|y]; cbn [construct_temporary].
  - subst y. unfold construct_local. rewrite raises_no_throw by done. by eexists.
  - rewrite (bind_normal _ _ _ _ _ Hargs).
    unfold construct_local. rewrite raises_no_throw by done. by eexists.
  - subst y. unfold construct_local. rewrite raises_no_throw by done. by eexists.
Qed.

Lemma Vector_NoReallocationEmplace_spec (w : World T) (v : Vector) (xs : list T)
    (k : nat) (args : EmplaceArgs T) (x : T) :
  no_throw → Vector_repr w v xs → size_ v < Vector_Capacity v →
  k ≤ length xs → args_value v xs args x →
  ∃ w',
    Vector_NoReallocationEmplace (ptr_add (Vector_begin v) k) args (v, w) =
      (Normal (ptr_add (Vector_begin v) k), (mkVector (data_ v) (S (size_ v)), w')) ∧
    Vector_repr w' (mkVector (data_ v) (S (size_ v))) (take k xs ++ x :: drop k xs).
Proof.
  intros Hn (Hsize & Hle & Hbuf) Hroom Hk Hargs.
  destruct v as [[buf cap] n].
  cbn [size_ data_ buffer_ capacity_ Vector_Capacity RawMemory_Capacity] in *.
  destruct buf as [[b o]|]; [|lia].
  destruct Hbuf as (-> & Hb & Hheap).
  set (xs' := take k xs ++ x :: drop k xs).
  assert (Hlen' : length xs' = S n).
  { unfold xs'. rewrite length_app, length_cons, length_take, length_drop. lia. }
  set (blk := slots_of xs cap) in *.
  assert (Hblk : length blk = cap) by (by apply length_slots_of).
  assert (Hread : match args with
                  | ByCopy (RefSlot p) => read p w = (Normal x, w)
                  | ByCopy (RefObject y) | ByMove y => x = y
                  end).
  { destruct args as [[y|p]|y]; try done.
    destruct Hargs as (i & -> & Hi). cbn.
    eapply read_live; [exact Hheap|]. by apply lookup_slots_of_live. }
  unfold Vector_NoReallocationEmplace.
  rewrite (bind_normal this _ _ _ _ eq_refl).
  cbn [fst data_ size_ Vector_begin RawMemory_GetAddress buffer_ Vector_end ptr_add ptr_diff].
  replace (0 + k - 0) with k by lia.
  rewrite (bind_normal _ _ _ _ _
             (lift_eq _ _ _ _ _ (RawMemory_plus_ok (mkRawMemory (Some (b, 0)) cap) n w
                                   ltac:(cbn; lia)))).
  cbn [buffer_ ptr_add ptr_sub].
  destruct (decide (Some (b, 0 + k) = Some (b, 0 + n))) as [Heq|Hneq].
  - (* pos == end() *)
    assert (k = n) as -> by (injection Heq; lia).
    destruct (construct_from_spec args x b (0 + n) w _ Hn Hheap)
      as (w1 & Hrun1 & Hb1 & Hfr1 & Hnx1); [lia|done|].
    exists w1. split.
    { erewrite bind_normal; cycle 1.
      { rewrite (bind_normal _ _ _ _ _
                 (lift_eq _ _ _ _ _ (RawMemory_plus_ok (mkRawMemory (Some (b, 0)) cap) n w
                                       ltac:(cbn; lia)))).
        cbn [buffer_ ptr_add]. apply lift_eq. exact Hrun1. }
      reflexivity. }
    split; [by rewrite Hlen'|]. split; [rewrite Hlen'; cbn; lia|].
    cbn [data_ buffer_ capacity_].
    split; [done|]. split; [lia|].
    rewrite Hb1. f_equal. apply slots_of_intro.
    + by rewrite length_insert.
    + lia.
    + intros j y Hj.
      destruct (lookup_insert_middle xs n j x y Hk Hj) as [[Hjk Hy]|[[-> ->]|[Hjk Hy]]].
      * rewrite list_lookup_insert_ne by lia. by apply lookup_slots_of_live.
      * apply list_lookup_insert_eq. lia.
      * apply lookup_lt_Some in Hy. lia.
    + intros j Hj. rewrite Hlen' in Hj.
      rewrite list_lookup_insert_ne by lia. apply lookup_slots_of_raw. lia.
  - (* pos != end() *)
    assert (Hkn : k < n) by (destruct (decide (k = n)) as [->|]; [done|lia]).
    destruct (construct_temporary_spec args x w Hn Hread) as (w0 & Hrun0 & Hh0 & Hnx0).
    assert (Hheap0 : heap w0 !! b = Some blk) by (by rewrite Hh0).
    destruct (lookup_lt_is_Some_2 xs (n - 1)) as [xl Hxl]; [lia|].
    destruct (move_construct_same_block b (0 + n) (n - 1) w0 blk xl Hn Hheap0)
      as (w1 & Hrun1 & Hb1 & Hfr1 & Hnx1); [lia|by apply lookup_slots_of_live|].
    set (blk1 := <[n - 1 := Live (moved_from xl)]> (<[0 + n := Live xl]> blk)) in *.
    destruct (move_backward_loop_spec b Hn (n - 1 - k) (n - 1) w1 blk1 Hb1)
      as (w2 & blk2 & Hrun2 & Hb2 & Hlen2 & Hfr2 & Hnx2 & Hup2 & Hout2 & [yk Hlow2]).
    { lia. } { unfold blk1. rewrite !length_insert. lia. }
    { intros j Hj. unfold blk1. destruct (decide (j = n - 1)) as [->|Hne].
      - eexists. apply list_lookup_insert_eq. rewrite length_insert. lia.
      - destruct (lookup_lt_is_Some_2 xs j) as [z Hz]; [lia|]. exists z.
        rewrite !list_lookup_insert_ne by lia. by apply lookup_slots_of_live. }
    replace (n - 1 - (n - 1 - k)) with k in * by lia.
    destruct (assign_in_spec (λ l, EvMoveAssign (Slot l) x) x yk b (0 + k) w2 blk2 Hn Hb2 Hlow2)
      as (w3 & Hrun3 & Hb3 & Hfr3 & Hnx3).
    eexists. split.
    { erewrite bind_normal; cycle 1.
      { rewrite (bind_normal _ _ _ _ _ (lift_eq _ _ _ _ _ Hrun0)).
        erewrite bind_normal; cycle 1.
        { apply on_unwind_normal.
          rewrite (bind_normal _ _ _ _ _
                 (lift_eq _ _ _ _ _ (RawMemory_plus_ok (mkRawMemory (Some (b, 0)) cap) n w0
                                       ltac:(cbn; lia)))).
          cbn [buffer_ ptr_add].
          replace (0 + n - 1) with (n - 1) by lia.
          rewrite (bind_normal _ _ _ _ _ (lift_eq _ _ _ _ _ Hrun1)).
          rewrite (bind_normal _ _ _ _ _
                 (lift_eq _ _ _ _ _ (RawMemory_plus_ok (mkRawMemory (Some (b, 0)) cap) k w1
                                       ltac:(cbn; lia)))).
          cbn [buffer_ ptr_add].
          unfold std_move_backward. cbn [ptr_diff].
          replace (n - 1 - (0 + k)) with (n - 1 - k) by lia.
          replace (Some (b, 0 + n)) with (Some (b, S (n - 1))) by (f_equal; f_equal; lia).
          rewrite (bind_normal _ _ _ _ _ (lift_eq _ _ _ _ _ Hrun2)).
          rewrite (bind_normal _ _ _ _ _
                 (lift_eq _ _ _ _ _ (RawMemory_plus_ok (mkRawMemory (Some (b, 0)) cap) k w2
                                       ltac:(cbn; lia)))).
          cbn [buffer_ ptr_add].
          apply lift_eq. exact Hrun3. }
        reflexivity. }
      reflexivity. }
    split; [by rewrite Hlen'|]. split; [rewrite Hlen'; cbn; lia|].
    cbn [fst snd data_ buffer_ capacity_ heap next_block log].
    split; [done|]. split; [rewrite Hnx3, Hnx2, Hnx1, Hnx0; lia|].
    rewrite Hb3. f_equal. apply slots_of_intro.
    + rewrite length_insert, Hlen2. unfold blk1. by rewrite !length_insert.
    + lia.
    + intros j y Hj.
      destruct (lookup_insert_middle xs k j x y Hk Hj) as [[Hjk Hy]|[[-> ->]|[Hjk Hy]]].
      * rewrite list_lookup_insert_ne by lia. rewrite Hout2 by lia.
        unfold blk1. rewrite !list_lookup_insert_ne by lia. by apply lookup_slots_of_live.
      * apply list_lookup_insert_eq. rewrite Hlen2. unfold blk1.
        rewrite !length_insert. lia.
      * pose proof (lookup_lt_Some _ _ _ Hy) as Hlt.
        rewrite list_lookup_insert_ne by lia.
        destruct (decide (j = n)) as [->|Hjn].
        -- rewrite Hout2 by lia. unfold blk1.
           rewrite list_lookup_insert_ne by lia.
           rewrite list_lookup_insert_eq by lia. congruence.
        -- rewrite Hup2 by lia. unfold blk1.
           rewrite !list_lookup_insert_ne by lia. by apply lookup_slots_of_live.
    + intros j Hj. rewrite Hlen' in Hj.
      rewrite list_lookup_insert_ne by lia. rewrite Hout2 by lia.
      unfold blk1. rewrite !list_lookup_insert_ne by lia.
      apply lookup_slots_of_raw. lia.
Qed.

End InPlace.

(** ** [Emplace] *)

Section Emplace.
Context {T : Type} `{ElementType T} `{Faults T}.

Lemma Vector_repr_at (w : World T) (v : Vector) (xs : list T) (i : nat) (x : T) :
  Vector_repr w v xs → xs !! i = Some x → Vector_at v i w = (Normal x, w).
Proof.
  intros (Hsize & Hle & Hbuf) Hx.
  pose proof (lookup_lt_Some _ _ _ Hx) as Hi.
  destruct v as [[buf cap] n]. cbn [size_ data_ buffer_ capacity_] in *.
  destruct buf as [[b o]|]; [|lia].
  destruct Hbuf as (-> & _ & Hheap).
  unfold Vector_at, Vector_index, RawMemory_index, bind. cbn [size_ data_ capacity_ buffer_].
  destruct (Nat.ltb_spec i n); [|lia].
  destruct (Nat.ltb_spec i cap); [|lia].
  cbn [ret ptr_add].
  eapply read_live; [exact Hheap|]. by apply lookup_slots_of_live.
Qed.

(** [Emplace] in both branches: it returns, and the vector holds [xs]
    with [x] inserted at index [k]. *)
Lemma Vector_Emplace_spec (w : World T) (v : Vector) (xs : list T)
    (k : nat) (args : EmplaceArgs T) (x : T) :
  no_throw → Vector_repr w v xs → k ≤ length xs → args_value v xs args x →
  (N.of_nat (size_ v) * 2 < size_t_modulus)%N →
  ∃ v' w',
    Vector_Emplace (ptr_add (Vector_begin v) k) args (v, w) =
      (Normal (ptr_add (Vector_begin v') k), (v', w')) ∧
    Vector_repr w' v' (take k xs ++ x :: drop k xs) ∧
    size_ v' = S (size_ v).
Proof.
  intros Hn Hrepr Hk Hargs Hfit.
  unfold Vector_Emplace. rewrite (bind_normal this _ _ _ _ eq_refl). cbn [fst].
  destruct (Nat.eqb_spec (size_ v) (RawMemory_Capacity (data_ v))) as [Heq|Hne].
  - destruct (Vector_ReallocationEmplace_spec w v xs k args x Hn Hrepr Hk Hargs Hfit)
      as (v' & w' & Hrun & Hrepr' & _ & Hsize').
    exists v', w'. split; [exact Hrun|]. split; [exact Hrepr'|exact Hsize'].
  - destruct (Vector_NoReallocationEmplace_spec w v xs k args x Hn Hrepr) as (w' & Hrun & Hrepr');
      [|done|done|].
    { destruct Hrepr as (? & ? & _). unfold Vector_Capacity, RawMemory_Capacity in *. lia. }
    exists (mkVector (data_ v) (S (size_ v))), w'.
    split; [exact Hrun|]. split; [exact Hrepr'|reflexivity].
Qed.

(** C5. [v] holds [xs], [pos] is [begin() + k] with [k] at most the
    size, and the arguments denote the value [x], possibly as a
    reference to an element of [v] itself. When nothing throws and
    doubling the size does not overflow [size_t], [Emplace(pos, args)]
    returns normally in both branches; afterwards [v] holds [xs] with
    [x] inserted at index [k]: the size has grown by one, [v[k]] is [x],
    the elements before [k] are unchanged, every former element at an
    index [j >= k] is at index [j + 1], and the iterator returned is
    [begin() + k] of the vector as it is after the call. *)
Theorem Vector_Emplace_inserts (w : World T) (v : Vector) (xs : list T)
    (k : nat) (args : EmplaceArgs T) (x : T) :
  no_throw → Vector_repr w v xs → k ≤ length xs → args_value v xs args x →
  (N.of_nat (size_ v) * 2 < size_t_modulus)%N →
  ∃ v' w',
    Vector_Emplace (ptr_add (Vector_begin v) k) args (v, w) =
      (Normal (ptr_add (Vector_begin v') k), (v', w')) ∧
    Vector_repr w' v' (take k xs ++ x :: drop k xs) ∧
    size_ v' = S (size_ v) ∧
    Vector_at v' k w' = (Normal x, w') ∧
    (∀ j y, j < k → xs !! j = Some y → Vector_at v' j w' = (Normal y, w')) ∧
    (∀ j y, k ≤ j → xs !! j = Some y → Vector_at v' (S j) w' = (Normal y, w')).
Proof.
  intros Hn Hrepr Hk Hargs Hfit.
  destruct (Vector_Emplace_spec w v xs k args x Hn Hrepr Hk Hargs Hfit)
    as (v' & w' & Hrun & Hrepr' & Hsize').
  exists v', w'. split; [done|]. split; [done|]. split; [done|].
  split.
  { apply (Vector_repr_at _ _ _ _ _ Hrepr').
    rewrite lookup_app_r by (rewrite length_take; lia).
    rewrite length_take, Nat.min_l, Nat.sub_diag by done. done. }
  split.
  - intros j y Hj Hy. apply (Vector_repr_at _ _ _ _ _ Hrepr').
    rewrite lookup_app_l by (rewrite length_take; apply lookup_lt_Some in Hy; lia).
    by rewrite lookup_take_lt.
  - intros j y Hj Hy. apply (Vector_repr_at _ _ _ _ _ Hrepr').
    rewrite lookup_app_r by (rewrite length_take; lia).
    rewrite length_take, Nat.min_l by done.
    replace (S j - k) with (S (j - k)) by lia.
    change (drop k xs !! (j - k) = Some y).
    rewrite lookup_drop. by replace (k + (j - k)) with j by lia.
Qed.

End Emplace.

(** Scenario S5 of the specification: [v] holds 7 in a buffer of
    capacity 1 and [v.EmplaceBack(v[0])] is called. *)
Lemma Vector_Emplace_inserts_witness :
  let H := int_type in
  let F := no_faults Z in
  let w : World Z := mkWorld {[ 0 := [Live 7%Z] ]} 1 [] in
  let v := mkVector (mkRawMemory (Some (0, 0)) 1) 1 in
  let args := ByCopy (RefSlot (Some (0, 0))) in
  no_throw ∧ Vector_repr w v [7%Z] ∧ 1 ≤ length [7%Z] ∧ args_value v [7%Z] args 7%Z ∧
  (N.of_nat (size_ v) * 2 < size_t_modulus)%N ∧
  ∃ v' w',
    Vector_Emplace (ptr_add (Vector_begin v) 1) args (v, w) =
      (Normal (ptr_add (Vector_begin v') 1), (v', w')) ∧
    Vector_repr w' v' [7%Z; 7%Z] ∧
    size_ v' = 2.
Proof.
  intros HT HF w v args.
  assert (Hn : no_throw) by (intros tr e; reflexivity).
  assert (Hrepr : Vector_repr w v [7%Z]).
  { split; [reflexivity|]. split; [cbn; lia|]. split; [reflexivity|].
    split; [cbn; lia|]. reflexivity. }
  assert (Hargs : args_value v [7%Z] args 7%Z) by (exists 0; split; reflexivity).
  assert (Hfit : (N.of_nat (size_ v) * 2 < size_t_modulus)%N) by reflexivity.
  split; [exact Hn|]. split; [exact Hrepr|]. split; [cbn; lia|].
  split; [exact Hargs|]. split; [exact Hfit|].
  destruct (Vector_Emplace_inserts w v [7%Z] 1 args 7%Z Hn Hrepr (le_n 1) Hargs Hfit)
    as (v' & w' & Hrun & Hrepr' & Hsize & _).
  exists v', w'. split; [exact Hrun|]. split; [exact Hrepr'|exact Hsize].
Defined.

(** ** [PushBack] *)

Section PushBack.
Context {T : Type} `{ElementType T} `{Faults T}.

(** [PushBack(T&&)] appends, in both branches. *)
Lemma Vector_PushBack_move_spec (w : World T) (v : Vector) (xs : list T) (x : T) :
  no_throw → Vector_repr w v xs →
  (N.of_nat (size_ v) * 2 < size_t_modulus)%N →
  ∃ v' w',
    Vector_PushBack_move x (v, w) = (Normal tt, (v', w')) ∧
    Vector_repr w' v' (xs ++ [x]) ∧
    size_ v' = S (size_ v) ∧
    Vector_Capacity v' =
      (if size_ v =? Vector_Capacity v then GrowthCapacity (size_ v) else Vector_Capacity v).
Proof.
  intros Hn Hrepr Hfit.
  pose proof (GrowthCapacity_eq _ Hfit) as Hcap'.
  destruct Hrepr as (Hsize & Hle & Hbuf).
  destruct v as [[buf cap] n].
  cbn [size_ data_ buffer_ capacity_ Vector_Capacity RawMemory_Capacity] in *.
  unfold Vector_PushBack_move.
  rewrite (bind_normal this _ _ _ _ eq_refl).
  cbn [fst data_ size_ RawMemory_Capacity RawMemory_GetAddress buffer_ capacity_].
  assert (Hlen' : length (xs ++ [x]) = S n) by (rewrite length_app; cbn; lia).
  destruct (Nat.eqb_spec n cap) as [Hfull|Hroom].
  - set (cap' := GrowthCapacity n) in *.
    set (nb := next_block w).
    assert (Hgrow : n + 1 ≤ cap').
    { rewrite Hcap'. destruct (Nat.eqb_spec n 0); lia. }
    set (new_data := mkRawMemory (Some (nb, 0)) cap').
    set (w1 := mkWorld (<[nb := replicate cap' Raw]> (heap w)) (S nb)
                       (trace w ++ [EvAllocate nb cap'])).
    assert (Halloc : RawMemory_sized cap' w = (Normal new_data, w1)).
    { apply RawMemory_sized_spec; [done|lia]. }
    assert (Hnb1 : heap w1 !! nb = Some (replicate cap' Raw)).
    { cbn. apply lookup_insert_eq. }
    rewrite (bind_normal _ _ _ _ _ (lift_eq _ _ _ _ _ Halloc)).
    assert (Hplus : RawMemory_plus new_data n w1 = (Normal (Some (nb, 0 + n)), w1)).
    { apply RawMemory_plus_ok. cbn. lia. }
    destruct (construct_in_spec (λ l, EvMoveCtor (Slot l) x) x nb (0 + n) w1 _ Hn Hnb1)
      as (w2 & Hrun2 & Hnb2 & Hfr2 & Hnx2 & _).
    { rewrite length_replicate. lia. }
    destruct buf as [[b o]|].
    + destruct Hbuf as (-> & Hb & Hheap). fold nb in Hb.
      assert (Hne : b ≠ nb) by (unfold nb; lia).
      assert (Hb2 : heap w2 !! b = Some (slots_of xs cap)).
      { rewrite Hfr2 by lia. cbn. rewrite lookup_insert_ne by lia. done. }
      destruct (Vector_Uninitialized_relocates n nb 0 b 0 w2 _ _ Hn Hne Hnb2 Hb2)
        as (w3 & dblk3 & sblk3 & Hrun3 & Hnb3 & Hb3 & Hfr3 & Hnx3 & Hld3 & Hls3 & Hin3 & Hdo3 & _
            & Hlv3).
      { rewrite length_insert, length_replicate. lia. }
      { intros j Hj. destruct (lookup_lt_is_Some_2 xs j) as [y Hy]; [lia|].
        exists y. by apply lookup_slots_of_live. }
      destruct (Vector_DestroyAndSwap_spec new_data b cap n w3 _ Hb3)
        as (w4 & Hrun4 & Hnx4 & [blk4 Hb4] & Hfr4).
      { rewrite Hls3, length_slots_of by done. lia. }
      { exact Hlv3. }
      eexists (mkVector new_data (S n)), _. split.
      { erewrite bind_normal; cycle 1.
        { apply on_unwind_normal.
          rewrite (bind_normal _ _ _ _ _ (lift_eq _ _ _ _ _ Hplus)).
          rewrite (bind_normal _ _ _ _ _ (lift_eq _ _ _ _ _ Hrun2)).
          apply lift_eq. exact Hrun3. }
        rewrite (bind_normal _ _ _ _ _ Hrun4).
        rewrite (bind_normal increment_size _ _ _ _ eq_refl).
        cbn [fst snd data_ size_].
        apply lift_eq. apply (RawMemory_dtor_spec b cap w4 _ Hb4). }
      split; [|done].
      split; [by rewrite Hlen'|]. split; [rewrite Hlen'; cbn; lia|].
      cbn [data_ buffer_ new_data capacity_ next_block heap].
      split; [done|]. split; [rewrite Hnx4, Hnx3, Hnx2; cbn; lia|].
      rewrite lookup_delete_ne by lia. rewrite Hfr4 by lia. rewrite Hnb3. f_equal.
      apply slots_of_intro.
      * rewrite Hld3, length_insert, length_replicate. done.
      * lia.
      * intros j y Hj. destruct (decide (j < n)) as [Hjn|Hjn].
        -- rewrite lookup_app_l in Hj by lia.
           rewrite (Hin3 j Hjn : dblk3 !! j = _). by apply lookup_slots_of_live.
        -- rewrite lookup_app_r in Hj by lia.
           destruct (j - length xs) as [|m] eqn:Hm; [|done].
           cbn in Hj. injection Hj as <-. assert (j = n) as -> by lia.
           rewrite Hdo3 by lia. apply list_lookup_insert_eq. rewrite length_replicate. lia.
      * intros j Hj. rewrite Hlen' in Hj.
        rewrite Hdo3 by lia.
        rewrite list_lookup_insert_ne by lia. apply lookup_replicate_2. lia.
    + assert (n = 0) as -> by lia. destruct xs; [|done].
      eexists (mkVector new_data 1), _. split.
      { erewrite bind_normal; cycle 1.
        { apply on_unwind_normal.
          rewrite (bind_normal _ _ _ _ _ (lift_eq _ _ _ _ _ Hplus)).
          rewrite (bind_normal _ _ _ _ _ (lift_eq _ _ _ _ _ Hrun2)).
          apply lift_eq. apply Vector_Uninitialized_0. }
        rewrite (bind_normal _ _ _ _ _ (Vector_DestroyAndSwap_null new_data cap w2)).
        rewrite (bind_normal increment_size _ _ _ _ eq_refl).
        cbn [fst snd data_ size_].
        apply lift_eq. apply RawMemory_dtor_null. }
      split; [|done].
      split; [done|]. split; [cbn; lia|].
      cbn [data_ buffer_ new_data capacity_].
      split; [done|]. split; [rewrite Hnx2; cbn; lia|].
      rewrite Hnb2. reflexivity.
  - destruct buf as [[b o]|]; [|lia].
    destruct Hbuf as (-> & Hb & Hheap).
    destruct (construct_in_spec (λ l, EvMoveCtor (Slot l) x) x b (0 + n) w _ Hn Hheap)
      as (w1 & Hrun1 & Hb1 & Hfr1 & Hnx1 & _).
    { rewrite length_slots_of by done. lia. }
    eexists (mkVector (mkRawMemory (Some (b, 0)) cap) (S n)), _. split.
    { rewrite (bind_normal _ _ _ _ _
                 (lift_eq _ _ _ _ _ (RawMemory_plus_ok (mkRawMemory (Some (b, 0)) cap) n w
                                       ltac:(cbn; lia)))).
      cbn [buffer_ ptr_add].
      rewrite (bind_normal _ _ _ _ _ (lift_eq _ _ _ _ _ Hrun1)).
      reflexivity. }
    split; [|done].
    split; [by rewrite Hlen'|]. split; [rewrite Hlen'; cbn; lia|].
    cbn [fst snd data_ buffer_ capacity_].
    split; [done|]. split; [lia|].
    rewrite Hb1. f_equal.
    apply slots_of_intro.
    + rewrite length_insert. by apply length_slots_of.
    + lia.
    + intros j y Hj. destruct (decide (j < n)) as [Hjn|Hjn].
      * rewrite lookup_app_l in Hj by lia.
        rewrite list_lookup_insert_ne by lia. by apply lookup_slots_of_live.
      * rewrite lookup_app_r in Hj by lia.
        destruct (j - length xs) as [|m] eqn:Hm; [|done].
        cbn in Hj. injection Hj as <-. assert (j = n) as -> by lia.
        apply list_lookup_insert_eq. rewrite length_slots_of by done. lia.
    + intros j Hj. rewrite Hlen' in Hj.
      rewrite list_lookup_insert_ne by lia. apply lookup_slots_of_raw. lia.
Qed.

End PushBack.

(** ** Composing properties of every outcome *)

Section Always.
Context {S : Type} (R : relation S) `{!PreOrder R}.

Lemma always_pure {A : Type} (m : ST S A) : (∀ s, (m s).2 = s) → always R m.
Proof. intros Hm s. rewrite Hm. reflexivity. Qed.

Lemma always_ret {A : Type} (a : A) : always R (ret a).
Proof. by apply always_pure. Qed.

Lemma always_undefined {A : Type} : always R (@undefined S A).
Proof. by apply always_pure. Qed.

Lemma always_bind {A B : Type} (m : ST S A) (k : A → ST S B) :
  always R m → (∀ a, always R (k a)) → always R (bind m k).
Proof.
  intros Hm Hk s. unfold bind. specialize (Hm s).
  destruct (m s) as [[a|e|] s1]; cbn in *; try done.
  etrans; [exact Hm|]. apply Hk.
Qed.

Lemma always_bind_val {A B : Type} (m : ST S A) (k : A → ST S B) :
  always R m → (∀ a, (∃ s, (m s).1 = Normal a) → always R (k a)) → always R (bind m k).
Proof.
  intros Hm Hk s. unfold bind. specialize (Hm s).
  destruct (m s) as [[a|e|] s1] eqn:Hms; cbn in *; try done.
  etrans; [exact Hm|]. apply Hk. exists s. by rewrite Hms.
Qed.

Lemma always_on_unwind {A : Type} (m : ST S A) (c : ST S unit) :
  always R m → always R c → always R (on_unwind m c).
Proof.
  intros Hm Hc s. unfold on_unwind. specialize (Hm s).
  destruct (m s) as [[a|e|] s1]; cbn in *; try done.
  specialize (Hc s1). destruct (c s1) as [[[]|e'|] s2]; cbn in *; by etrans.
Qed.

End Always.

Section RaisesOnly.
Context {S : Type} (P : exn → Prop).

Lemma raises_only_ret {A : Type} (a : A) : raises_only P (@ret S A a).
Proof. by intros s e. Qed.

Lemma raises_only_bind {A B : Type} (m : ST S A) (k : A → ST S B) :
  raises_only P m → (∀ a, raises_only P (k a)) → raises_only P (bind m k).
Proof.
  intros Hm Hk s e. unfold bind. specialize (Hm s).
  destruct (m s) as [[a|e'|] s1]; cbn in *; try done.
  - apply Hk.
  - intros [= ->]. by apply Hm.
Qed.

Lemma raises_only_on_unwind {A : Type} (m : ST S A) (c : ST S unit) :
  raises_only P m → raises_only P (on_unwind m c).
Proof.
  intros Hm s e. unfold on_unwind. specialize (Hm s).
  destruct (m s) as [[a|e'|] s1]; cbn in *; try done.
  destruct (c s1) as [[[]|e''|] s2]; cbn; try done.
  intros [= ->]. by apply Hm.
Qed.

End RaisesOnly.

(** ** What a computation leaves alone *)

Section Frame.
Context {T : Type} `{ElementType T} `{Faults T}.

#[global] Instance keeps_preorder (b : block) : PreOrder (keeps T b).
Proof.
  split.
  - by intros w Hb.
  - intros w1 w2 w3 H12 H23 Hb.
    destruct (H12 Hb) as [Hb2 Heq2]. destruct (H23 Hb2) as [Hb3 Heq3].
    split; [done|congruence].
Qed.

Lemma off_block_ptr_add (b : block) (p : ptr) (k : nat) :
  off_block b p → off_block b (ptr_add p k).
Proof.
  intros Hp o. destruct p as [[b' o']|]; [|done]. cbn.
  intros [= -> _]. by apply (Hp o').
Qed.

(** The world is the same but for the trace. *)
Lemma keeps_log (b : block) (e : event T) (w w' : World T) :
  keeps T b w w' → keeps T b w (log e w').
Proof. done. Qed.

Lemma keeps_store (b : block) (l : loc) (s : slot T) (w : World T) :
  l.1 ≠ b → keeps T b w (store l s w).
Proof.
  intros Hne Hb. split; [done|]. destruct l as [b' o]. by apply heap_store_ne.
Qed.

Lemma always_read (b : block) (p : ptr) : always (keeps T b) (read p).
Proof. apply always_pure; [apply _|]. intros w. unfold read. by repeat case_match. Qed.

Lemma always_construct_in (b : block) (dst : ptr) (e : loc → event T) (x : T) :
  off_block b dst → always (keeps T b) (construct_in dst e x).
Proof.
  intros Hoff w. unfold construct_in.
  destruct dst as [[b' o]|]; [|done].
  destruct (slot_at w (Some (b', o))); [|done].
  destruct (raises w _); [done|]. cbn [snd].
  apply keeps_log, keeps_store. cbn. intros ->. by apply (Hoff o).
Qed.

Lemma always_destroy_at (b : block) (p : ptr) :
  off_block b p → always (keeps T b) (destroy_at p).
Proof.
  intros Hoff w. unfold destroy_at.
  destruct p as [[b' o]|]; [|done].
  assert (Hkeep : keeps T b w (log (EvDtor (Slot (b', o))) (store (b', o) Raw w))).
  { apply keeps_log, keeps_store. cbn. intros ->. by apply (Hoff o). }
  by repeat case_match.
Qed.

Lemma always_destroy_n (b : block) (n : nat) (p : ptr) :
  off_block b p → always (keeps T b) (destroy_n p n).
Proof.
  revert p. induction n as [|n IH]; intros p Hoff; cbn [destroy_n].
  - apply always_ret, _.
  - apply always_bind; [apply _|by apply always_destroy_at|].
    intros _. apply IH. by apply off_block_ptr_add.
Qed.

Lemma always_operator_new (b : block) (n : nat) : always (keeps T b) (operator_new n).
Proof.
  intros w. unfold operator_new.
  destruct (raises w _); [done|]. cbn [snd]. intros Hb. cbn. split; [lia|].
  apply lookup_insert_ne. lia.
Qed.

Lemma always_operator_delete (b : block) (p : ptr) :
  off_block b p → always (keeps T b) (operator_delete p).
Proof.
  intros Hoff w. unfold operator_delete.
  destruct p as [[b' o]|]; [|done].
  destruct (heap w !! b'); [|done]. destruct o; [|done]. cbn [snd].
  intros Hb. cbn. split; [done|]. apply lookup_delete_ne. intros ->. by apply (Hoff 0).
Qed.

Lemma always_uninitialized_loop (b : block) (step : nat → M T unit) (d_first : ptr) (i n : nat) :
  (∀ j, always (keeps T b) (step j)) → off_block b d_first →
  always (keeps T b) (uninitialized_loop step d_first i n).
Proof.
  intros Hstep Hoff. revert i. induction n as [|n IH]; intros i; cbn [uninitialized_loop].
  - apply always_ret, _.
  - apply always_bind; [apply _| |by intros _].
    apply always_on_unwind; [apply _|done|]. by apply always_destroy_n.
Qed.

Lemma always_copy_construct (b : block) (dst src : ptr) :
  off_block b dst → always (keeps T b) (copy_construct dst src).
Proof.
  intros Hoff. apply always_bind; [apply _|apply always_read|].
  intros x. by apply always_construct_in.
Qed.

(** Relocation by copies writes to the destination only. *)
Lemma always_Vector_Uninitialized (b : block) (src : ptr) (n : nat) (dst : ptr) :
  is_nothrow_move_constructible || negb is_copy_constructible = false →
  off_block b dst →
  always (keeps T b) (Vector_Uninitialized src n dst).
Proof.
  intros Hcopy Hoff. unfold Vector_Uninitialized. rewrite Hcopy.
  apply always_uninitialized_loop; [|done].
  intros j. apply always_copy_construct. by apply off_block_ptr_add.
Qed.

Lemma always_construct_from (b : block) (dst : ptr) (args : EmplaceArgs T) :
  off_block b dst → always (keeps T b) (construct_from dst args).
Proof.
  intros Hoff. destruct args as [[y|p]|y]; cbn [construct_from].
  - by apply always_construct_in.
  - by apply always_copy_construct.
  - by apply always_construct_in.
Qed.

Lemma always_RawMemory_plus (b : block) (m : RawMemory) (offset : nat) :
  always (keeps T b) (RawMemory_plus m offset).
Proof.
  apply always_pure; [apply _|]. intros w. unfold RawMemory_plus. by case_match.
Qed.

Lemma always_RawMemory_sized (b : block) (n : nat) :
  always (keeps T b) (RawMemory_sized n).
Proof.
  apply always_bind; [apply _| |intros p; apply always_ret, _].
  unfold Allocate. case_match; [apply always_ret, _|apply always_operator_new].
Qed.

End Frame.

(** ** Which exceptions a computation can leave by *)

Section Exceptions.
Context {T : Type} `{ElementType T} `{Faults T}.


Lemma raises_only_weaken {S A : Type} (P Q : exn → Prop) (m : ST S A) :
  (∀ e, P e → Q e) → raises_only P m → raises_only Q m.
Proof. intros HPQ Hm s e He. apply HPQ. by eapply Hm. Qed.

Lemma raises_read (P : exn → Prop) (p : ptr) : raises_only P (@read T p).
Proof. intros w e. unfold read. by repeat case_match. Qed.

Lemma raises_construct_in (dst : ptr) (e : loc → event T) (x : T) :
  raises_only (eq element_exn) (construct_in dst e x).
Proof. intros w e'. unfold construct_in. repeat case_match; cbn; congruence. Qed.

Lemma raises_destroy_at (P : exn → Prop) (p : ptr) : raises_only P (@destroy_at T _ p).
Proof. intros w e. unfold destroy_at. by repeat case_match. Qed.

Lemma raises_destroy_n (P : exn → Prop) (n : nat) (p : ptr) :
  raises_only P (@destroy_n T _ p n).
Proof.
  revert p. induction n as [|n IH]; intros p; cbn [destroy_n].
  - apply raises_only_ret.
  - apply raises_only_bind; [apply raises_destroy_at|]. intros _. apply IH.
Qed.

Lemma raises_operator_delete (P : exn → Prop) (p : ptr) :
  raises_only P (@operator_delete T p).
Proof. intros w e. unfold operator_delete. by repeat case_match. Qed.

Lemma raises_RawMemory_plus (P : exn → Prop) (m : RawMemory) (offset : nat) :
  raises_only P (@RawMemory_plus T m offset).
Proof. intros w e. unfold RawMemory_plus. by case_match. Qed.

Lemma raises_uninitialized_loop (P : exn → Prop) (step : nat → M T unit)
    (d_first : ptr) (i n : nat) :
  (∀ j, raises_only P (step j)) → raises_only P (uninitialized_loop step d_first i n).
Proof.
  intros Hstep. revert i. induction n as [|n IH]; intros i; cbn [uninitialized_loop].
  - apply raises_only_ret.
  - apply raises_only_bind; [|by intros _]. by apply raises_only_on_unwind.
Qed.

Lemma raises_copy_construct (dst src : ptr) :
  raises_only (eq element_exn) (copy_construct dst src).
Proof.
  apply raises_only_bind; [apply raises_read|]. intros x. apply raises_construct_in.
Qed.

Lemma raises_move_construct (dst src : ptr) :
  raises_only (eq element_exn) (move_construct dst src).
Proof.
  apply raises_only_bind; [apply raises_read|]. intros x.
  apply raises_only_bind; [apply raises_construct_in|]. intros _.
  intros w e. unfold leave_moved_from. by case_match.
Qed.

(** Relocation raises nothing but what an element constructor raises. *)
Lemma raises_Vector_Uninitialized (src : ptr) (n : nat) (dst : ptr) :
  raises_only (eq element_exn) (Vector_Uninitialized src n dst).
Proof.
  unfold Vector_Uninitialized. case_match.
  - apply raises_uninitialized_loop. intros j. apply raises_move_construct.
  - apply raises_uninitialized_loop. intros j. apply raises_copy_construct.
Qed.

Lemma raises_construct_from (dst : ptr) (args : EmplaceArgs T) :
  raises_only (eq element_exn) (construct_from dst args).
Proof.
  destruct args as [[y|p]|y]; cbn [construct_from].
  - apply raises_construct_in.
  - apply raises_copy_construct.
  - apply raises_construct_in.
Qed.

(** *** Member functions *)

#[global] Instance lifted_preorder (R : relation (World T)) `{!PreOrder R} :
  PreOrder (lifted R).
Proof.
  split.
  - intros s. by split.
  - intros s1 s2 s3 [Hv12 H12] [Hv23 H23]. split; [congruence|by etrans].
Qed.

Lemma always_lift {A : Type} (R : relation (World T)) (m : M T A) :
  always R m → always (lifted R) (lift m).
Proof.
  intros Hm [v w]. unfold lift. cbn [fst snd]. specialize (Hm w).
  destruct (m w) as [o w']. by split.
Qed.

Lemma raises_lift {A : Type} (P : exn → Prop) (m : M T A) :
  raises_only P m → raises_only P (lift m).
Proof.
  intros Hm [v w] e. unfold lift. cbn [fst snd]. specialize (Hm w e).
  by destruct (m w) as [o w'].
Qed.

Lemma raises_Vector_DestroyAndSwap (P : exn → Prop) (new_data : RawMemory) :
  raises_only P (@Vector_DestroyAndSwap T _ new_data).
Proof.
  unfold Vector_DestroyAndSwap.
  apply raises_only_bind; [by intros s e|]. intros v.
  apply raises_only_bind; [apply raises_lift, raises_destroy_n|]. intros _.
  destruct (RawMemory_Swap _ _) as [d nd'].
  apply raises_only_bind; [by intros s e|]. intros _. apply raises_only_ret.
Qed.

(** A block of code that runs under the protection of the local
    [new_data], followed by code that cannot throw: when the whole leaves
    by an exception, the exception comes from the block, the object is
    as it was, and the store has changed by what the block and the
    release of [new_data] do. *)
Lemma protected_outcome {A B : Type} (R : relation (World T)) `{!PreOrder R}
    (body : Method T A) (new_data : RawMemory) (k : A → Method T B)
    (v v' : Vector) (w w' : World T) (e : exn) :
  always (lifted R) body →
  always R (RawMemory_dtor new_data) →
  (∀ a, raises_only never (k a)) →
  bind (on_unwind body (lift (RawMemory_dtor new_data))) k (v, w) = (Thrown e, (v', w')) →
  v' = v ∧ R w w'.
Proof.
  intros Hbody Hdtor Hk Hrun.
  assert (Hprot : always (lifted R) (on_unwind body (lift (RawMemory_dtor new_data)))).
  { apply always_on_unwind; [apply _|done|by apply always_lift]. }
  specialize (Hprot (v, w)). unfold bind in Hrun.
  destruct (on_unwind body _ (v, w)) as [[a|e'|] [v1 w1]].
  - destruct (Hk a (v1, w1) e). by rewrite Hrun.
  - injection Hrun as -> -> ->. exact Hprot.
  - done.
Qed.

End Exceptions.

(** ** The strong guarantee of the growth paths *)

Section StrongGuarantee.
Context {T : Type} `{ElementType T} `{Faults T}.

Lemma RawMemory_sized_inv (n : nat) (w w1 : World T) (new_data : RawMemory) :
  RawMemory_sized n w = (Normal new_data, w1) →
  capacity_ new_data = n ∧
  (buffer_ new_data = None ∨ buffer_ new_data = Some (next_block w, 0)).
Proof.
  unfold RawMemory_sized, Allocate, bind, operator_new.
  destruct (n =? 0).
  - cbn. intros [= <- <-]. by split; [|left].
  - destruct (raises w (EvAllocate (next_block w) n)); cbn; [done|].
    intros [= <- <-]. by split; [|right].
Qed.

Lemma raises_RawMemory_dtor (P : exn → Prop) (m : RawMemory) :
  raises_only P (@RawMemory_dtor T m).
Proof. apply raises_operator_delete. Qed.

(** The common shape of [Reserve], [ReallocationEmplace] and the growth
    branch of [PushBack(T&&)]: allocate [new_data], run a block under its
    protection, then swap and release without throwing. When the whole
    leaves by an exception that is [bad_alloc], or when the block writes
    to the new buffer only, the object is as it was and every allocation
    that existed before is untouched. *)
Lemma growth_outcome {A B : Type} (cap' : nat) (body : RawMemory → Method T A)
    (k : RawMemory → A → Method T B) (v v' : Vector) (w w' : World T) (e : exn) :
  (e = bad_alloc ∨
   ∀ b new_data, off_block b (buffer_ new_data) → always (lifted (keeps T b)) (body new_data)) →
  (∀ new_data, raises_only (eq element_exn) (body new_data)) →
  (∀ new_data a, raises_only never (k new_data a)) →
  (new_data <- lift (RawMemory_sized cap') ;;
   bind (on_unwind (body new_data) (lift (RawMemory_dtor new_data))) (k new_data)) (v, w)
    = (Thrown e, (v', w')) →
  v' = v ∧ ∀ b, keeps T b w w'.
Proof.
  intros Hcase Hraises Hk Hrun. unfold bind at 1 in Hrun. unfold lift at 1 in Hrun.
  cbn [fst snd] in Hrun.
  pose proof (λ b, always_RawMemory_sized b cap' w) as Halloc.
  destruct (RawMemory_sized cap' w) as [[new_data|e1|] w1] eqn:Hsized; cbn [snd] in Halloc.
  - destruct (RawMemory_sized_inv _ _ _ _ Hsized) as [_ Hbuf].
    destruct Hcase as [->|Hframe].
    + exfalso.
      assert (Hr : raises_only (eq element_exn)
                     (bind (on_unwind (body new_data) (lift (RawMemory_dtor new_data)))
                           (k new_data))).
      { apply raises_only_bind; [by apply raises_only_on_unwind|].
        intros a. eapply raises_only_weaken; [|apply Hk]. by intros ? []. }
      specialize (Hr (v, w1) bad_alloc). rewrite Hrun in Hr. by specialize (Hr eq_refl).
    + assert (Hoff : ∀ b, b ≠ next_block w → off_block b (buffer_ new_data)).
      { intros b Hb o. destruct Hbuf as [->| ->]; [done|]. intros [= <- _]. done. }
      split.
      * eapply (protected_outcome (keeps T (S (next_block w)))); [| |apply Hk|exact Hrun].
        -- apply Hframe, Hoff. lia.
        -- apply always_operator_delete, Hoff. lia.
      * intros b Hb. destruct (Halloc b Hb) as [Hb1 Heq1].
        assert (Hkeep : keeps T b w1 w').
        { eapply (protected_outcome (keeps T b)); [| |apply Hk|exact Hrun].
          - apply Hframe, Hoff. lia.
          - apply always_operator_delete, Hoff. lia. }
        destruct (Hkeep Hb1) as [Hb' Heq']. split; [done|congruence].
  - injection Hrun as -> -> ->. split; [done|]. intros b. apply Halloc.
  - done.
Qed.

Lemma raises_growth_tail (new_data : RawMemory) :
  raises_only never (new_data' <- Vector_DestroyAndSwap new_data ;;
                     lift (@RawMemory_dtor T new_data')).
Proof.
  apply raises_only_bind; [apply raises_Vector_DestroyAndSwap|].
  intros nd'. apply raises_lift, raises_RawMemory_dtor.
Qed.

Lemma raises_growth_tail_incr {A : Type} (new_data : RawMemory) (a : A) :
  raises_only never (new_data' <- Vector_DestroyAndSwap new_data ;;
                     increment_size ;;;
                     lift (@RawMemory_dtor T new_data') ;;;
                     ret a).
Proof.
  apply raises_only_bind; [apply raises_Vector_DestroyAndSwap|]. intros nd'.
  apply raises_only_bind; [by intros s e|]. intros _.
  apply raises_only_bind; [apply raises_lift, raises_RawMemory_dtor|]. intros _.
  apply raises_only_ret.
Qed.

Lemma Vector_Reserve_strong (n : nat) (v v' : Vector) (w w' : World T) (e : exn) :
  e = bad_alloc ∨ relocates_by_copy →
  Vector_Reserve n (v, w) = (Thrown e, (v', w')) →
  v' = v ∧ ∀ b, keeps T b w w'.
Proof.
  intros Hcase. unfold Vector_Reserve.
  rewrite (bind_normal this _ _ _ _ eq_refl). cbn [fst].
  case_match; [done|].
  apply (growth_outcome n
           (λ new_data, lift (Vector_Uninitialized (RawMemory_GetAddress (data_ v)) (size_ v)
                                                   (RawMemory_GetAddress new_data)))
           (λ new_data _, new_data' <- Vector_DestroyAndSwap new_data ;;
                          lift (RawMemory_dtor new_data'))).
  - destruct Hcase as [->|Hcopy]; [by left|right].
    intros b nd Hoff. by apply always_lift, always_Vector_Uninitialized.
  - intros nd. apply raises_lift, raises_Vector_Uninitialized.
  - intros nd _. apply raises_growth_tail.
Qed.

Lemma RawMemory_plus_val (m : RawMemory) (offset : nat) (p : ptr) :
  (∃ s : Vector * World T, (lift (RawMemory_plus m offset) s).1 = Normal p) →
  p = ptr_add (buffer_ m) offset.
Proof.
  intros [[v w] Hs]. unfold lift, RawMemory_plus in Hs. cbn in Hs.
  destruct (offset <=? capacity_ m); cbn in Hs; congruence.
Qed.

Lemma Vector_ReallocationEmplace_strong (pos : ptr) (args : EmplaceArgs T)
    (v v' : Vector) (w w' : World T) (e : exn) :
  e = bad_alloc ∨ relocates_by_copy →
  Vector_ReallocationEmplace pos args (v, w) = (Thrown e, (v', w')) →
  v' = v ∧ ∀ b, keeps T b w w'.
Proof.
  intros Hcase. unfold Vector_ReallocationEmplace.
  rewrite (bind_normal this _ _ _ _ eq_refl). cbn [fst].
  set (new_pos := ptr_diff pos (Vector_begin v)).
  apply (growth_outcome (GrowthCapacity (size_ v))
           (λ new_data,
              elem <- lift (RawMemory_plus new_data new_pos) ;;
              lift (construct_from elem args) ;;;
              lift (Vector_Uninitialized (RawMemory_GetAddress (data_ v)) new_pos
                                         (RawMemory_GetAddress new_data)) ;;;
              src <- lift (RawMemory_plus (data_ v) new_pos) ;;
              lift (Vector_Uninitialized src (size_ v - new_pos) (ptr_add elem 1)) ;;;
              ret elem)
           (λ new_data elem,
              new_data' <- Vector_DestroyAndSwap new_data ;;
              increment_size ;;;
              lift (RawMemory_dtor new_data') ;;;
              ret elem)).
  - destruct Hcase as [->|Hcopy]; [by left|right].
    intros b nd Hoff.
    apply always_bind_val; [apply _|apply always_lift, always_RawMemory_plus|].
    intros elem ->%RawMemory_plus_val.
    apply always_bind; [apply _| |intros _].
    { apply always_lift, always_construct_from. by apply off_block_ptr_add. }
    apply always_bind; [apply _| |intros _].
    { by apply always_lift, always_Vector_Uninitialized. }
    apply always_bind; [apply _|apply always_lift, always_RawMemory_plus|intros src].
    apply always_bind; [apply _| |intros _; apply always_ret, _].
    apply always_lift, always_Vector_Uninitialized; [done|].
    by do 2 apply off_block_ptr_add.
  - intros nd.
    apply raises_only_bind; [apply raises_lift, raises_RawMemory_plus|intros elem].
    apply raises_only_bind; [apply raises_lift, raises_construct_from|intros _].
    apply raises_only_bind; [apply raises_lift, raises_Vector_Uninitialized|intros _].
    apply raises_only_bind; [apply raises_lift, raises_RawMemory_plus|intros src].
    apply raises_only_bind; [apply raises_lift, raises_Vector_Uninitialized|intros _].
    apply raises_only_ret.
  - intros nd elem. apply raises_growth_tail_incr.
Qed.

Lemma Vector_Emplace_strong (pos : ptr) (args : EmplaceArgs T)
    (v v' : Vector) (w w' : World T) (e : exn) :
  e = bad_alloc ∨ relocates_by_copy →
  size_ v = Vector_Capacity v →
  Vector_Emplace pos args (v, w) = (Thrown e, (v', w')) →
  v' = v ∧ ∀ b, keeps T b w w'.
Proof.
  intros Hcase Hfull. unfold Vector_Emplace.
  rewrite (bind_normal this _ _ _ _ eq_refl). cbn [fst].
  unfold Vector_Capacity in Hfull. rewrite Hfull, Nat.eqb_refl.
  by apply Vector_ReallocationEmplace_strong.
Qed.

Lemma Vector_EmplaceBack_strong (args : EmplaceArgs T)
    (v v' : Vector) (w w' : World T) (e : exn) :
  e = bad_alloc ∨ relocates_by_copy →
  size_ v = Vector_Capacity v →
  Vector_EmplaceBack args (v, w) = (Thrown e, (v', w')) →
  v' = v ∧ ∀ b, keeps T b w w'.
Proof.
  intros Hcase Hfull. unfold Vector_EmplaceBack.
  rewrite (bind_normal this _ _ _ _ eq_refl). cbn [fst].
  unfold Vector_end.
  rewrite (bind_normal _ _ _ _ _
             (lift_eq _ _ _ _ _ (RawMemory_plus_ok (data_ v) (size_ v) w
                                   ltac:(unfold Vector_Capacity, RawMemory_Capacity in Hfull;
                                         lia)))).
  by apply Vector_Emplace_strong.
Qed.

Lemma Vector_PushBack_copy_strong (value : const_ref T)
    (v v' : Vector) (w w' : World T) (e : exn) :
  e = bad_alloc ∨ relocates_by_copy →
  size_ v = Vector_Capacity v →
  Vector_PushBack_copy value (v, w) = (Thrown e, (v', w')) →
  v' = v ∧ ∀ b, keeps T b w w'.
Proof.
  intros Hcase Hfull. unfold Vector_PushBack_copy, bind.
  destruct (Vector_EmplaceBack (ByCopy value) (v, w)) as [[p|e'|] s] eqn:Hrun; [done| |done].
  intros [= -> ->]. by eapply Vector_EmplaceBack_strong.
Qed.

Lemma Vector_PushBack_move_strong (value : T)
    (v v' : Vector) (w w' : World T) (e : exn) :
  e = bad_alloc ∨ relocates_by_copy →
  size_ v = Vector_Capacity v →
  Vector_PushBack_move value (v, w) = (Thrown e, (v', w')) →
  v' = v ∧ ∀ b, keeps T b w w'.
Proof.
  intros Hcase Hfull. unfold Vector_PushBack_move.
  rewrite (bind_normal this _ _ _ _ eq_refl). cbn [fst].
  unfold Vector_Capacity in Hfull. rewrite Hfull, Nat.eqb_refl. rewrite <- Hfull.
  apply (growth_outcome (GrowthCapacity (size_ v))
           (λ new_data,
              p <- lift (RawMemory_plus new_data (size_ v)) ;;
              lift (move_construct_at p value) ;;;
              lift (Vector_Uninitialized (RawMemory_GetAddress (data_ v)) (size_ v)
                                         (RawMemory_GetAddress new_data)))
           (λ new_data _,
              new_data' <- Vector_DestroyAndSwap new_data ;;
              increment_size ;;;
              lift (RawMemory_dtor new_data'))).
  - destruct Hcase as [->|Hcopy]; [by left|right].
    intros b nd Hoff.
    apply always_bind_val; [apply _|apply always_lift, always_RawMemory_plus|].
    intros p ->%RawMemory_plus_val.
    apply always_bind; [apply _| |intros _].
    { apply always_lift, always_construct_in. by apply off_block_ptr_add. }
    by apply always_lift, always_Vector_Uninitialized.
  - intros nd.
    apply raises_only_bind; [apply raises_lift, raises_RawMemory_plus|intros p].
    apply raises_only_bind; [apply raises_lift, raises_construct_in|intros _].
    apply raises_lift, raises_Vector_Uninitialized.
  - intros nd _.
    apply raises_only_bind; [apply raises_Vector_DestroyAndSwap|]. intros nd'.
    apply raises_only_bind; [by intros s e'|]. intros _.
    apply raises_lift, raises_RawMemory_dtor.
Qed.

(** When the [Reserve] call of a growing [Resize] leaves by an
    exception, so does [Resize], in the same state. *)
Lemma Vector_Resize_Reserve_throws (n : nat) (v : Vector) (w : World T)
    (e : exn) (s' : Vector * World T) :
  size_ v < n →
  Vector_Reserve n (v, w) = (Thrown e, s') →
  Vector_Resize n (v, w) = (Thrown e, s').
Proof.
  intros Hlt Hrun. unfold Vector_Resize.
  rewrite (bind_normal this _ _ _ _ eq_refl). cbn [fst].
  destruct (Nat.ltb_spec n (size_ v)); [lia|].
  rewrite (bind_normal (ret tt) _ _ _ _ eq_refl).
  rewrite (bind_normal this _ _ _ _ eq_refl). cbn [fst].
  destruct (Nat.ltb_spec (size_ v) n); [|lia].
  by rewrite (bind_thrown _ _ _ _ _ Hrun).
Qed.

Lemma Vector_repr_keeps (w w' : World T) (v : Vector) (xs : list T) :
  Vector_repr w v xs → (∀ b, keeps T b w w') → Vector_repr w' v xs.
Proof.
  intros (Hsize & Hle & Hbuf) Hkeep. split; [done|]. split; [done|].
  destruct (buffer_ (data_ v)) as [[b o]|]; [|done].
  destruct Hbuf as (-> & Hb & Hheap).
  destruct (Hkeep b Hb) as [Hb' Heq]. split; [done|]. split; [done|]. congruence.
Qed.

(** C6. [v] holds [xs]. Let a growth operation leave by an exception
    that is the allocation failure, or by any exception when relocation
    is done by copies (so in particular when the [k]-th element copy
    throws). Then the vector object is unchanged (same buffer, capacity
    and size) and it still holds [xs]. The operations are [Reserve],
    [Resize] to a larger size whose inner [Reserve] fails, and, when
    [size == capacity], [Emplace], [EmplaceBack], both [PushBack] and
    both [Insert]. *)
Theorem growth_strong_guarantee (w w' : World T) (v v' : Vector) (xs : list T) (e : exn) :
  Vector_repr w v xs →
  e = bad_alloc ∨ relocates_by_copy →
  (∀ n, Vector_Reserve n (v, w) = (Thrown e, (v', w')) →
        v' = v ∧ Vector_repr w' v xs) ∧
  (∀ n, size_ v < n → Vector_Reserve n (v, w) = (Thrown e, (v', w')) →
        Vector_Resize n (v, w) = (Thrown e, (v', w')) ∧ v' = v ∧ Vector_repr w' v xs) ∧
  (size_ v = Vector_Capacity v →
   (∀ pos args, Vector_Emplace pos args (v, w) = (Thrown e, (v', w')) →
                v' = v ∧ Vector_repr w' v xs) ∧
   (∀ args, Vector_EmplaceBack args (v, w) = (Thrown e, (v', w')) →
            v' = v ∧ Vector_repr w' v xs) ∧
   (∀ value, Vector_PushBack_copy value (v, w) = (Thrown e, (v', w')) →
             v' = v ∧ Vector_repr w' v xs) ∧
   (∀ value, Vector_PushBack_move value (v, w) = (Thrown e, (v', w')) →
             v' = v ∧ Vector_repr w' v xs) ∧
   (∀ pos value, Vector_Insert_copy pos value (v, w) = (Thrown e, (v', w')) →
                 v' = v ∧ Vector_repr w' v xs) ∧
   (∀ pos value, Vector_Insert_move pos value (v, w) = (Thrown e, (v', w')) →
                 v' = v ∧ Vector_repr w' v xs)).
Proof.
  intros Hrepr Hcase.
  assert (Hpost : (v' = v ∧ ∀ b, keeps T b w w') → v' = v ∧ Vector_repr w' v xs).
  { intros [-> Hkeep]. split; [done|]. by eapply Vector_repr_keeps. }
  split.
  { intros n Hrun. by eapply Hpost, Vector_Reserve_strong. }
  split.
  { intros n Hlt Hrun. split; [by apply Vector_Resize_Reserve_throws|].
    by eapply Hpost, Vector_Reserve_strong. }
  intros Hfull.
  split. { intros pos args Hrun. by eapply Hpost, Vector_Emplace_strong. }
  split. { intros args Hrun. by eapply Hpost, Vector_EmplaceBack_strong. }
  split. { intros value Hrun. by eapply Hpost, Vector_PushBack_copy_strong. }
  split. { intros value Hrun. by eapply Hpost, Vector_PushBack_move_strong. }
  split. { intros pos value Hrun. by eapply Hpost, Vector_Emplace_strong. }
  intros pos value Hrun. by eapply Hpost, Vector_Emplace_strong.
Qed.

End StrongGuarantee.

(** A vector holding 1, 2, 3 at full capacity is asked to reserve 6
    slots; the copy of the second element throws. *)
Lemma growth_strong_guarantee_witness :
  let H := throwing_type in
  let F := copy_of_2_throws in
  let w : World Z := mkWorld {[ 0 := [Live 1; Live 2; Live 3]%Z ]} 1 [] in
  let v := mkVector (mkRawMemory (Some (0, 0)) 3) 3 in
  Vector_repr w v [1; 2; 3]%Z ∧
  (element_exn = bad_alloc ∨ relocates_by_copy) ∧
  ∃ w', Vector_Reserve 6 (v, w) = (Thrown element_exn, (v, w')) ∧
        Vector_repr w' v [1; 2; 3]%Z ∧
        trace w' = [EvAllocate 1 6; EvCopyCtor (Slot (1, 0)) 1%Z;
                    EvDtor (Slot (1, 0)); EvDeallocate 1].
Proof.
  intros HT HF w v.
  assert (Hrepr : Vector_repr w v [1; 2; 3]%Z).
  { split; [reflexivity|]. split; [cbn; lia|]. split; [reflexivity|].
    split; [cbn; lia|]. reflexivity. }
  assert (Hcase : element_exn = bad_alloc ∨ relocates_by_copy) by (right; reflexivity).
  split; [exact Hrepr|]. split; [exact Hcase|].
  eexists. split; [vm_compute; reflexivity|]. split; [|vm_compute; reflexivity].
  eapply (proj1 (growth_strong_guarantee _ _ _ _ _ _ Hrepr Hcase) 6).
  vm_compute; reflexivity.
Defined.

(** ** The constructor calls a computation makes *)

Section Events.
Context {T : Type} `{ElementType T} `{Faults T}.

#[global] Instance emits_preorder (Q : event T → Prop) : PreOrder (emits Q).
Proof.
  split.
  - intros w. exists []. by rewrite app_nil_r.
  - intros w1 w2 w3 (evs1 & H1 & HQ1) (evs2 & H2 & HQ2).
    exists (evs1 ++ evs2). split; [by rewrite H2, H1, app_assoc|].
    by apply Forall_app.
Qed.

#[global] Instance on_world_preorder (R : relation (World T)) `{!PreOrder R} :
  PreOrder (on_world R).
Proof.
  split.
  - intros s. unfold on_world. reflexivity.
  - intros s1 s2 s3 H12 H23. unfold on_world in *. by etrans.
Qed.

Lemma on_world_lift {A : Type} (R : relation (World T)) (m : M T A) :
  always R m → always (on_world R) (lift m).
Proof.
  intros Hm [v w]. unfold lift, on_world. cbn [fst snd]. specialize (Hm w).
  by destruct (m w) as [o w'].
Qed.

Lemma on_world_same {A : Type} (R : relation (World T)) `{!PreOrder R} (m : Method T A) :
  (∀ s, (m s).2.2 = s.2) → always (on_world R) m.
Proof. intros Hm s. unfold on_world. rewrite Hm. reflexivity. Qed.

Lemma emits_same (Q : event T → Prop) (w w' : World T) :
  trace w' = trace w → emits Q w w'.
Proof. intros Htr. exists []. by rewrite app_nil_r. Qed.

Lemma emits_one (Q : event T → Prop) (e : event T) (w w' : World T) :
  trace w' = trace w ++ [e] → Q e → emits Q w w'.
Proof. intros Htr He. exists [e]. split; [done|]. by apply Forall_singleton. Qed.

Section Emits.
Variable Q : event T → Prop.

Lemma emits_read (p : ptr) : always (emits Q) (read p).
Proof. apply always_pure; [apply _|]. intros w. unfold read. by repeat case_match. Qed.

Lemma emits_construct_in (dst : ptr) (e : loc → event T) (x : T) :
  (∀ l, Q (e l)) → always (emits Q) (construct_in dst e x).
Proof.
  intros He w. unfold construct_in.
  repeat case_match; try (by apply emits_same). by eapply emits_one.
Qed.

Lemma emits_assign_in (dst : ptr) (e : loc → event T) (x : T) :
  (∀ l, Q (e l)) → always (emits Q) (assign_in dst e x).
Proof.
  intros He w. unfold assign_in.
  repeat case_match; try (by apply emits_same). by eapply emits_one.
Qed.

Lemma emits_leave_moved_from (src : ptr) (x : T) :
  always (emits Q) (leave_moved_from src x).
Proof. intros w. unfold leave_moved_from. case_match; by apply emits_same. Qed.

Lemma emits_destroy_at (p : ptr) :
  (∀ o, Q (EvDtor o)) → always (emits Q) (destroy_at p).
Proof.
  intros He w. unfold destroy_at.
  repeat case_match; try (by apply emits_same); by eapply emits_one.
Qed.

Lemma emits_destroy_n (n : nat) (p : ptr) :
  (∀ o, Q (EvDtor o)) → always (emits Q) (destroy_n p n).
Proof.
  intros He. revert p. induction n as [|n IH]; intros p; cbn [destroy_n].
  - apply always_ret, _.
  - apply always_bind; [apply _|by apply emits_destroy_at|by intros _].
Qed.

Lemma emits_RawMemory_sized (n : nat) :
  (∀ b k, Q (EvAllocate b k)) → always (emits Q) (RawMemory_sized n).
Proof.
  intros He. apply always_bind; [apply _| |intros p; apply always_ret, _].
  unfold Allocate. case_match; [apply always_ret, _|].
  intros w. unfold operator_new. case_match; [by apply emits_same|by eapply emits_one].
Qed.

Lemma emits_RawMemory_dtor (m : RawMemory) :
  (∀ b, Q (EvDeallocate b)) → always (emits Q) (RawMemory_dtor m).
Proof.
  intros He w. unfold RawMemory_dtor, Deallocate, operator_delete.
  repeat case_match; try (by apply emits_same). by eapply emits_one.
Qed.

Lemma emits_RawMemory_plus (m : RawMemory) (offset : nat) :
  always (emits Q) (RawMemory_plus m offset).
Proof.
  apply always_pure; [apply _|]. intros w. unfold RawMemory_plus. by case_match.
Qed.

Lemma emits_uninitialized_loop (step : nat → M T unit) (d_first : ptr) (i n : nat) :
  (∀ j, always (emits Q) (step j)) → (∀ o, Q (EvDtor o)) →
  always (emits Q) (uninitialized_loop step d_first i n).
Proof.
  intros Hstep Hd. revert i. induction n as [|n IH]; intros i; cbn [uninitialized_loop].
  - apply always_ret, _.
  - apply always_bind; [apply _| |by intros _].
    apply always_on_unwind; [apply _|done|]. by apply emits_destroy_n.
Qed.

Lemma emits_move_construct (dst src : ptr) :
  (∀ o x, Q (EvMoveCtor o x)) → always (emits Q) (move_construct dst src).
Proof.
  intros He. apply always_bind; [apply _|apply emits_read|intros x].
  apply always_bind; [apply _|by apply emits_construct_in|intros _].
  apply emits_leave_moved_from.
Qed.

Lemma emits_copy_construct (dst src : ptr) :
  (∀ o x, Q (EvCopyCtor o x)) → always (emits Q) (copy_construct dst src).
Proof.
  intros He. apply always_bind; [apply _|apply emits_read|intros x].
  by apply emits_construct_in.
Qed.

Lemma emits_move_assign (dst src : ptr) :
  (∀ o x, Q (EvMoveAssign o x)) → always (emits Q) (move_assign dst src).
Proof.
  intros He. apply always_bind; [apply _|apply emits_read|intros x].
  apply always_bind; [apply _|by apply emits_assign_in|intros _].
  apply emits_leave_moved_from.
Qed.

Lemma emits_move_backward_loop (n : nat) (last d_last : ptr) :
  (∀ o x, Q (EvMoveAssign o x)) → always (emits Q) (move_backward_loop last d_last n).
Proof.
  intros He. revert last d_last.
  induction n as [|n IH]; intros last d_last; cbn [move_backward_loop].
  - apply always_ret, _.
  - apply always_bind; [apply _|by apply emits_move_assign|by intros _].
Qed.

End Emits.

(** Relocation by moves calls no copy constructor, relocation by copies
    no move constructor, whatever the outcome. *)
Lemma emits_Vector_Uninitialized (src : ptr) (n : nat) (dst : ptr) :
  always (emits (if is_nothrow_move_constructible || negb is_copy_constructible
                 then no_copy_ctor else no_move_ctor))
         (Vector_Uninitialized src n dst).
Proof.
  unfold Vector_Uninitialized. case_match.
  - apply emits_uninitialized_loop; [|done].
    intros j. by apply emits_move_construct.
  - apply emits_uninitialized_loop; [|done].
    intros j. by apply emits_copy_construct.
Qed.

(** *** The constructor calls of a relocation that succeeds *)

Lemma construct_in_event (dst : ptr) (e : loc → event T) (x : T) (w w1 : World T) :
  construct_in dst e x w = (Normal tt, w1) →
  ∃ l, dst = Some l ∧ trace w1 = trace w ++ [e l].
Proof.
  unfold construct_in. destruct dst as [l|]; [|done].
  destruct (slot_at w (Some l)); [|done].
  destruct (raises w (e l)); [done|]. intros [= <-]. by exists l.
Qed.

Lemma read_normal (p : ptr) (x : T) (w w1 : World T) :
  read p w = (Normal x, w1) → w1 = w.
Proof. unfold read. repeat case_match; congruence. Qed.

Lemma copy_construct_event (dst src : ptr) (w w1 : World T) :
  copy_construct dst src w = (Normal tt, w1) →
  ∃ l x, dst = Some l ∧ trace w1 = trace w ++ [EvCopyCtor (Slot l) x].
Proof.
  unfold copy_construct, bind.
  destruct (read src w) as [[x| |] w0] eqn:Hread; [|done..].
  apply read_normal in Hread as ->. unfold copy_construct_at.
  intros (l & -> & Htr)%construct_in_event. by exists l, x.
Qed.

Lemma move_construct_event (dst src : ptr) (w w1 : World T) :
  move_construct dst src w = (Normal tt, w1) →
  ∃ l x, dst = Some l ∧ trace w1 = trace w ++ [EvMoveCtor (Slot l) x].
Proof.
  unfold move_construct, bind.
  destruct (read src w) as [[x| |] w0] eqn:Hread; [|done..].
  apply read_normal in Hread as ->. unfold move_construct_at.
  destruct (construct_in dst _ x w) as [[[]| |] w2] eqn:Hc; [|done..].
  apply construct_in_event in Hc as (l & -> & Htr).
  unfold leave_moved_from. destruct src as [ls|]; [|done].
  intros [= <-]. by exists l, x.
Qed.

(** When the loop of a [std::uninitialized_*_n] algorithm returns, it
    has made exactly one constructor call per element, in order, the
    call for element [j] on the slot [d_first + j]. *)
Lemma uninitialized_loop_events (step : nat → M T unit) (mk : loc → T → event T)
    (d_first : ptr) :
  (∀ j w w1, step j w = (Normal tt, w1) →
     ∃ l x, ptr_add d_first j = Some l ∧ trace w1 = trace w ++ [mk l x]) →
  ∀ n i w w',
    uninitialized_loop step d_first i n w = (Normal tt, w') →
    ∃ evs, trace w' = trace w ++ evs ∧ length evs = n ∧
           ∀ j e, evs !! j = Some e →
             ∃ l x, ptr_add d_first (i + j) = Some l ∧ e = mk l x.
Proof.
  intros Hstep. induction n as [|n IH]; intros i w w'; cbn [uninitialized_loop].
  - intros [= <-]. exists []. rewrite app_nil_r. by repeat split.
  - unfold bind, on_unwind.
    destruct (step i w) as [[[]|e0|] w1] eqn:Hs.
    + destruct (Hstep _ _ _ Hs) as (l & x & Hl & Htr).
      intros (evs & Htr' & Hlen & Hevs)%IH.
      exists (mk l x :: evs). split; [by rewrite Htr', Htr, <- app_assoc|].
      split; [cbn; lia|].
      intros [|j] e.
      * intros [= <-]. exists l, x. by rewrite Nat.add_0_r.
      * intros He. destruct (Hevs j e He) as (l' & x' & Hl' & ->).
        exists l', x'. by rewrite <- Nat.add_succ_comm.
    + by destruct (destroy_n d_first i w1) as [[[]| |] w2].
    + done.
Qed.

(** *** Growth when [T] is nothrow-move-constructible *)

Lemma emits_Vector_DestroyAndSwap (Q : event T → Prop) (new_data : RawMemory) :
  (∀ o, Q (EvDtor o)) →
  always (on_world (emits Q)) (Vector_DestroyAndSwap new_data).
Proof.
  intros Hd. unfold Vector_DestroyAndSwap.
  apply always_bind; [apply _|by apply on_world_same; [apply _|]|intros v].
  apply always_bind; [apply _|by apply on_world_lift, emits_destroy_n|intros _].
  destruct (RawMemory_Swap _ _) as [d nd'].
  apply always_bind; [apply _|by apply on_world_same; [apply _|]|intros _].
  apply always_ret, _.
Qed.

Lemma emits_Vector_Uninitialized_nothrow (src : ptr) (n : nat) (dst : ptr) :
  is_nothrow_move_constructible = true →
  always (emits no_copy_ctor) (Vector_Uninitialized src n dst).
Proof.
  intros Hnt. pose proof (emits_Vector_Uninitialized src n dst) as Hu.
  by rewrite Hnt in Hu.
Qed.

Lemma Vector_Reserve_no_copy (n : nat) :
  is_nothrow_move_constructible = true →
  always (on_world (emits no_copy_ctor)) (Vector_Reserve n).
Proof.
  intros Hnt. unfold Vector_Reserve.
  apply always_bind; [apply _|by apply on_world_same; [apply _|]|intros v].
  case_match; [apply always_ret, _|].
  apply always_bind; [apply _|by apply on_world_lift, emits_RawMemory_sized|intros nd].
  apply always_bind; [apply _| |intros _].
  { apply always_on_unwind; [apply _| |].
    - by apply on_world_lift, emits_Vector_Uninitialized_nothrow.
    - by apply on_world_lift, emits_RawMemory_dtor. }
  apply always_bind; [apply _|by apply emits_Vector_DestroyAndSwap|intros nd'].
  by apply on_world_lift, emits_RawMemory_dtor.
Qed.

Lemma Vector_PushBack_move_no_copy (value : T) :
  is_nothrow_move_constructible = true →
  always (on_world (emits no_copy_ctor)) (Vector_PushBack_move value).
Proof.
  intros Hnt. unfold Vector_PushBack_move.
  apply always_bind; [apply _|by apply on_world_same; [apply _|]|intros v].
  case_match.
  - apply always_bind; [apply _|by apply on_world_lift, emits_RawMemory_sized|intros nd].
    apply always_bind; [apply _| |intros _].
    { apply always_on_unwind; [apply _| |by apply on_world_lift, emits_RawMemory_dtor].
      apply always_bind; [apply _|apply on_world_lift, emits_RawMemory_plus|intros p].
      apply always_bind; [apply _|by apply on_world_lift, emits_construct_in|intros _].
      by apply on_world_lift, emits_Vector_Uninitialized_nothrow. }
    apply always_bind; [apply _|by apply emits_Vector_DestroyAndSwap|intros nd'].
    apply always_bind; [apply _|by apply on_world_same; [apply _|]|intros _].
    by apply on_world_lift, emits_RawMemory_dtor.
  - apply always_bind; [apply _|apply on_world_lift, emits_RawMemory_plus|intros p].
    apply always_bind; [apply _|by apply on_world_lift, emits_construct_in|intros _].
    by apply on_world_same; [apply _|].
Qed.

Lemma Vector_Emplace_move_no_copy (pos : ptr) (value : T) :
  is_nothrow_move_constructible = true →
  always (on_world (emits no_copy_ctor)) (Vector_Emplace pos (ByMove value)).
Proof.
  intros Hnt. unfold Vector_Emplace.
  apply always_bind; [apply _|by apply on_world_same; [apply _|]|intros v].
  case_match.
  - unfold Vector_ReallocationEmplace.
    apply always_bind; [apply _|by apply on_world_same; [apply _|]|intros v0].
    apply always_bind; [apply _|by apply on_world_lift, emits_RawMemory_sized|intros nd].
    apply always_bind; [apply _| |intros elem].
    { apply always_on_unwind; [apply _| |by apply on_world_lift, emits_RawMemory_dtor].
      apply always_bind; [apply _|apply on_world_lift, emits_RawMemory_plus|intros p].
      apply always_bind; [apply _|by apply on_world_lift, emits_construct_in|intros _].
      apply always_bind;
        [apply _|by apply on_world_lift, emits_Vector_Uninitialized_nothrow|intros _].
      apply always_bind; [apply _|apply on_world_lift, emits_RawMemory_plus|intros src].
      apply always_bind;
        [apply _|by apply on_world_lift, emits_Vector_Uninitialized_nothrow|intros _].
      apply always_ret, _. }
    apply always_bind; [apply _|by apply emits_Vector_DestroyAndSwap|intros nd'].
    apply always_bind; [apply _|by apply on_world_same; [apply _|]|intros _].
    apply always_bind; [apply _|by apply on_world_lift, emits_RawMemory_dtor|intros _].
    apply always_ret, _.
  - unfold Vector_NoReallocationEmplace.
    apply always_bind; [apply _|by apply on_world_same; [apply _|]|intros v0].
    apply always_bind; [apply _|apply on_world_lift, emits_RawMemory_plus|intros e].
    apply always_bind; [apply _| |intros _].
    { case_match.
      - apply always_bind; [apply _|apply on_world_lift, emits_RawMemory_plus|intros p].
        by apply on_world_lift, emits_construct_in.
      - assert (Hlocal : always (emits no_copy_ctor) (@destroy_local T)).
        { intros w. by eapply emits_one. }
        apply always_bind; [apply _| |intros elem].
        { apply on_world_lift. intros w. cbn [construct_temporary]. unfold construct_local.
          case_match; [by apply emits_same|by eapply emits_one]. }
        apply always_bind; [apply _| |intros _; by apply on_world_lift].
        apply always_on_unwind; [apply _| |by apply on_world_lift].
        apply always_bind; [apply _|apply on_world_lift, emits_RawMemory_plus|intros p].
        apply always_bind; [apply _|by apply on_world_lift, emits_move_construct|intros _].
        apply always_bind; [apply _|apply on_world_lift, emits_RawMemory_plus|intros first].
        apply always_bind; [apply _| |intros _].
        { by apply on_world_lift, emits_move_backward_loop. }
        apply always_bind; [apply _|apply on_world_lift, emits_RawMemory_plus|intros dst].
        by apply on_world_lift, emits_assign_in. }
    apply always_bind; [apply _|by apply on_world_same; [apply _|]|intros _].
    apply always_ret, _.
Qed.

(** *** Relocation when nothing throws *)

Lemma copy_construct_step (bd od bs os : nat) (w : World T)
    (dblk sblk : list (slot T)) (x : T) :
  no_throw → bs ≠ bd → heap w !! bd = Some dblk → heap w !! bs = Some sblk →
  od < length dblk → sblk !! os = Some (Live x) →
  ∃ w', copy_construct (Some (bd, od)) (Some (bs, os)) w = (Normal tt, w') ∧
        heap w' !! bd = Some (<[od := Live x]> dblk) ∧
        heap w' !! bs = Some (<[os := Live x]> sblk) ∧
        trace w' = trace w ++ [EvCopyCtor (Slot (bd, od)) x].
Proof.
  intros Hn Hne Hd Hs Hod Hos.
  destruct (construct_in_spec (λ l, EvCopyCtor (Slot l) x) x bd od w dblk Hn Hd Hod)
    as (w' & Hrun & Hd' & Hfr & _ & Htr).
  exists w'. split.
  { unfold copy_construct. rewrite (bind_normal _ _ _ _ _ (read_live _ _ _ _ _ Hs Hos)).
    exact Hrun. }
  split; [done|]. split; [|done].
  rewrite Hfr by done. rewrite Hs. f_equal. symmetry. by apply list_insert_id.
Qed.

Lemma move_construct_step (bd od bs os : nat) (w : World T)
    (dblk sblk : list (slot T)) (x : T) :
  no_throw → bs ≠ bd → heap w !! bd = Some dblk → heap w !! bs = Some sblk →
  od < length dblk → sblk !! os = Some (Live x) →
  ∃ w', move_construct (Some (bd, od)) (Some (bs, os)) w = (Normal tt, w') ∧
        heap w' !! bd = Some (<[od := Live x]> dblk) ∧
        heap w' !! bs = Some (<[os := Live (moved_from x)]> sblk) ∧
        trace w' = trace w ++ [EvMoveCtor (Slot (bd, od)) x].
Proof.
  intros Hn Hne Hd Hs Hod Hos.
  destruct (construct_in_spec (λ l, EvMoveCtor (Slot l) x) x bd od w dblk Hn Hd Hod)
    as (w1 & Hrun & Hd' & Hfr & _ & Htr).
  eexists. split.
  { unfold move_construct, move_construct_at.
    rewrite (bind_normal _ _ _ _ _ (read_live _ _ _ _ _ Hs Hos)).
    rewrite (bind_normal _ _ _ _ _ Hrun). unfold leave_moved_from. reflexivity. }
  split; [by rewrite heap_store_ne|].
  split; [by rewrite heap_store_eq, Hfr, Hs|]. done.
Qed.

Section RelocationLoop.
Variables (step : ptr → ptr → M T unit) (f : T → T) (ev : loc → T → event T).
Hypothesis step_spec :
  ∀ (bd od bs os : nat) (w : World T) (dblk sblk : list (slot T)) (x : T),
    bs ≠ bd → heap w !! bd = Some dblk → heap w !! bs = Some sblk →
    od < length dblk → sblk !! os = Some (Live x) →
    ∃ w', step (Some (bd, od)) (Some (bs, os)) w = (Normal tt, w') ∧
          heap w' !! bd = Some (<[od := Live x]> dblk) ∧
          heap w' !! bs = Some (<[os := Live (f x)]> sblk) ∧
          trace w' = trace w ++ [ev (bd, od) x].

(** The loop of a [std::uninitialized_*_n] algorithm over the elements
    [xs] of the source, from step [i] on: it returns, it has made one
    constructor call per element, in order and with the element's
    value, the destination holds the values and the source what the
    constructor left there. *)
Lemma uninitialized_loop_relocates (bd od bs os : nat) :
  bs ≠ bd →
  ∀ (xs : list T) (i : nat) (w : World T) (dblk sblk : list (slot T)),
    heap w !! bd = Some dblk → heap w !! bs = Some sblk →
    od + i + length xs ≤ length dblk →
    (∀ j x, xs !! j = Some x → sblk !! (os + i + j) = Some (Live x)) →
    ∃ w' dblk' sblk',
      uninitialized_loop
        (λ j, step (ptr_add (Some (bd, od)) j) (ptr_add (Some (bs, os)) j))
        (Some (bd, od)) i (length xs) w = (Normal tt, w') ∧
      trace w' = trace w ++ imap (λ j x, ev (bd, od + i + j) x) xs ∧
      heap w' !! bd = Some dblk' ∧ heap w' !! bs = Some sblk' ∧
      (∀ j x, xs !! j = Some x → dblk' !! (od + i + j) = Some (Live x)) ∧
      (∀ j x, xs !! j = Some x → sblk' !! (os + i + j) = Some (Live (f x))) ∧
      (∀ o, o < od + i → dblk' !! o = dblk !! o) ∧
      (∀ o, o < os + i → sblk' !! o = sblk !! o).
Proof.
  intros Hne. induction xs as [|x xs IH]; intros i w dblk sblk Hd Hs Hlen Hsrc.
  - exists w, dblk, sblk. cbn. rewrite app_nil_r. by repeat split.
  - cbn [length] in *.
    pose proof (Hsrc 0 x eq_refl) as Hx. rewrite Nat.add_0_r in Hx.
    destruct (step_spec bd (od + i) bs (os + i) w dblk sblk x Hne Hd Hs ltac:(lia) Hx)
      as (w1 & Hrun & Hd1 & Hs1 & Htr1).
    destruct (IH (S i) w1 _ _ Hd1 Hs1)
      as (w' & dblk' & sblk' & Hrun' & Htr' & Hd' & Hs' & Hdst & Hsrc' & Hdo & Hso).
    { rewrite length_insert. lia. }
    { intros j y Hy. rewrite list_lookup_insert_ne by lia.
      replace (os + S i + j) with (os + i + S j) by lia. by apply Hsrc. }
    exists w', dblk', sblk'. split.
    { cbn [uninitialized_loop].
      rewrite (bind_normal _ _ _ _ _ (on_unwind_normal _ _ _ _ _ Hrun)). exact Hrun'. }
    split.
    { rewrite Htr', Htr1, <- app_assoc. cbn. rewrite Nat.add_0_r. do 2 f_equal.
      apply imap_ext. intros j y _. cbn. f_equal. f_equal. lia. }
    split; [done|]. split; [done|]. split.
    { intros [|j] y Hy.
      - injection Hy as <-. rewrite Nat.add_0_r. rewrite Hdo by lia.
        apply list_lookup_insert_eq. lia.
      - replace (od + i + S j) with (od + S i + j) by lia. by apply Hdst. }
    split.
    { intros [|j] y Hy.
      - injection Hy as <-. rewrite Nat.add_0_r. rewrite Hso by lia.
        apply list_lookup_insert_eq. by eapply lookup_lt_Some.
      - replace (os + i + S j) with (os + S i + j) by lia. by apply Hsrc'. }
    split.
    { intros o Ho. rewrite Hdo by lia. apply list_lookup_insert_ne. lia. }
    intros o Ho. rewrite Hso by lia. apply list_lookup_insert_ne. lia.
Qed.

End RelocationLoop.

(** C7. Relocation into a new buffer move-constructs when [T] is
    nothrow-move-constructible or not copy-constructible, and
    copy-constructs otherwise. In the first case it calls no copy
    constructor and in the second no move constructor, whatever the
    outcome, and when it returns it has made exactly one constructor
    call of its kind per element, in order, the call for element [j] on
    slot [new_data + j]. When nothing throws, relocation of the live
    elements [xs] into room of another allocation does return: its
    constructor calls are those of its kind for the values of [xs], in
    order, the new buffer holds [xs], and the old one holds the
    moved-from objects, or the elements themselves when they were
    copied. In particular, for a nothrow-move-constructible [T],
    [Reserve], [PushBack(T&&)] and [Emplace] and [Insert] of an rvalue
    call no copy constructor. *)
Theorem relocation_policy :
  (∀ (data : ptr) (size : nat) (new_data : ptr) (w : World T),
     let r := Vector_Uninitialized data size new_data w in
     if is_nothrow_move_constructible || negb is_copy_constructible
     then emits no_copy_ctor w r.2 ∧
          (r.1 = Normal tt →
           ∃ evs, trace r.2 = trace w ++ evs ∧ length evs = size ∧
                  ∀ j e, evs !! j = Some e →
                    ∃ l x, ptr_add new_data j = Some l ∧ e = EvMoveCtor (Slot l) x)
     else emits no_move_ctor w r.2 ∧
          (r.1 = Normal tt →
           ∃ evs, trace r.2 = trace w ++ evs ∧ length evs = size ∧
                  ∀ j e, evs !! j = Some e →
                    ∃ l x, ptr_add new_data j = Some l ∧ e = EvCopyCtor (Slot l) x)) ∧
  (no_throw →
   ∀ (bd od bs os : nat) (w : World T) (dblk sblk : list (slot T)) (xs : list T),
     bs ≠ bd → heap w !! bd = Some dblk → heap w !! bs = Some sblk →
     od + length xs ≤ length dblk →
     (∀ j x, xs !! j = Some x → sblk !! (os + j) = Some (Live x)) →
     ∃ w' dblk' sblk',
       Vector_Uninitialized (Some (bs, os)) (length xs) (Some (bd, od)) w = (Normal tt, w') ∧
       trace w' =
         trace w ++
         imap (λ j x, if is_nothrow_move_constructible || negb is_copy_constructible
                      then EvMoveCtor (Slot (bd, od + j)) x
                      else EvCopyCtor (Slot (bd, od + j)) x) xs ∧
       heap w' !! bd = Some dblk' ∧ heap w' !! bs = Some sblk' ∧
       (∀ j x, xs !! j = Some x → dblk' !! (od + j) = Some (Live x)) ∧
       (∀ j x, xs !! j = Some x →
          sblk' !! (os + j) =
            Some (Live (if is_nothrow_move_constructible || negb is_copy_constructible
                        then moved_from x else x)))) ∧
  (is_nothrow_move_constructible = true →
   ∀ (v : Vector) (w : World T),
     (∀ n, emits no_copy_ctor w (after (Vector_Reserve n (v, w))).2) ∧
     (∀ value, emits no_copy_ctor w (after (Vector_PushBack_move value (v, w))).2) ∧
     (∀ pos value, emits no_copy_ctor w (after (Vector_Emplace pos (ByMove value) (v, w))).2) ∧
     (∀ pos value, emits no_copy_ctor w (after (Vector_Insert_move pos value (v, w))).2)).
Proof.
  split; [|split].
  - intros data size new_data w r.
    pose proof (emits_Vector_Uninitialized data size new_data w) as Hem. fold r in Hem.
    unfold r, Vector_Uninitialized in *.
    destruct (is_nothrow_move_constructible || negb is_copy_constructible).
    + split; [exact Hem|]. intros Hnormal.
      destruct (uninitialized_move_n data size new_data w) as [o w'] eqn:Hrun.
      cbn in Hnormal. subst o.
      apply (uninitialized_loop_events _ (λ l x, EvMoveCtor (Slot l) x) new_data) in Hrun;
        [exact Hrun|].
      intros j w0 w1. apply move_construct_event.
    + split; [exact Hem|]. intros Hnormal.
      destruct (uninitialized_copy_n data size new_data w) as [o w'] eqn:Hrun.
      cbn in Hnormal. subst o.
      apply (uninitialized_loop_events _ (λ l x, EvCopyCtor (Slot l) x) new_data) in Hrun;
        [exact Hrun|].
      intros j w0 w1. apply copy_construct_event.
  - intros Hn bd od bs os w dblk sblk xs Hne Hd Hs Hlen Hsrc.
    unfold Vector_Uninitialized, uninitialized_move_n, uninitialized_copy_n.
    destruct (is_nothrow_move_constructible || negb is_copy_constructible).
    + destruct (uninitialized_loop_relocates move_construct moved_from
                  (λ l x, EvMoveCtor (Slot l) x)
                  (λ bd od bs os w dblk sblk x, move_construct_step bd od bs os w dblk sblk x Hn)
                  bd od bs os Hne xs 0 w dblk sblk Hd Hs)
        as (w' & dblk' & sblk' & Hrun & Htr & Hd' & Hs' & Hdst & Hsrc' & _).
      { lia. }
      { intros j x Hx. rewrite Nat.add_0_r. by apply Hsrc. }
      exists w', dblk', sblk'. split; [exact Hrun|]. split.
      { rewrite Htr. f_equal. apply imap_ext. intros j x _. cbn. by rewrite Nat.add_0_r. }
      split; [done|]. split; [done|]. split.
      * intros j x Hx. specialize (Hdst j x Hx). by rewrite Nat.add_0_r in Hdst.
      * intros j x Hx. specialize (Hsrc' j x Hx). by rewrite Nat.add_0_r in Hsrc'.
    + destruct (uninitialized_loop_relocates copy_construct (λ x, x)
                  (λ l x, EvCopyCtor (Slot l) x)
                  (λ bd od bs os w dblk sblk x, copy_construct_step bd od bs os w dblk sblk x Hn)
                  bd od bs os Hne xs 0 w dblk sblk Hd Hs)
        as (w' & dblk' & sblk' & Hrun & Htr & Hd' & Hs' & Hdst & Hsrc' & _).
      { lia. }
      { intros j x Hx. rewrite Nat.add_0_r. by apply Hsrc. }
      exists w', dblk', sblk'. split; [exact Hrun|]. split.
      { rewrite Htr. f_equal. apply imap_ext. intros j x _. cbn. by rewrite Nat.add_0_r. }
      split; [done|]. split; [done|]. split.
      * intros j x Hx. specialize (Hdst j x Hx). by rewrite Nat.add_0_r in Hdst.
      * intros j x Hx. specialize (Hsrc' j x Hx). by rewrite Nat.add_0_r in Hsrc'.
  - intros Hnt v w. split; [|split; [|split]].
    + intros n. apply (Vector_Reserve_no_copy n Hnt (v, w)).
    + intros value. apply (Vector_PushBack_move_no_copy value Hnt (v, w)).
    + intros pos value. apply (Vector_Emplace_move_no_copy pos value Hnt (v, w)).
    + intros pos value. apply (Vector_Emplace_move_no_copy pos value Hnt (v, w)).
Qed.

End Events.

(** Relocation of 1, 2 into a buffer of three slots, by moves for [int]
    and by copies for a type whose move constructor may throw; and
    [Reserve(2)] on a vector of [int] holding 1 in a buffer of capacity
    1. *)
Lemma relocation_policy_witness :
  let w0 : World Z := mkWorld {[ 0 := [Live 1; Live 2]%Z; 1 := [Raw; Raw; Raw] ]} 2 [] in
  (let H := throwing_type in
   let F := no_faults Z in
   no_throw ∧ is_nothrow_move_constructible || negb is_copy_constructible = false ∧
   ∃ w', Vector_Uninitialized (Some (0, 0)) 2 (Some (1, 0)) w0 = (Normal tt, w') ∧
         trace w' = [EvCopyCtor (Slot (1, 0)) 1%Z; EvCopyCtor (Slot (1, 1)) 2%Z] ∧
         heap w' !! 0 = Some [Live 1; Live 2]%Z ∧
         heap w' !! 1 = Some [Live 1; Live 2; Raw]%Z) ∧
  (let H := int_type in
   let F := no_faults Z in
   no_throw ∧ is_nothrow_move_constructible = true ∧
   (∃ w', Vector_Uninitialized (Some (0, 0)) 2 (Some (1, 0)) w0 = (Normal tt, w') ∧
          trace w' = [EvMoveCtor (Slot (1, 0)) 1%Z; EvMoveCtor (Slot (1, 1)) 2%Z]) ∧
   let w : World Z := mkWorld {[ 0 := [Live 1%Z] ]} 1 [] in
   let v := mkVector (mkRawMemory (Some (0, 0)) 1) 1 in
   emits no_copy_ctor w (after (Vector_Reserve 2 (v, w))).2 ∧
   trace (after (Vector_Reserve 2 (v, w))).2 =
     [EvAllocate 1 2; EvMoveCtor (Slot (1, 0)) 1%Z; EvDtor (Slot (0, 0)); EvDeallocate 0]).
Proof.
  intros w0. split.
  - intros HT HF.
    assert (Hn : no_throw) by (intros tr e; reflexivity).
    split; [exact Hn|]. split; [reflexivity|].
    destruct (proj1 (proj2 (@relocation_policy Z HT HF)) Hn 1 0 0 0 w0
                [Raw; Raw; Raw] [Live 1; Live 2]%Z [1; 2]%Z)
      as (w' & dblk' & sblk' & Hrun & Htr & Hd' & Hs' & _).
    { lia. } { reflexivity. } { reflexivity. } { cbn. lia. }
    { intros [|[|j]] x Hx; [by injection Hx as <-..|done]. }
    exists w'. split; [exact Hrun|]. split; [exact Htr|].
    vm_compute in Hrun. injection Hrun as <-. split; vm_compute; reflexivity.
  - intros HT HF.
    assert (Hn : no_throw) by (intros tr e; reflexivity).
    split; [exact Hn|]. split; [reflexivity|]. split.
    + destruct (proj1 (proj2 (@relocation_policy Z HT HF)) Hn 1 0 0 0 w0
                  [Raw; Raw; Raw] [Live 1; Live 2]%Z [1; 2]%Z)
        as (w' & dblk' & sblk' & Hrun & Htr & _).
      { lia. } { reflexivity. } { reflexivity. } { cbn. lia. }
      { intros [|[|j]] x Hx; [by injection Hx as <-..|done]. }
      exists w'. split; [exact Hrun|exact Htr].
    + intros w v. split; [|vm_compute; reflexivity].
      apply (proj1 (proj2 (proj2 (@relocation_policy Z HT HF)) eq_refl v w) 2).
Defined.

(** ** The growth policy *)

Section GrowthPolicy.
Context {T : Type} `{ElementType T} `{Faults T}.

#[global] Instance any_world_preorder : PreOrder (any_world T).
Proof. by split. Qed.

Lemma always_any_world {A : Type} (m : M T A) : always (any_world T) m.
Proof. done. Qed.

(** A call of a function of the store leaves the object alone. *)
Lemma keeps_this_lift {A : Type} (m : M T A) : always (lifted (any_world T)) (lift m).
Proof. apply always_lift, always_any_world. Qed.

Lemma Vector_DestroyAndSwap_inv (new_data new_data' : RawMemory) (v v' : Vector)
    (w w' : World T) :
  Vector_DestroyAndSwap new_data (v, w) = (Normal new_data', (v', w')) →
  v' = mkVector new_data (size_ v).
Proof.
  unfold Vector_DestroyAndSwap.
  rewrite (bind_normal this _ _ _ _ eq_refl). cbn [fst].
  unfold bind at 1, lift. cbn [fst snd].
  destruct (destroy_n _ _ w) as [[[]| |] w1]; [|done..].
  rewrite RawMemory_Swap_eq. cbn. by intros [= _ <- _].
Qed.

(** When [ReallocationEmplace] returns, the vector owns a buffer whose
    capacity is the one the growth policy computes. *)
Lemma Vector_ReallocationEmplace_capacity (pos it : ptr) (args : EmplaceArgs T)
    (v v' : Vector) (w w' : World T) :
  Vector_ReallocationEmplace pos args (v, w) = (Normal it, (v', w')) →
  Vector_Capacity v' = GrowthCapacity (size_ v).
Proof.
  unfold Vector_ReallocationEmplace.
  rewrite (bind_normal this _ _ _ _ eq_refl). cbn [fst].
  unfold bind at 1, lift at 1. cbn [fst snd].
  destruct (RawMemory_sized _ w) as [[nd| |] w1] eqn:Halloc; [|done..].
  apply RawMemory_sized_inv in Halloc as [Hcap _].
  unfold bind at 1.
  destruct (on_unwind _ _ (v, w1)) as [[elem| |] [v2 w2]] eqn:Hbody; [|done..].
  unfold bind at 1.
  destruct (Vector_DestroyAndSwap nd (v2, w2)) as [[nd'| |] [v3 w3]] eqn:Hswap; [|done..].
  apply Vector_DestroyAndSwap_inv in Hswap as ->.
  rewrite (bind_normal increment_size _ _ _ _ eq_refl). cbn [fst snd data_ size_].
  unfold bind at 1, lift. cbn [fst snd].
  destruct (RawMemory_dtor nd' w3) as [[[]| |] w4]; [|done..].
  cbn. intros [= _ <- _]. done.
Qed.

Lemma Vector_NoReallocationEmplace_capacity (pos it : ptr) (args : EmplaceArgs T)
    (v v' : Vector) (w w' : World T) :
  Vector_NoReallocationEmplace pos args (v, w) = (Normal it, (v', w')) →
  Vector_Capacity v' = Vector_Capacity v.
Proof.
  unfold Vector_NoReallocationEmplace.
  rewrite (bind_normal this _ _ _ _ eq_refl). cbn [fst].
  unfold bind at 1, lift at 1. cbn [fst snd].
  destruct (Vector_end v w) as [[e| |] w1]; [|done..].
  unfold bind at 1.
  match goal with |- context [match ?m (v, w1) with _ => _ end] => set (inner := m) end.
  assert (Hinner : always (lifted (any_world T)) inner).
  { unfold inner. case_match.
    - apply always_bind; [apply _|apply keeps_this_lift|intros p]. apply keeps_this_lift.
    - apply always_bind; [apply _|apply keeps_this_lift|intros elem].
      apply always_bind; [apply _| |intros _; apply keeps_this_lift].
      apply always_on_unwind; [apply _| |apply keeps_this_lift].
      apply always_bind; [apply _|apply keeps_this_lift|intros p].
      apply always_bind; [apply _|apply keeps_this_lift|intros _].
      apply always_bind; [apply _|apply keeps_this_lift|intros first].
      apply always_bind; [apply _|apply keeps_this_lift|intros _].
      apply always_bind; [apply _|apply keeps_this_lift|intros dst].
      apply keeps_this_lift. }
  specialize (Hinner (v, w1)).
  destruct (inner (v, w1)) as [[[]| |] [v2 w2]]; [|done..].
  destruct Hinner as [Hv _]. cbn in Hv. subst v2.
  cbn. intros [= _ <- _]. done.
Qed.

Lemma Vector_Emplace_capacity (pos it : ptr) (args : EmplaceArgs T)
    (v v' : Vector) (w w' : World T) :
  Vector_Emplace pos args (v, w) = (Normal it, (v', w')) →
  Vector_Capacity v' =
    (if size_ v =? Vector_Capacity v then GrowthCapacity (size_ v) else Vector_Capacity v).
Proof.
  unfold Vector_Emplace.
  rewrite (bind_normal this _ _ _ _ eq_refl). cbn [fst].
  unfold Vector_Capacity at 2 3. case_match.
  - apply Vector_ReallocationEmplace_capacity.
  - apply Vector_NoReallocationEmplace_capacity.
Qed.

Lemma Vector_EmplaceBack_capacity (it : ptr) (args : EmplaceArgs T)
    (v v' : Vector) (w w' : World T) :
  Vector_EmplaceBack args (v, w) = (Normal it, (v', w')) →
  Vector_Capacity v' =
    (if size_ v =? Vector_Capacity v then GrowthCapacity (size_ v) else Vector_Capacity v).
Proof.
  unfold Vector_EmplaceBack.
  rewrite (bind_normal this _ _ _ _ eq_refl). cbn [fst].
  unfold bind at 1, lift at 1. cbn [fst snd].
  unfold Vector_end, RawMemory_plus.
  destruct (size_ v <=? capacity_ (data_ v)); [|done].
  cbn [ret]. apply Vector_Emplace_capacity.
Qed.

Lemma Vector_PushBack_move_capacity (value : T) (v v' : Vector) (w w' : World T) :
  Vector_PushBack_move value (v, w) = (Normal tt, (v', w')) →
  Vector_Capacity v' =
    (if size_ v =? Vector_Capacity v then GrowthCapacity (size_ v) else Vector_Capacity v).
Proof.
  unfold Vector_PushBack_move.
  rewrite (bind_normal this _ _ _ _ eq_refl). cbn [fst].
  unfold Vector_Capacity at 2 3. case_match.
  - unfold bind at 1, lift at 1. cbn [fst snd].
    destruct (RawMemory_sized _ w) as [[nd| |] w1] eqn:Halloc; [|done..].
    apply RawMemory_sized_inv in Halloc as [Hcap _].
    unfold bind at 1.
    destruct (on_unwind _ _ (v, w1)) as [[[]| |] [v2 w2]] eqn:Hbody; [|done..].
    unfold bind at 1.
    destruct (Vector_DestroyAndSwap nd (v2, w2)) as [[nd'| |] [v3 w3]] eqn:Hswap; [|done..].
    apply Vector_DestroyAndSwap_inv in Hswap as ->.
    rewrite (bind_normal increment_size _ _ _ _ eq_refl). cbn [fst snd data_ size_].
    unfold lift. cbn [fst snd].
    destruct (RawMemory_dtor nd' w3) as [[[]| |] w4]; [|done..].
    intros [= <- _]. done.
  - unfold bind at 1, lift at 1. cbn [fst snd].
    destruct (RawMemory_plus _ _ w) as [[p| |] w1]; [|done..].
    unfold bind at 1, lift at 1. cbn [fst snd].
    destruct (move_construct_at p value w1) as [[[]| |] w2]; [|done..].
    cbn. intros [= <- _]. done.
Qed.

Lemma Vector_PushBack_copy_capacity (value : const_ref T) (v v' : Vector) (w w' : World T) :
  Vector_PushBack_copy value (v, w) = (Normal tt, (v', w')) →
  Vector_Capacity v' =
    (if size_ v =? Vector_Capacity v then GrowthCapacity (size_ v) else Vector_Capacity v).
Proof.
  unfold Vector_PushBack_copy, bind.
  destruct (Vector_EmplaceBack (ByCopy value) (v, w)) as [[it| |] [v1 w1]] eqn:Hrun; [|done..].
  cbn. intros [= <- _]. by eapply Vector_EmplaceBack_capacity.
Qed.

(** C9. Let doubling the size not overflow [size_t]. Whenever an append
    or a positional insert returns, the capacity is what the growth
    policy says: if the vector was full ([size == capacity]) it is 1 when
    the size was 0 and twice the size, which is twice the capacity,
    otherwise; if the vector was not full it is the previous capacity.
    So the capacity afterwards is the previous capacity, 1, or twice the
    previous capacity. And the operations do return when the vector is
    well formed and nothing throws. *)
Theorem growth_policy (v : Vector) (w : World T) :
  (N.of_nat (size_ v) * 2 < size_t_modulus)%N →
  let policy := if size_ v =? 0 then 1 else 2 * size_ v in
  let expected := if size_ v =? Vector_Capacity v then policy else Vector_Capacity v in
  (∀ pos args it v' w',
     Vector_Emplace pos args (v, w) = (Normal it, (v', w')) →
     Vector_Capacity v' = expected) ∧
  (∀ args it v' w',
     Vector_EmplaceBack args (v, w) = (Normal it, (v', w')) →
     Vector_Capacity v' = expected) ∧
  (∀ value v' w',
     Vector_PushBack_copy value (v, w) = (Normal tt, (v', w')) →
     Vector_Capacity v' = expected) ∧
  (∀ value v' w',
     Vector_PushBack_move value (v, w) = (Normal tt, (v', w')) →
     Vector_Capacity v' = expected) ∧
  (∀ pos value it v' w',
     Vector_Insert_copy pos value (v, w) = (Normal it, (v', w')) →
     Vector_Capacity v' = expected) ∧
  (∀ pos value it v' w',
     Vector_Insert_move pos value (v, w) = (Normal it, (v', w')) →
     Vector_Capacity v' = expected) ∧
  (expected = Vector_Capacity v ∨ expected = 1 ∨ expected = 2 * Vector_Capacity v) ∧
  (∀ xs, no_throw → Vector_repr w v xs →
     (∀ value, ∃ v' w', Vector_PushBack_move value (v, w) = (Normal tt, (v', w'))) ∧
     (∀ k args x, k ≤ length xs → args_value v xs args x →
        ∃ it v' w',
          Vector_Emplace (ptr_add (Vector_begin v) k) args (v, w) = (Normal it, (v', w')))).
Proof.
  intros Hfit policy expected.
  assert (Hexp : (if size_ v =? Vector_Capacity v
                  then GrowthCapacity (size_ v) else Vector_Capacity v) = expected).
  { unfold expected, policy. by rewrite (GrowthCapacity_eq _ Hfit). }
  rewrite <- Hexp.
  split. { intros pos args it v' w'. apply Vector_Emplace_capacity. }
  split. { intros args it v' w'. apply Vector_EmplaceBack_capacity. }
  split. { intros value v' w'. apply Vector_PushBack_copy_capacity. }
  split. { intros value v' w'. apply Vector_PushBack_move_capacity. }
  split. { intros pos value it v' w'. apply Vector_Emplace_capacity. }
  split. { intros pos value it v' w'. apply Vector_Emplace_capacity. }
  split.
  { rewrite Hexp. unfold expected, policy.
    destruct (Nat.eqb_spec (size_ v) (Vector_Capacity v)) as [Heq|_]; [|by left].
    right. destruct (Nat.eqb_spec (size_ v) 0); [by left|right; lia]. }
  intros xs Hn Hrepr. split.
  - intros value.
    destruct (Vector_PushBack_move_spec w v xs value Hn Hrepr Hfit) as (v' & w' & Hrun & _).
    by exists v', w'.
  - intros k args x Hk Hargs.
    destruct (Vector_Emplace_spec w v xs k args x Hn Hrepr Hk Hargs Hfit)
      as (v' & w' & Hrun & _).
    by eexists _, v', w'.
Qed.

End GrowthPolicy.

(** Scenario S1 of the specification, last step: the vector holds 1, 2
    at full capacity 2 and 3 is appended. *)
Lemma growth_policy_witness :
  let H := int_type in
  let F := no_faults Z in
  let w : World Z := mkWorld {[ 1 := [Live 1; Live 2]%Z ]} 2 [] in
  let v := mkVector (mkRawMemory (Some (1, 0)) 2) 2 in
  (N.of_nat (size_ v) * 2 < size_t_modulus)%N ∧
  ∃ v' w', Vector_PushBack_move 3%Z (v, w) = (Normal tt, (v', w')) ∧
           Vector_Capacity v' = 4.
Proof.
  intros HT HF w v.
  assert (Hfit : (N.of_nat (size_ v) * 2 < size_t_modulus)%N) by reflexivity.
  split; [exact Hfit|].
  eexists _, _. split; [vm_compute; reflexivity|].
  eapply (proj1 (proj2 (proj2 (proj2 (@growth_policy Z HT HF v w Hfit)))) 3%Z).
  vm_compute; reflexivity.
Defined.

(** * Further properties of the container *)

(** ** Element access and the iterator range *)

Section Access.
Context {T : Type} `{ElementType T} `{Faults T}.

(** [v[i]] reads element [i] of the sequence when [i] is below the size
    and is a precondition violation otherwise, also when the slot exists
    in the reserved capacity. *)
Theorem Vector_at_bounds (w : World T) (v : Vector) (xs : list T) (i : nat) :
  Vector_repr w v xs →
  Vector_at v i w =
    match xs !! i with
    | Some x => (Normal x, w)
    | None => (Undefined, w)
    end.
Proof.
  intros Hrepr. destruct (xs !! i) as [x|] eqn:Hx.
  - by eapply Vector_repr_at.
  - apply lookup_ge_None_1 in Hx. destruct Hrepr as (Hsize & _).
    unfold Vector_at, Vector_index, bind.
    destruct (Nat.ltb_spec i (size_ v)); [lia|done].
Qed.

(** [end()] is [begin() + size], and the pointers of the range
    [begin(), end()) designate the elements in order. *)
Theorem Vector_iterator_range (w : World T) (v : Vector) (xs : list T) :
  Vector_repr w v xs →
  Vector_end v w = (Normal (ptr_add (Vector_begin v) (size_ v)), w) ∧
  size_ v = length xs ∧
  ∀ i x, xs !! i = Some x → read (ptr_add (Vector_begin v) i) w = (Normal x, w).
Proof.
  intros (Hsize & Hle & Hbuf). split.
  { unfold Vector_end. apply RawMemory_plus_ok. lia. }
  split; [done|].
  intros i x Hx. pose proof (lookup_lt_Some _ _ _ Hx) as Hi.
  destruct v as [[buf cap] n]. cbn [size_ data_ buffer_ capacity_ Vector_begin
                                    RawMemory_GetAddress] in *.
  destruct buf as [[b o]|]; [|lia].
  destruct Hbuf as (-> & _ & Hheap). cbn [ptr_add].
  eapply read_live; [exact Hheap|]. by apply lookup_slots_of_live.
Qed.

End Access.

(** ** Construction of [RawMemory] and [Vector] *)

Section Construction.
Context {T : Type} `{ElementType T} `{Faults T}.

(** The two outcomes of [RawMemory(capacity)]. *)
Lemma RawMemory_sized_cases (n : nat) (w : World T) :
  match RawMemory_sized n w with
  | (Normal m, w') =>
      capacity_ m = n ∧ (buffer_ m = None ↔ n = 0) ∧
      (n = 0 → w' = w) ∧
      (n ≠ 0 →
       buffer_ m = Some (next_block w, 0) ∧
       heap w' = <[next_block w := replicate n Raw]> (heap w) ∧
       next_block w' = S (next_block w) ∧
       trace w' = trace w ++ [EvAllocate (next_block w) n])
  | (Thrown e, w') => e = bad_alloc ∧ w' = w ∧ n ≠ 0
  | (Undefined, _) => False
  end.
Proof.
  unfold RawMemory_sized, Allocate, bind, operator_new.
  destruct (Nat.eqb_spec n 0) as [->|Hn].
  - cbn. repeat split; try done.
  - destruct (raises w (EvAllocate (next_block w) n)); cbn.
    + done.
    + split; [done|]. split; [split; [done|lia]|]. split; [done|]. done.
Qed.

(** A buffer obtained by [RawMemory(capacity)] is released by the
    destructor: afterwards the identifier of the allocation names
    nothing, and every other allocation is as before the
    construction. *)
Theorem RawMemory_sized_dtor (n : nat) (w w1 : World T) (m : RawMemory) :
  RawMemory_sized n w = (Normal m, w1) →
  ∃ w2, RawMemory_dtor m w1 = (Normal tt, w2) ∧
        (∀ b, b ≠ next_block w → heap w2 !! b = heap w !! b) ∧
        (n ≠ 0 → heap w2 !! next_block w = None ∧
                 trace w2 = trace w ++ [EvAllocate (next_block w) n;
                                        EvDeallocate (next_block w)]) ∧
        (n = 0 → w2 = w).
Proof.
  intros Hrun. pose proof (RawMemory_sized_cases n w) as Ho. rewrite Hrun in Ho.
  destruct Ho as (Hcap & Hnull & Hzero & Hpos).
  destruct (decide (n = 0)) as [->|Hn].
  - rewrite (Hzero eq_refl). destruct m as [buf cap]. cbn in *.
    rewrite (proj2 Hnull eq_refl). exists w. by repeat split.
  - destruct (Hpos Hn) as (Hbuf & Hheap & Hnb & Htr).
    destruct m as [buf cap]. cbn in Hbuf. subst buf.
    eexists. split.
    { eapply RawMemory_dtor_spec. rewrite Hheap. apply lookup_insert_eq. }
    cbn [heap trace]. split.
    { intros b Hb. rewrite lookup_delete_ne by done. rewrite Hheap.
      by rewrite lookup_insert_ne. }
    split; [|done]. intros _. split; [apply lookup_delete_eq|].
    by rewrite Htr, <- app_assoc.
Qed.

(** The loop of [std::uninitialized_value_construct_n] from step [i]
    on. *)
Lemma uninitialized_value_loop_spec (b o : nat) :
  no_throw →
  ∀ (n i : nat) (w : World T) (blk : list (slot T)),
    heap w !! b = Some blk → o + i + n ≤ length blk →
    ∃ w' blk',
      uninitialized_loop (λ j, value_construct_at (ptr_add (Some (b, o)) j))
                         (Some (b, o)) i n w = (Normal tt, w') ∧
      heap w' !! b = Some blk' ∧ length blk' = length blk ∧
      (∀ j, i ≤ j < i + n → blk' !! (o + j) = Some (Live value_initialized)) ∧
      (∀ j, j < o + i ∨ o + i + n ≤ j → blk' !! j = blk !! j) ∧
      (∀ b', b' ≠ b → heap w' !! b' = heap w !! b') ∧
      next_block w' = next_block w.
Proof.
  intros Hn. induction n as [|n IH]; intros i w blk Hb Hlen.
  - exists w, blk. cbn. repeat split; try done. intros j ?; lia.
  - destruct (construct_in_spec (λ l, EvValueCtor (Slot l)) value_initialized
                b (o + i) w blk Hn Hb) as (w1 & Hrun & Hb1 & Hfr1 & Hnb1 & _); [lia|].
    destruct (IH (S i) w1 _ Hb1) as (w' & blk' & Hrun' & Hb' & Hlen' & Hin & Hout & Hfr' & Hnb').
    { rewrite length_insert. lia. }
    exists w', blk'. split.
    { cbn [uninitialized_loop].
      rewrite (bind_normal _ _ _ _ _ (on_unwind_normal _ _ _ _ _ Hrun)). exact Hrun'. }
    split; [done|]. split; [by rewrite Hlen', length_insert|].
    split.
    { intros j Hj. destruct (decide (j = i)) as [->|Hne].
      - rewrite Hout by lia. apply list_lookup_insert_eq. lia.
      - apply Hin. lia. }
    split.
    { intros j Hj. rewrite Hout by lia. apply list_lookup_insert_ne. lia. }
    split; [|congruence].
    intros b' Hne. rewrite Hfr' by done. by apply Hfr1.
Qed.

Lemma replicate_lookup_Some {A : Type} (n j : nat) (x y : A) :
  replicate n x !! j = Some y → y = x ∧ j < n.
Proof. by intros [-> ?]%lookup_replicate. Qed.

(** [Vector(size)], when nothing throws and the byte count of [size]
    elements does not wrap around, is a vector of [size]
    value-initialised elements in a buffer of exactly [size] slots (no
    buffer at all for size 0); allocations that existed are not
    touched. *)
Theorem Vector_sized_spec (n : nat) (w : World T) :
  no_throw → allocation_fits n →
  ∃ v w', Vector_sized n w = (Normal v, w') ∧
          Vector_repr w' v (replicate n value_initialized) ∧
          Vector_Size v = n ∧ Vector_Capacity v = n ∧
          (buffer_ (data_ v) = None ↔ n = 0) ∧
          ∀ b, keeps T b w w'.
Proof.
  intros Hn _. unfold Vector_sized.
  destruct (decide (n = 0)) as [->|Hpos].
  - exists (mkVector (mkRawMemory None 0) 0), w. split; [reflexivity|].
    split; [by repeat split|]. by repeat split.
  - rewrite (bind_normal _ _ _ _ _ (RawMemory_sized_spec n w Hn Hpos)).
    set (nb := next_block w).
    set (w1 := mkWorld _ _ _).
    assert (Hnb1 : heap w1 !! nb = Some (replicate n Raw)) by apply lookup_insert_eq.
    destruct (uninitialized_value_loop_spec nb 0 Hn n 0 w1 _ Hnb1)
      as (w' & blk' & Hrun & Hb' & Hlen' & Hin & Hout & Hfr & Hnx).
    { rewrite length_replicate. lia. }
    exists (mkVector (mkRawMemory (Some (nb, 0)) n) n), w'. split.
    { cbn [RawMemory_GetAddress buffer_].
      rewrite (bind_normal _ _ _ _ _ (on_unwind_normal _ _ _ _ _ Hrun)). reflexivity. }
    split.
    { split; [by rewrite length_replicate|]. cbn [data_ capacity_ buffer_].
      split; [by rewrite length_replicate|]. split; [done|].
      split; [rewrite Hnx; cbn; lia|]. rewrite Hb'. f_equal.
      apply slots_of_intro.
      - by rewrite Hlen', length_replicate.
      - by rewrite length_replicate.
      - intros j x [-> Hj]%replicate_lookup_Some. apply (Hin j). lia.
      - intros j Hj. rewrite length_replicate in Hj. lia. }
    split; [done|]. split; [done|]. split; [cbn; split; [done|intros; lia]|].
    intros b Hb. split; [rewrite Hnx; cbn; lia|].
    rewrite Hfr by (unfold nb; lia). cbn. apply lookup_insert_ne. unfold nb. lia.
Qed.

(** The loop of [std::uninitialized_copy_n] between two allocations,
    from step [i] on, when nothing throws: the source is left as it
    is. *)
Lemma uninitialized_copy_loop_spec (bd od bs os : nat) :
  no_throw → bs ≠ bd →
  ∀ (n i : nat) (w : World T) (dblk sblk : list (slot T)),
    heap w !! bd = Some dblk → heap w !! bs = Some sblk →
    od + i + n ≤ length dblk →
    (∀ j, i ≤ j < i + n → ∃ x, sblk !! (os + j) = Some (Live x)) →
    ∃ w' dblk',
      uninitialized_loop
        (λ j, copy_construct (ptr_add (Some (bd, od)) j) (ptr_add (Some (bs, os)) j))
        (Some (bd, od)) i n w = (Normal tt, w') ∧
      heap w' !! bd = Some dblk' ∧
      (∀ b, b ≠ bd → heap w' !! b = heap w !! b) ∧
      next_block w' = next_block w ∧
      length dblk' = length dblk ∧
      (∀ j, i ≤ j < i + n → dblk' !! (od + j) = sblk !! (os + j)) ∧
      (∀ o, o < od + i ∨ od + i + n ≤ o → dblk' !! o = dblk !! o).
Proof.
  intros Hn Hne. induction n as [|n IH]; intros i w dblk sblk Hd Hs Hlen Hsrc.
  - exists w, dblk. cbn. repeat split; try done. intros j ?; lia.
  - destruct (Hsrc i) as [x Hx]; [lia|].
    destruct (copy_construct_transfers Hn bd (od + i) bs (os + i) w dblk sblk x Hne Hd Hs)
      as (w1 & Hrun & Hd1 & Hs1 & Hfr1 & Hnb1); [lia|done|].
    rewrite list_insert_id in Hs1 by done.
    destruct (IH (S i) w1 _ _ Hd1 Hs1) as
      (w' & dblk' & Hrun' & Hd' & Hfr' & Hnb' & Hld & Hin & Hdo).
    { rewrite length_insert. lia. }
    { intros j Hj. apply Hsrc. lia. }
    exists w', dblk'. split.
    { cbn [uninitialized_loop].
      rewrite (bind_normal _ _ _ _ _ (on_unwind_normal _ _ _ _ _ Hrun)). exact Hrun'. }
    split; [done|]. split.
    { intros b Hb. rewrite Hfr' by done.
      destruct (decide (b = bs)) as [->|Hbs]; [congruence|by apply Hfr1]. }
    split; [congruence|].
    split; [by rewrite Hld, length_insert|].
    split.
    { intros j Hj. destruct (decide (j = i)) as [->|Hji].
      - rewrite Hdo by lia. rewrite list_lookup_insert_eq by lia. done.
      - apply Hin. lia. }
    intros o Ho. rewrite Hdo by lia. apply list_lookup_insert_ne. lia.
Qed.

(** [Vector(const Vector&)] when nothing throws. *)
Lemma Vector_copy_ctor_spec (other : Vector) (xs : list T) (w : World T) :
  no_throw → Vector_repr w other xs →
  ∃ v w', Vector_copy_ctor other w = (Normal v, w') ∧
          Vector_repr w' v xs ∧
          Vector_repr w' other xs ∧
          data_ v = mkRawMemory (if decide (xs = []) then None else Some (next_block w, 0))
                                (length xs) ∧
          (∀ b, keeps T b w w') ∧
          next_block w ≤ next_block w'.
Proof.
  intros Hn Hrepr. pose proof Hrepr as (Hsize & Hle & Hbuf).
  unfold Vector_copy_ctor.
  destruct other as [[buf cap] n]. cbn [size_ data_ buffer_ capacity_] in *.
  destruct (decide (n = 0)) as [->|Hpos].
  - exists (mkVector (mkRawMemory None 0) 0), w. split; [reflexivity|].
    destruct xs; [|done]. split; [by repeat split|]. split; [done|].
    split; [done|]. split; [by intros b|done].
  - destruct buf as [[b o]|]; [|lia].
    destruct Hbuf as (-> & Hb & Hheap).
    rewrite (bind_normal _ _ _ _ _ (RawMemory_sized_spec n w Hn Hpos)).
    set (nb := next_block w) in *.
    set (w1 := mkWorld _ _ _).
    assert (Hne : b ≠ nb) by lia.
    assert (Hnb1 : heap w1 !! nb = Some (replicate n Raw)) by apply lookup_insert_eq.
    assert (Hb1 : heap w1 !! b = Some (slots_of xs cap)).
    { cbn. by rewrite lookup_insert_ne by lia. }
    destruct (uninitialized_copy_loop_spec nb 0 b 0 Hn Hne n 0 w1 _ _ Hnb1 Hb1)
      as (w' & dblk' & Hrun & Hd' & Hfr & Hnx & Hld & Hin & Hdo).
    { rewrite length_replicate. lia. }
    { intros j Hj. destruct (lookup_lt_is_Some_2 xs j) as [y Hy]; [lia|].
      exists y. by apply lookup_slots_of_live. }
    assert (Hkeep : ∀ b', keeps T b' w w').
    { intros b' Hb'. split; [rewrite Hnx; cbn; lia|].
      rewrite Hfr by (unfold nb; lia). cbn. apply lookup_insert_ne. unfold nb. lia. }
    exists (mkVector (mkRawMemory (Some (nb, 0)) n) n), w'. split.
    { cbn [RawMemory_GetAddress buffer_ data_].
      rewrite (bind_normal _ _ _ _ _ (on_unwind_normal _ _ _ _ _ Hrun)). reflexivity. }
    split.
    { split; [done|]. cbn [data_ capacity_ buffer_]. split; [lia|]. split; [done|].
      split; [rewrite Hnx; cbn; lia|]. rewrite Hd'. f_equal.
      apply slots_of_intro.
      - by rewrite Hld, length_replicate.
      - lia.
      - intros j x Hx. pose proof (lookup_lt_Some _ _ _ Hx) as Hj.
        rewrite (Hin j ltac:(lia) : dblk' !! j = _). by apply lookup_slots_of_live.
      - intros j Hj. lia. }
    split; [by eapply Vector_repr_keeps|].
    split.
    { cbn [data_]. destruct (decide (xs = [])) as [->|_]; [cbn in *; lia|].
      by rewrite <- Hsize. }
    split; [exact Hkeep|]. rewrite Hnx. cbn. lia.
Qed.

(** [Vector(const Vector&)], when nothing throws: the copy holds the
    same sequence in a buffer of its own whose capacity is the size of
    the source, and the source and every other allocation are as they
    were. *)
Theorem Vector_copy_ctor_copies (other : Vector) (xs : list T) (w : World T) :
  no_throw → Vector_repr w other xs →
  ∃ v w', Vector_copy_ctor other w = (Normal v, w') ∧
          Vector_repr w' v xs ∧
          Vector_repr w' other xs ∧
          Vector_Capacity v = length xs ∧
          disjoint_buffers v other ∧
          ∀ b, keeps T b w w'.
Proof.
  intros Hn Hrepr.
  destruct (Vector_copy_ctor_spec other xs w Hn Hrepr)
    as (v & w' & Hrun & Hv & Ho & Hdata & Hkeep & _).
  exists v, w'. split; [done|]. split; [done|]. split; [done|].
  split; [unfold Vector_Capacity; by rewrite Hdata|]. split; [|done].
  unfold disjoint_buffers. rewrite Hdata. cbn [buffer_].
  destruct (decide (xs = [])); [done|].
  destruct Hrepr as (_ & _ & Hbuf). destruct (buffer_ (data_ other)) as [[b o]|]; [|done].
  destruct Hbuf as (_ & Hb & _). lia.
Qed.

End Construction.

(** ** Constructors that fail *)

Section ConstructionFailure.
Context {T : Type} `{ElementType T} `{Faults T}.

(** [std::destroy_n] records one destructor call per slot, in order. *)
Lemma destroy_n_trace (b : block) (n : nat) :
  ∀ (o : nat) (w w' : World T),
    destroy_n (Some (b, o)) n w = (Normal tt, w') →
    trace w' = trace w ++ ((λ j, EvDtor (Slot (b, j))) <$> seq o n).
Proof.
  induction n as [|n IH]; intros o w w'; cbn [destroy_n].
  - intros [= <-]. cbn. by rewrite app_nil_r.
  - unfold bind.
    destruct (destroy_at (Some (b, o)) w) as [[[]| |] w1] eqn:Hd; [|done..].
    cbn [ptr_add]. intros Hrest%IH.
    assert (Htr1 : trace w1 = trace w ++ [EvDtor (Slot (b, o))]).
    { unfold destroy_at in Hd. repeat case_match; try done; by injection Hd as <-. }
    rewrite Hrest, Htr1. cbn. rewrite <- app_assoc.
    by replace (o + 1) with (S o) by lia.
Qed.

(** The loop of a [std::uninitialized_*_n] algorithm that fills the
    allocation [b], entered at step [i] with the elements before [i]
    built: it returns with the elements [i .. i + n) built as well, or
    it throws after destroying every element built so far; it has no
    other outcome. *)
Lemma uninitialized_loop_outcome (b : block) (w0 : World T) (step : nat → M T unit)
    (xs : list T) (ev : nat → T → event T) (tr0 : list (event T)) :
  builds b w0 step xs ev →
  ∀ (n i : nat) (w : World T) (blk : list (slot T)),
    heap w !! b = Some blk → i + n ≤ length xs → length xs ≤ length blk →
    (∀ b', b' ≠ b → heap w !! b' = heap w0 !! b') →
    trace w = tr0 ++ imap ev (take i xs) →
    (∀ j, j < i → ∃ y, blk !! j = Some (Live y)) →
    match uninitialized_loop step (Some (b, 0)) i n w with
    | (Normal _, w') =>
        ∃ blk', heap w' !! b = Some blk' ∧ length blk' = length blk ∧
                (∀ j x, i ≤ j < i + n → xs !! j = Some x → blk' !! j = Some (Live x)) ∧
                (∀ j, j < i ∨ i + n ≤ j → blk' !! j = blk !! j) ∧
                (∀ b', b' ≠ b → heap w' !! b' = heap w0 !! b') ∧
                next_block w' = next_block w ∧
                trace w' = tr0 ++ imap ev (take (i + n) xs)
    | (Thrown e, w') =>
        e = element_exn ∧
        ∃ j, i ≤ j < i + n ∧ is_Some (heap w' !! b) ∧
             (∀ b', b' ≠ b → heap w' !! b' = heap w0 !! b') ∧
             next_block w' = next_block w ∧
             trace w' = tr0 ++ imap ev (take j xs) ++ dtor_events b j
    | (Undefined, _) => False
    end.
Proof.
  intros Hstep. induction n as [|n IH]; intros i w blk Hb Hin Hlen Hfr Htr Hbuilt.
  - cbn. exists blk. rewrite Nat.add_0_r. repeat split; try done. intros j x ?; lia.
  - destruct (lookup_lt_is_Some_2 xs i) as [x Hx]; [lia|].
    cbn [uninitialized_loop]. unfold bind, on_unwind.
    pose proof (Hstep i x w blk Hx Hb ltac:(lia) Hfr) as Hs.
    destruct (step i w) as [[[]|e|] w1]; [| |done].
    + destruct Hs as (Hb1 & Hfr1 & Hnb1 & Htr1).
      specialize (IH (S i) w1 (<[i := Live x]> blk) Hb1).
      rewrite length_insert in IH.
      assert (Htr1' : trace w1 = tr0 ++ imap ev (take (S i) xs)).
      { rewrite Htr1, Htr, (take_S_r _ _ _ Hx), imap_app, <- app_assoc. cbn.
        rewrite length_take. by replace (i `min` length xs + 0) with i by lia. }
      specialize (IH ltac:(lia) Hlen).
      specialize (IH ltac:(intros b' Hb'; rewrite Hfr1 by done; by apply Hfr) Htr1').
      assert (Hbuilt1 : ∀ j, j < S i → ∃ y, <[i := Live x]> blk !! j = Some (Live y)).
      { intros j Hj. destruct (decide (j = i)) as [->|Hne].
        - exists x. apply list_lookup_insert_eq. lia.
        - rewrite list_lookup_insert_ne by lia. apply Hbuilt. lia. }
      specialize (IH Hbuilt1).
      destruct (uninitialized_loop step (Some (b, 0)) (S i) n w1) as [[[]|e|] w'];
        [| |done].
      * destruct IH as (blk' & Hb' & Hl' & Hlive & Hsame & Hfr' & Hnb' & Htr').
        exists blk'. split; [done|]. split; [done|]. split.
        { intros j y Hj Hy. destruct (decide (j = i)) as [->|Hne].
          - rewrite Hsame by lia. rewrite list_lookup_insert_eq by lia. congruence.
          - apply Hlive; [lia|done]. }
        split.
        { intros j Hj. rewrite Hsame by lia. apply list_lookup_insert_ne. lia. }
        split; [done|]. split; [congruence|].
        by replace (i + S n) with (S i + n) by lia.
      * destruct IH as (-> & j & Hj & Hb' & Hfr' & Hnb' & Htr').
        split; [done|]. exists j. split; [lia|]. split; [done|]. split; [done|].
        split; [congruence|done].
    + destruct Hs as (-> & ->).
      destruct (destroy_n_spec i b 0 w blk Hb ltac:(lia)
                  ltac:(intros j Hj; apply Hbuilt; lia))
        as (w2 & blk2 & Hrun & Hb2 & _ & _ & _ & Hfr2 & Hnb2).
      rewrite Hrun. split; [done|]. exists i. split; [lia|].
      split; [by eexists|]. split.
      { intros b' Hb'. rewrite Hfr2 by done. by apply Hfr. }
      split; [done|].
      rewrite (destroy_n_trace _ _ _ _ _ Hrun), Htr, <- app_assoc. done.
Qed.

(** The step of [std::uninitialized_value_construct_n]. *)
Lemma value_construct_builds (b : block) (w0 : World T) (n : nat) :
  builds b w0 (λ j, value_construct_at (ptr_add (Some (b, 0)) j))
         (replicate n value_initialized) (λ j _, EvValueCtor (Slot (b, j))).
Proof.
  intros j x w blk [-> _]%lookup_replicate Hb Hj _.
  unfold value_construct_at, construct_in. cbn [ptr_add Nat.add].
  rewrite (slot_at_block _ _ _ _ Hb).
  destruct (lookup_lt_is_Some_2 blk j Hj) as [s ->].
  destruct (raises w _); [done|].
  split; [cbn; by rewrite lookup_alter_eq, Hb|].
  split; [|done]. intros b' Hb'. cbn. by apply lookup_alter_ne.
Qed.

(** The step of [std::uninitialized_copy_n] from the allocation [bs],
    which holds [xs], into another allocation. *)
Lemma copy_construct_builds (b bs : block) (w0 : World T) (xs : list T) (cap : nat) :
  bs ≠ b → heap w0 !! bs = Some (slots_of xs cap) →
  builds b w0 (λ j, copy_construct (ptr_add (Some (b, 0)) j) (ptr_add (Some (bs, 0)) j))
         xs (λ j x, EvCopyCtor (Slot (b, j)) x).
Proof.
  intros Hne Hs j x w blk Hx Hb Hj Hfr.
  unfold copy_construct. cbn [ptr_add Nat.add].
  erewrite bind_normal; cycle 1.
  { eapply read_live; [by rewrite Hfr|]. by apply lookup_slots_of_live. }
  unfold copy_construct_at, construct_in.
  rewrite (slot_at_block _ _ _ _ Hb).
  destruct (lookup_lt_is_Some_2 blk j Hj) as [s ->].
  destruct (raises w _); [done|].
  split; [cbn; by rewrite lookup_alter_eq, Hb|].
  split; [|done]. intros b' Hb'. cbn. by apply lookup_alter_ne.
Qed.

(** A constructor body that runs a construction loop on the fresh
    buffer [data] and releases the buffer when the loop throws. *)
Lemma constructor_outcome (n : nat) (w : World T) (step : ptr → nat → M T unit)
    (xs : list T) (ev : nat → T → event T) :
  length xs = n →
  (∀ w1, heap w1 = <[next_block w := replicate n Raw]> (heap w) →
         builds (next_block w) w1 (step (Some (next_block w, 0))) xs ev) →
  match (data <- RawMemory_sized n ;;
         on_unwind (uninitialized_loop (step (RawMemory_GetAddress data))
                                       (RawMemory_GetAddress data) 0 n)
                   (RawMemory_dtor data) ;;;
         ret (mkVector data n)) w with
  | (Normal v, w') =>
      Vector_repr w' v xs ∧ Vector_Capacity v = n ∧ (∀ b, keeps T b w w') ∧
      (n = 0 → buffer_ (data_ v) = None) ∧
      (n ≠ 0 →
       buffer_ (data_ v) = Some (next_block w, 0) ∧
       trace w' = trace w ++ [EvAllocate (next_block w) n] ++ imap ev xs)
  | (Thrown e, w') =>
      n ≠ 0 ∧ (∀ b, keeps T b w w') ∧
      (e = bad_alloc ∧ w' = w ∨
       e = element_exn ∧ heap w' !! next_block w = None ∧
       ∃ j, j < n ∧
            trace w' = trace w ++ [EvAllocate (next_block w) n] ++ imap ev (take j xs) ++
                       dtor_events (next_block w) j ++ [EvDeallocate (next_block w)])
  | (Undefined, _) => False
  end.
Proof.
  intros Hlen Hstep. unfold bind at 1.
  pose proof (RawMemory_sized_cases n w) as Ho.
  destruct (RawMemory_sized n w) as [[data|e|] w1]; [| |done].
  - destruct Ho as (Hcap & Hnull & Hzero & Hpos).
    destruct (decide (n = 0)) as [->|Hn].
    + rewrite (Hzero eq_refl). destruct data as [buf cap]. cbn in Hcap, Hnull.
      rewrite (proj2 Hnull eq_refl). subst cap. cbn.
      destruct xs; [|done]. by repeat split.
    + destruct (Hpos Hn) as (Hbuf & Hheap & Hnb & Htr).
      destruct data as [buf cap]. cbn in Hcap, Hbuf. subst buf cap.
      set (nb := next_block w) in *.
      cbn [RawMemory_GetAddress buffer_].
      assert (Hb1 : heap w1 !! nb = Some (replicate n Raw)).
      { rewrite Hheap. apply lookup_insert_eq. }
      pose proof (uninitialized_loop_outcome nb w1 (step (Some (nb, 0))) xs ev (trace w1)
                    (Hstep w1 Hheap) n 0 w1 _ Hb1 ltac:(lia)) as Hloop.
      rewrite length_replicate in Hloop.
      specialize (Hloop ltac:(lia) ltac:(done)).
      cbn [take imap] in Hloop. rewrite app_nil_r in Hloop. specialize (Hloop eq_refl).
      specialize (Hloop ltac:(intros j Hj; lia)).
      unfold bind, on_unwind.
      destruct (uninitialized_loop (step (Some (nb, 0))) (Some (nb, 0)) 0 n w1)
        as [[[]|e|] w2]; [| |done].
      * destruct Hloop as (blk' & Hb' & Hl' & Hlive & _ & Hfr & Hnx & Htr').
        cbn [ret]. split.
        { split; [done|]. cbn [data_ capacity_ buffer_]. split; [lia|].
          split; [done|]. split; [rewrite Hnx, Hnb; lia|]. rewrite Hb'. f_equal.
          apply slots_of_intro; [done|lia| |intros j ?; lia].
          intros j x Hx. apply Hlive; [|done]. apply lookup_lt_Some in Hx. lia. }
        split; [done|]. split.
        { intros b Hb. split; [rewrite Hnx, Hnb; lia|].
          rewrite Hfr by (unfold nb; lia). rewrite Hheap.
          apply lookup_insert_ne. unfold nb. lia. }
        split; [done|]. intros _. split; [done|].
        rewrite Htr', Htr, <- app_assoc. cbn [Nat.add].
        by rewrite firstn_all2 by lia.
      * destruct Hloop as (-> & j & Hj & [blk2 Hb2] & Hfr & Hnx & Htr').
        rewrite (RawMemory_dtor_spec nb n w2 blk2 Hb2).
        split; [done|]. split.
        { intros b Hb. split; [cbn; rewrite Hnx, Hnb; lia|]. cbn [heap].
          rewrite lookup_delete_ne by (unfold nb; lia).
          rewrite Hfr by (unfold nb; lia). rewrite Hheap.
          apply lookup_insert_ne. unfold nb. lia. }
        right. split; [done|]. split; [apply lookup_delete_eq|].
        exists j. split; [lia|]. cbn [trace].
        rewrite Htr', Htr. by rewrite <- !app_assoc.
  - destruct Ho as (-> & -> & Hn). split; [done|]. split; [by intros b|]. by left.
Qed.

(** [Vector(size)] under any failure of the allocation or of a
    constructor of [T], for a [size] whose byte count does not wrap
    around. It returns a vector of [size] value-initialised elements, or
    it throws; it has no undefined behaviour. When the constructor of an
    element throws, the elements built before it are destroyed in the
    order they were built, the buffer is released, and the allocations
    that existed are as they were. *)
Theorem Vector_sized_outcome (n : nat) (w : World T) :
  allocation_fits n →
  match Vector_sized n w with
  | (Normal v, w') =>
      Vector_repr w' v (replicate n value_initialized) ∧ Vector_Capacity v = n ∧
      ∀ b, keeps T b w w'
  | (Thrown e, w') =>
      n ≠ 0 ∧ (∀ b, keeps T b w w') ∧
      (e = bad_alloc ∧ w' = w ∨
       e = element_exn ∧ heap w' !! next_block w = None ∧
       ∃ j, j < n ∧
            trace w' = trace w ++ [EvAllocate (next_block w) n] ++
                       ((λ k, EvValueCtor (Slot (next_block w, k))) <$> seq 0 j) ++
                       dtor_events (next_block w) j ++ [EvDeallocate (next_block w)])
  | (Undefined, _) => False
  end.
Proof.
  intros _.
  pose proof (constructor_outcome n w
                (λ d j, value_construct_at (ptr_add d j))
                (replicate n value_initialized)
                (λ j _, EvValueCtor (Slot (next_block w, j)))
                (length_replicate _ _)
                (λ w1 _, value_construct_builds (next_block w) w1 n)) as Ho.
  change (Vector_sized n w) with
    ((data <- RawMemory_sized n ;;
      on_unwind (uninitialized_loop (λ j, value_construct_at (ptr_add (RawMemory_GetAddress data) j))
                                    (RawMemory_GetAddress data) 0 n)
                (RawMemory_dtor data) ;;;
      ret (mkVector data n)) w).
  destruct (bind _ _ w) as [[v|e|] w']; [| |done].
  - destruct Ho as (Hr & Hc & Hk & _ & _). done.
  - destruct Ho as (Hn & Hk & [Hba|(-> & Hnone & j & Hj & Htr)]).
    { split; [done|]. split; [done|]. by left. }
    split; [done|]. split; [done|]. right. split; [done|]. split; [done|].
    exists j. split; [done|]. rewrite Htr. do 2 f_equal.
    rewrite (imap_seq_0 _ (λ k, EvValueCtor (Slot (next_block w, k)))).
    rewrite length_take, length_replicate. by replace (j `min` n) with j by lia.
Qed.

(** The outcomes of [Vector(const Vector&)]. *)
Lemma Vector_copy_ctor_cases (other : Vector) (xs : list T) (w : World T) :
  Vector_repr w other xs →
  match Vector_copy_ctor other w with
  | (Normal v, w') =>
      Vector_repr w' v xs ∧ Vector_repr w' other xs ∧
      Vector_Capacity v = length xs ∧ disjoint_buffers v other ∧
      ∀ b, keeps T b w w'
  | (Thrown e, w') =>
      xs ≠ [] ∧ Vector_repr w' other xs ∧ (∀ b, keeps T b w w') ∧
      (e = bad_alloc ∧ w' = w ∨
       e = element_exn ∧ heap w' !! next_block w = None ∧
       ∃ j, j < length xs ∧
            trace w' = trace w ++ [EvAllocate (next_block w) (length xs)] ++
                       imap (λ k x, EvCopyCtor (Slot (next_block w, k)) x) (take j xs) ++
                       dtor_events (next_block w) j ++ [EvDeallocate (next_block w)])
  | (Undefined, _) => False
  end.
Proof.
  intros Hrepr. pose proof Hrepr as (Hsize & Hle & Hbuf).
  destruct other as [[buf cap] n]. cbn [size_ data_ buffer_ capacity_] in *.
  subst n.
  destruct buf as [[bs o]|].
  - destruct Hbuf as (-> & Hbs & Hheap).
    assert (Hne : bs ≠ next_block w) by lia.
    pose proof (constructor_outcome (length xs) w
                  (λ d j, copy_construct (ptr_add d j) (ptr_add (Some (bs, 0)) j))
                  xs (λ j x, EvCopyCtor (Slot (next_block w, j)) x) eq_refl) as Ho.
    cbv beta in Ho.
    assert (Hb : ∀ w1, heap w1 = <[next_block w := replicate (length xs) Raw]> (heap w) →
                builds (next_block w) w1
                  (λ j, copy_construct (ptr_add (Some (next_block w, 0)) j)
                                       (ptr_add (Some (bs, 0)) j))
                  xs (λ j x, EvCopyCtor (Slot (next_block w, j)) x)).
    { intros w1 Hw1. apply (copy_construct_builds _ bs w1 xs cap Hne).
      rewrite Hw1. by rewrite lookup_insert_ne by lia. }
    specialize (Ho Hb).
    change (Vector_copy_ctor _ w) with
      ((data <- RawMemory_sized (length xs) ;;
        on_unwind (uninitialized_loop
                     (λ j, copy_construct (ptr_add (RawMemory_GetAddress data) j)
                                          (ptr_add (Some (bs, 0)) j))
                     (RawMemory_GetAddress data) 0 (length xs))
                  (RawMemory_dtor data) ;;;
        ret (mkVector data (length xs))) w).
    destruct (bind _ _ w) as [[v|e|] w']; [| |done].
    + destruct Ho as (Hr & Hc & Hk & Hzero & Hpos).
      split; [done|]. split; [by eapply Vector_repr_keeps|]. split; [done|].
      split; [|done].
      unfold disjoint_buffers. cbn [data_ buffer_].
      destruct (decide (length xs = 0)) as [Hz|Hn].
      { by rewrite (Hzero Hz). }
      destruct (Hpos Hn) as [-> _]. lia.
    + destruct Ho as (Hn & Hk & Hcase).
      split; [by destruct xs|]. split; [by eapply Vector_repr_keeps|]. done.
  - destruct xs; [|cbn in *; lia]. cbn. by repeat split.
Qed.

(** [Vector(const Vector&)] under any failure of the allocation or of
    the copy constructor of [T]. It returns a copy and leaves the source
    as it is, or it throws; it never has undefined behaviour. When the
    copy of an element throws, the copies made before it are destroyed
    in the order they were made, the buffer is released, and the source
    and every other allocation are as they were. *)
Theorem Vector_copy_ctor_outcome (other : Vector) (xs : list T) (w : World T) :
  Vector_repr w other xs →
  match Vector_copy_ctor other w with
  | (Normal v, w') =>
      Vector_repr w' v xs ∧ Vector_repr w' other xs ∧
      Vector_Capacity v = length xs ∧ disjoint_buffers v other ∧
      ∀ b, keeps T b w w'
  | (Thrown e, w') =>
      xs ≠ [] ∧ Vector_repr w' other xs ∧ (∀ b, keeps T b w w') ∧
      (e = bad_alloc ∧ w' = w ∨
       e = element_exn ∧ heap w' !! next_block w = None ∧
       ∃ j, j < length xs ∧
            trace w' = trace w ++ [EvAllocate (next_block w) (length xs)] ++
                       imap (λ k x, EvCopyCtor (Slot (next_block w, k)) x) (take j xs) ++
                       dtor_events (next_block w) j ++ [EvDeallocate (next_block w)])
  | (Undefined, _) => False
  end.
Proof. apply Vector_copy_ctor_cases. Qed.

End ConstructionFailure.

(** ** The destructor, [Reserve], [Resize] and [PopBack] *)

Section Capacity.
Context {T : Type} `{ElementType T} `{Faults T}.

(** A destructor call that returns has recorded itself and left the
    slot without an object. *)
Lemma destroy_at_normal (p : ptr) (w w1 : World T) :
  destroy_at p w = (Normal tt, w1) →
  ∃ l, p = Some l ∧ w1 = log (EvDtor (Slot l)) (store l Raw w).
Proof.
  unfold destroy_at. destruct p as [l|]; [|done].
  repeat case_match; try done; intros [= <-]; by exists l.
Qed.

(** [DestroyN(buf, n)] when it returns: [n] destructor calls on the slot
    [buf] points to, and nothing else. *)
Lemma Vector_DestroyN_normal (b o : nat) (n : nat) :
  ∀ (w w1 : World T),
    Vector_DestroyN (Some (b, o)) n w = (Normal tt, w1) →
    trace w1 = trace w ++ replicate n (EvDtor (Slot (b, o))) ∧
    next_block w1 = next_block w ∧
    (∀ b', b' ≠ b → heap w1 !! b' = heap w !! b') ∧
    (is_Some (heap w !! b) → is_Some (heap w1 !! b)).
Proof.
  induction n as [|n IH]; intros w w1; cbn [Vector_DestroyN].
  - intros [= <-]. cbn. by rewrite app_nil_r.
  - unfold bind, Vector_Destroy.
    destruct (destroy_at (Some (b, o)) w) as [[[]| |] w0] eqn:Hd; [|done..].
    apply destroy_at_normal in Hd as (l & [= <-] & ->).
    intros (Htr & Hnx & Hfr & Hsome)%IH. split.
    { rewrite Htr. cbn. by rewrite <- app_assoc. }
    split; [done|]. split.
    { intros b' Hb'. rewrite Hfr by done. cbn. by apply lookup_alter_ne. }
    intros [blk Hblk]. apply Hsome. cbn. rewrite lookup_alter_eq, Hblk. by eexists.
Qed.

(** [DestroyN(buf, n)] on the first slot of a buffer whose first [n]
    slots hold objects returns when the destructor of [T] is trivial or
    [n] is at most 1. Otherwise its second call finds no object. *)
Lemma Vector_DestroyN_defined (b n : nat) (w : World T) (blk : list (slot T)) :
  heap w !! b = Some blk →
  (∀ j, j < n → ∃ x, blk !! j = Some (Live x)) →
  if is_trivially_destructible || (n <=? 1)
  then ∃ w1, Vector_DestroyN (Some (b, 0)) n w = (Normal tt, w1)
  else (Vector_DestroyN (Some (b, 0)) n w).1 = Undefined.
Proof.
  intros Hb Hlive.
  destruct n as [|n]; [rewrite orb_true_r; by exists w|].
  destruct (Hlive 0) as [x Hx]; [lia|].
  destruct (destroy_at_spec b 0 w blk x Hb Hx) as (w1 & Hrun1 & Hb1 & _).
  destruct is_trivially_destructible eqn:Htriv; cbn [orb].
  - destruct (Vector_DestroyN_trace b (S n) w Htriv) as (w' & Hrun & _).
    { rewrite (slot_at_block _ _ _ _ Hb), Hx. by eexists. }
    by exists w'.
  - destruct n as [|n]; cbn [Nat.leb].
    + exists w1. cbn [Vector_DestroyN]. unfold Vector_Destroy.
      by rewrite (bind_normal _ _ _ _ _ Hrun1).
    + cbn [Vector_DestroyN]. unfold Vector_Destroy at 1.
      rewrite (bind_normal _ _ _ _ _ Hrun1).
      unfold bind, Vector_Destroy, destroy_at.
      rewrite (slot_at_block _ _ _ _ Hb1).
      rewrite list_lookup_insert_eq by (by eapply lookup_lt_Some).
      by rewrite Htriv.
Qed.

(** [~Vector()] never leaves by an exception. *)
Lemma raises_Vector_dtor (v : Vector) : raises_only never (@Vector_dtor T _ v).
Proof.
  unfold Vector_dtor. apply raises_only_bind; [|intros _; apply raises_RawMemory_dtor].
  generalize (RawMemory_GetAddress (data_ v)) as p.
  induction (size_ v) as [|n IH]; intros p; cbn [Vector_DestroyN].
  - apply raises_only_ret.
  - apply raises_only_bind; [apply raises_destroy_at|]. intros _. apply IH.
Qed.

(** [~Vector()] on a well-formed vector whose elements it can destroy. *)
Lemma Vector_dtor_spec (w : World T) (v : Vector) (xs : list T) :
  Vector_repr w v xs →
  is_trivially_destructible || (length xs <=? 1) = true →
  ∃ w', Vector_dtor v w = (Normal tt, w') ∧
        next_block w' = next_block w ∧
        (∀ b, off_block b (buffer_ (data_ v)) → heap w' !! b = heap w !! b) ∧
        match buffer_ (data_ v) with
        | Some (b, _) =>
            heap w' !! b = None ∧
            trace w' = trace w ++ replicate (size_ v) (EvDtor (Slot (b, 0))) ++
                       [EvDeallocate b]
        | None => w' = w
        end.
Proof.
  intros (Hsize & Hle & Hbuf) Hok.
  destruct v as [[buf cap] n]. cbn [size_ data_ buffer_ capacity_] in *.
  destruct buf as [[b o]|].
  - destruct Hbuf as (-> & Hb & Hheap).
    pose proof (Vector_DestroyN_defined b n w _ Hheap) as Hdef.
    rewrite Hsize, Hok in Hdef. destruct Hdef as [w1 Hrun].
    { intros j Hj. destruct (lookup_lt_is_Some_2 xs j Hj) as [x Hx].
      exists x. by apply lookup_slots_of_live. }
    rewrite <- Hsize in Hrun.
    destruct (Vector_DestroyN_normal b 0 n w w1 Hrun) as (Htr & Hnx & Hfr & Hsome).
    destruct (Hsome ltac:(by eexists)) as [blk1 Hb1].
    eexists. split.
    { unfold Vector_dtor. cbn [data_ size_ RawMemory_GetAddress buffer_].
      rewrite (bind_normal _ _ _ _ _ Hrun). apply (RawMemory_dtor_spec b cap w1 blk1 Hb1). }
    cbn [next_block heap trace]. split; [done|]. split.
    { intros b' Hoff. assert (b' ≠ b) by (intros ->; by apply (Hoff 0)).
      rewrite lookup_delete_ne by done. by apply Hfr. }
    split; [apply lookup_delete_eq|]. by rewrite Htr, <- app_assoc.
  - assert (n = 0) as -> by lia. exists w. by repeat split.
Qed.

(** [~Vector()] on a well-formed vector of two or more elements whose
    destructor is not trivial. *)
Lemma Vector_dtor_undefined (w : World T) (v : Vector) (xs : list T) :
  Vector_repr w v xs →
  is_trivially_destructible || (length xs <=? 1) = false →
  (Vector_dtor v w).1 = Undefined.
Proof.
  intros (Hsize & Hle & Hbuf) Hbad.
  destruct v as [[buf cap] n]. cbn [size_ data_ buffer_ capacity_] in *.
  destruct buf as [[b o]|].
  - destruct Hbuf as (-> & Hb & Hheap).
    pose proof (Vector_DestroyN_defined b n w _ Hheap) as Hdef.
    rewrite Hsize, Hbad in Hdef. rewrite <- Hsize in Hdef.
    unfold Vector_dtor, bind. cbn [data_ size_ RawMemory_GetAddress buffer_].
    destruct (Vector_DestroyN (Some (b, 0)) n w) as [[[]| |] w1]; [| |done].
    + exfalso. cbn in Hdef. discriminate Hdef.
      intros j Hj. destruct (lookup_lt_is_Some_2 xs j) as [x Hx]; [lia|].
      exists x. by apply lookup_slots_of_live.
    + exfalso. cbn in Hdef. discriminate Hdef.
      intros j Hj. destruct (lookup_lt_is_Some_2 xs j) as [x Hx]; [lia|].
      exists x. by apply lookup_slots_of_live.
  - assert (length xs = 0) as Hz by lia. rewrite Hz, orb_true_r in Hbad. done.
Qed.

(** [~Vector()] on a well-formed vector, whatever the operations of [T]
    throw. Its [size] destructor calls are all made on the first slot.
    When the destructor of [T] is trivial, or the vector holds at most
    one element, the call returns, the buffer is released and no other
    allocation is touched. Otherwise the second destructor call is made
    on a slot whose object is destroyed already: the behaviour is
    undefined. *)
Theorem Vector_dtor_releases (w : World T) (v : Vector) (xs : list T) :
  Vector_repr w v xs →
  if is_trivially_destructible || (length xs <=? 1)
  then ∃ w', Vector_dtor v w = (Normal tt, w') ∧
             next_block w' = next_block w ∧
             (∀ b, off_block b (buffer_ (data_ v)) → heap w' !! b = heap w !! b) ∧
             match buffer_ (data_ v) with
             | Some (b, _) =>
                 heap w' !! b = None ∧
                 trace w' = trace w ++ replicate (size_ v) (EvDtor (Slot (b, 0))) ++
                            [EvDeallocate b]
             | None => w' = w
             end
  else (Vector_dtor v w).1 = Undefined.
Proof.
  intros Hrepr.
  destruct (is_trivially_destructible || (length xs <=? 1)) eqn:Hok.
  - by apply (Vector_dtor_spec w v xs).
  - by apply (Vector_dtor_undefined w v xs).
Qed.

(** [RawMemory(capacity)] when no allocation fails. *)
Lemma RawMemory_sized_no_throw (n : nat) (w : World T) :
  no_throw →
  ∃ data w1, RawMemory_sized n w = (Normal data, w1) ∧
    (n = 0 → data = mkRawMemory None 0 ∧ w1 = w) ∧
    (n ≠ 0 → data = mkRawMemory (Some (next_block w, 0)) n ∧
             heap w1 = <[next_block w := replicate n Raw]> (heap w) ∧
             next_block w1 = S (next_block w)).
Proof.
  intros Hn. destruct (decide (n = 0)) as [->|Hpos].
  - exists (mkRawMemory None 0), w. by repeat split.
  - eexists _, _. split; [by apply RawMemory_sized_spec|]. by repeat split.
Qed.

(** [Reserve(new_capacity)] when nothing throws. *)
Lemma Vector_Reserve_spec (n : nat) (w : World T) (v : Vector) (xs : list T) :
  no_throw → Vector_repr w v xs →
  ∃ v' w',
    Vector_Reserve n (v, w) = (Normal tt, (v', w')) ∧
    Vector_repr w' v' xs ∧
    Vector_Capacity v' = Vector_Capacity v `max` n ∧
    (n < Vector_Capacity v → v' = v ∧ w' = w) ∧
    (Vector_Capacity v ≤ n →
     (∀ b o, buffer_ (data_ v) = Some (b, o) → heap w' !! b = None) ∧
     (0 < n → buffer_ (data_ v') = Some (next_block w, 0))) ∧
    (∀ b, off_block b (buffer_ (data_ v)) → keeps T b w w').
Proof.
  intros Hn Hrepr. unfold Vector_Capacity, RawMemory_Capacity.
  destruct (decide (n < capacity_ (data_ v))) as [Hlt|Hge].
  { exists v, w. split; [by apply Vector_Reserve_below_capacity|]. split; [done|].
    split; [lia|]. split; [done|]. split; [lia|]. by intros b _. }
  pose proof Hrepr as (Hsize & Hle & Hbuf).
  destruct v as [[buf cap] k]. cbn [size_ data_ buffer_ capacity_] in *.
  unfold Vector_Reserve.
  rewrite (bind_normal this _ _ _ _ eq_refl).
  cbn [fst data_ size_ RawMemory_GetAddress RawMemory_Capacity buffer_ capacity_].
  destruct (Nat.ltb_spec n cap) as [|_]; [lia|].
  destruct (RawMemory_sized_no_throw n w Hn) as (new_data & w1 & Halloc & Hzero & Hpos).
  rewrite (bind_normal _ _ _ _ _ (lift_eq _ _ _ _ _ Halloc)).
  destruct (decide (n = 0)) as [->|Hn0].
  - destruct (Hzero eq_refl) as [-> ->]. assert (cap = 0) as -> by lia.
    assert (k = 0) as -> by lia. destruct xs; [|done].
    erewrite bind_normal; cycle 1.
    { apply on_unwind_normal, lift_eq, Vector_Uninitialized_0. }
    destruct buf as [[b o]|].
    + destruct Hbuf as (-> & Hb & Hheap).
      destruct (Vector_DestroyAndSwap_spec (mkRawMemory None 0) b 0 0 w _ Hheap)
        as (w5 & Hrun5 & Hnx5 & [blk5 Hb5] & Hfr5); [lia|intros j Hj; lia|].
      eexists _, _. split.
      { rewrite (bind_normal _ _ _ _ _ Hrun5).
        apply lift_eq, (RawMemory_dtor_spec b 0 w5 _ Hb5). }
      split; [by repeat split|]. split; [done|]. split; [lia|]. split.
      { split; [|lia]. intros b' o' [= <- <-]. apply lookup_delete_eq. }
      intros b' Hoff Hb'. assert (b' ≠ b) by (intros ->; by apply (Hoff 0)).
      cbn. split; [lia|]. rewrite lookup_delete_ne by done. by apply Hfr5.
    + eexists _, _. split.
      { rewrite (bind_normal _ _ _ _ _ (Vector_DestroyAndSwap_null _ 0 w)).
        apply lift_eq, RawMemory_dtor_null. }
      split; [by repeat split|]. split; [done|]. split; [lia|]. split; [|by intros b _].
      split; [done|lia].
  - destruct (Hpos Hn0) as (-> & Hheap1 & Hnx1).
    set (nb := next_block w) in *.
    assert (Hnb1 : heap w1 !! nb = Some (replicate n Raw)).
    { rewrite Hheap1. apply lookup_insert_eq. }
    destruct buf as [[b o]|].
    + destruct Hbuf as (-> & Hb & Hheap). fold nb in Hb.
      assert (Hne : b ≠ nb) by lia.
      assert (Hb1 : heap w1 !! b = Some (slots_of xs cap)).
      { rewrite Hheap1. by rewrite lookup_insert_ne by lia. }
      destruct (Vector_Uninitialized_relocates k nb 0 b 0 w1 _ _ Hn Hne Hnb1 Hb1)
        as (w3 & dblk3 & sblk3 & Hrun3 & Hnb3 & Hb3 & Hfr3 & Hnx3 & Hld3 & Hls3
            & Hin3 & Hdo3 & Hso3 & Hlv3).
      { rewrite length_replicate. lia. }
      { intros j Hj. destruct (lookup_lt_is_Some_2 xs j) as [y Hy]; [lia|].
        exists y. by apply lookup_slots_of_live. }
      destruct (Vector_DestroyAndSwap_spec (mkRawMemory (Some (nb, 0)) n) b cap k w3 _ Hb3)
        as (w5 & Hrun5 & Hnx5 & [blk5 Hb5] & Hfr5).
      { rewrite Hls3, length_slots_of by done. lia. }
      { exact Hlv3. }
      eexists _, _. split.
      { erewrite bind_normal; cycle 1.
        { apply on_unwind_normal, lift_eq, Hrun3. }
        rewrite (bind_normal _ _ _ _ _ Hrun5).
        apply lift_eq, (RawMemory_dtor_spec b cap w5 _ Hb5). }
      cbn [data_ size_ buffer_ capacity_ heap next_block].
      split.
      { split; [done|]. cbn [data_ size_ buffer_ capacity_ heap next_block].
        split; [lia|]. split; [done|].
        split; [rewrite Hnx5, Hnx3, Hnx1; lia|].
        rewrite lookup_delete_ne by lia. rewrite Hfr5 by lia. rewrite Hnb3. f_equal.
        apply slots_of_intro.
        - by rewrite Hld3, length_replicate.
        - lia.
        - intros j y Hy. pose proof (lookup_lt_Some _ _ _ Hy) as Hj.
          rewrite (Hin3 j ltac:(lia) : dblk3 !! j = _). by apply lookup_slots_of_live.
        - intros j Hj. rewrite Hdo3 by lia. apply lookup_replicate_2. lia. }
      split; [lia|]. split; [lia|]. split.
      { split; [|done]. intros b' o' [= <- <-]. apply lookup_delete_eq. }
      intros b' Hoff Hb'. assert (b' ≠ b) by (intros ->; by apply (Hoff 0)).
      cbn [next_block heap]. split; [rewrite Hnx5, Hnx3, Hnx1; lia|].
      rewrite lookup_delete_ne by done. rewrite Hfr5 by done.
      rewrite Hfr3 by (try done; unfold nb; lia). rewrite Hheap1.
      apply lookup_insert_ne. unfold nb. lia.
    + assert (k = 0) as -> by lia. destruct xs; [|done].
      eexists _, _. split.
      { erewrite bind_normal; cycle 1.
        { apply on_unwind_normal, lift_eq, Vector_Uninitialized_0. }
        rewrite (bind_normal _ _ _ _ _ (Vector_DestroyAndSwap_null _ cap w1)).
        apply lift_eq, RawMemory_dtor_null. }
      cbn [data_ size_ buffer_ capacity_ heap next_block].
      split.
      { split; [done|]. cbn [data_ size_ buffer_ capacity_ length].
        split; [lia|]. split; [done|]. split; [lia|]. rewrite Hnb1.
        unfold slots_of. cbn. by rewrite Nat.sub_0_r. }
      split; [lia|]. split; [lia|]. split; [done|].
      intros b' _ Hb'. split; [lia|]. rewrite Hheap1.
      apply lookup_insert_ne. unfold nb. lia.
Qed.

(** [Reserve(new_capacity)] keeps the sequence. A request below the
    capacity changes nothing at all. Any other request, also one equal
    to the capacity, whose byte count does not wrap around relocates the
    elements to a new buffer of exactly [new_capacity] slots and
    releases the old one; no other allocation is touched. *)
Theorem Vector_Reserve_keeps_contents (n : nat) (w : World T) (v : Vector) (xs : list T) :
  no_throw → Vector_repr w v xs →
  (Vector_Capacity v ≤ n → allocation_fits n) →
  ∃ v' w',
    Vector_Reserve n (v, w) = (Normal tt, (v', w')) ∧
    Vector_repr w' v' xs ∧
    Vector_Capacity v' = Vector_Capacity v `max` n ∧
    (n < Vector_Capacity v → v' = v ∧ w' = w) ∧
    (Vector_Capacity v ≤ n →
     (∀ b o, buffer_ (data_ v) = Some (b, o) → heap w' !! b = None) ∧
     (0 < n → buffer_ (data_ v') = Some (next_block w, 0))) ∧
    (∀ b, off_block b (buffer_ (data_ v)) → keeps T b w w').
Proof. intros Hn Hrepr _. by apply Vector_Reserve_spec. Qed.

(** [Resize(new_size)] when nothing throws. *)
Lemma Vector_Resize_spec (n : nat) (w : World T) (v : Vector) (xs : list T) :
  no_throw → Vector_repr w v xs →
  ∃ v' w',
    Vector_Resize n (v, w) = (Normal tt, (v', w')) ∧
    Vector_repr w' v' (take n xs ++ replicate (n - length xs) value_initialized) ∧
    Vector_Capacity v' = (if n <=? length xs then Vector_Capacity v
                          else Vector_Capacity v `max` n) ∧
    (n ≤ length xs → data_ v' = data_ v).
Proof.
  intros Hn Hrepr. pose proof Hrepr as (Hsize & Hle & Hbuf).
  unfold Vector_Resize. rewrite (bind_normal this _ _ _ _ eq_refl). cbn [fst].
  destruct (Nat.ltb_spec n (size_ v)) as [Hlt|Hge].
  - (* shrink *)
    destruct v as [[buf cap] k]. cbn [size_ data_ buffer_ capacity_] in *.
    destruct buf as [[b o]|]; [|lia]. destruct Hbuf as (-> & Hb & Hheap).
    destruct (destroy_n_spec (k - n) b (0 + n) w _ Hheap)
      as (w1 & blk1 & Hrun & Hb1 & Hl1 & Hraw & Hsame & Hfr & Hnx).
    { rewrite length_slots_of by done. lia. }
    { intros j Hj. destruct (lookup_lt_is_Some_2 xs j) as [y Hy]; [lia|].
      exists y. by apply lookup_slots_of_live. }
    eexists _, w1. split.
    { erewrite bind_normal; cycle 1.
      { rewrite (bind_normal _ _ _ _ _
                   (lift_eq _ _ _ _ _ (RawMemory_plus_ok (mkRawMemory (Some (b, 0)) cap) n w
                                         ltac:(cbn; lia)))).
        cbn [ptr_add buffer_].
        rewrite (bind_normal _ _ _ _ _ (lift_eq _ _ _ _ _ Hrun)). reflexivity. }
      rewrite (bind_normal this _ _ _ _ eq_refl). cbn [fst size_].
      by rewrite Nat.ltb_irrefl. }
    replace (n - length xs) with 0 by lia. cbn [replicate]. rewrite app_nil_r.
    assert (Hlt' : length (take n xs) = n) by (rewrite length_take; lia).
    split.
    { split; [done|]. cbn [data_ size_ buffer_ capacity_]. split; [lia|].
      split; [done|]. split; [lia|]. rewrite Hb1. f_equal.
      apply slots_of_intro.
      - rewrite Hl1, length_slots_of; [done|lia].
      - lia.
      - intros j x Hx. pose proof (lookup_lt_Some _ _ _ Hx) as Hj.
        rewrite lookup_take_lt in Hx by lia.
        rewrite Hsame by lia. by apply lookup_slots_of_live.
      - intros j Hj. destruct (decide (j < k)) as [Hjk|Hjk].
        + apply Hraw. lia.
        + rewrite Hsame by lia. apply lookup_slots_of_raw. lia. }
    split; [|done]. cbn. by destruct (Nat.leb_spec n (length xs)); [|lia].
  - rewrite (bind_normal (ret tt) _ _ _ _ eq_refl).
    rewrite (bind_normal this _ _ _ _ eq_refl). cbn [fst].
    destruct (Nat.ltb_spec (size_ v) n) as [Hgt|Hle'].
    + (* grow *)
      destruct (Vector_Reserve_spec n w v xs Hn Hrepr)
        as (v1 & w1 & Hrun1 & Hrepr1 & Hcap1 & _ & _ & _).
      rewrite (bind_normal _ _ _ _ _ Hrun1).
      rewrite (bind_normal this _ _ _ _ eq_refl). cbn [fst].
      destruct Hrepr1 as (Hsize1 & Hle1 & Hbuf1).
      unfold Vector_Capacity, RawMemory_Capacity in *.
      destruct v1 as [[buf1 cap1] k1]. cbn [size_ data_ buffer_ capacity_] in *.
      destruct buf1 as [[b1 o1]|]; [|lia]. destruct Hbuf1 as (-> & Hb1 & Hheap1).
      rewrite (bind_normal _ _ _ _ _
                 (lift_eq _ _ _ _ _ (RawMemory_plus_ok (mkRawMemory (Some (b1, 0)) cap1) k1 w1
                                       ltac:(cbn; lia)))).
      cbn [ptr_add buffer_].
      destruct (uninitialized_value_loop_spec b1 (0 + k1) Hn (n - k1) 0 w1 _ Hheap1)
        as (w2 & blk2 & Hrun2 & Hb2 & Hl2 & Hin2 & Hout2 & Hfr2 & Hnx2).
      { rewrite length_slots_of by done. lia. }
      eexists _, w2. split.
      { unfold uninitialized_value_construct_n.
        rewrite (bind_normal _ _ _ _ _ (lift_eq _ _ _ _ _ Hrun2)). reflexivity. }
      rewrite firstn_all2 by lia.
      split.
      { split; [rewrite length_app, length_replicate; cbn; lia|].
        cbn [data_ size_ buffer_ capacity_].
        split; [rewrite length_app, length_replicate; lia|].
        split; [done|]. split; [lia|]. rewrite Hb2. f_equal.
        apply slots_of_intro.
        - rewrite Hl2, length_slots_of; [done|lia].
        - rewrite length_app, length_replicate. lia.
        - intros j x Hx. destruct (decide (j < length xs)) as [Hj|Hj].
          + rewrite lookup_app_l in Hx by done.
            rewrite Hout2 by lia. by apply lookup_slots_of_live.
          + rewrite lookup_app_r in Hx by lia.
            apply lookup_replicate in Hx as [-> Hj'].
            replace j with (0 + k1 + (j - k1)) by lia. apply Hin2. lia.
        - intros j Hj. rewrite length_app, length_replicate in Hj.
          rewrite Hout2 by lia. apply lookup_slots_of_raw. lia. }
      split; [|lia]. cbn. destruct (Nat.leb_spec n (length xs)); [lia|done].
    + (* same size *)
      exists v, w. split; [reflexivity|].
      assert (n = length xs) as -> by lia.
      rewrite firstn_all, Nat.sub_diag. cbn [replicate]. rewrite app_nil_r.
      split; [done|]. split; [|done]. by rewrite Nat.leb_refl.
Qed.

(** [Resize(new_size)] truncates the sequence to [new_size] elements or
    extends it with value-initialised elements. Shrinking keeps the
    buffer; growing, to a size whose byte count does not wrap around,
    reserves exactly [new_size] slots unless the capacity is larger
    already. *)
Theorem Vector_Resize_contents (n : nat) (w : World T) (v : Vector) (xs : list T) :
  no_throw → Vector_repr w v xs →
  (length xs < n → allocation_fits n) →
  ∃ v' w',
    Vector_Resize n (v, w) = (Normal tt, (v', w')) ∧
    Vector_repr w' v' (take n xs ++ replicate (n - length xs) value_initialized) ∧
    Vector_Capacity v' = (if n <=? length xs then Vector_Capacity v
                          else Vector_Capacity v `max` n) ∧
    (n ≤ length xs → data_ v' = data_ v).
Proof. intros Hn Hrepr _. by apply Vector_Resize_spec. Qed.

(** [PopBack()] on a vector that is not empty. *)
Lemma Vector_PopBack_spec (w : World T) (v : Vector) (xs : list T) (x : T) :
  Vector_repr w v (xs ++ [x]) →
  ∃ b w',
    buffer_ (data_ v) = Some (b, 0) ∧
    Vector_PopBack (v, w) = (Normal tt, (mkVector (data_ v) (length xs), w')) ∧
    Vector_repr w' (mkVector (data_ v) (length xs)) xs ∧
    (∀ b', b' ≠ b → heap w' !! b' = heap w !! b') ∧
    next_block w' = next_block w ∧
    trace w' = trace w ++ [EvDtor (Slot (b, length xs))].
Proof.
  intros (Hsize & Hle & Hbuf). rewrite length_app in Hsize, Hle. cbn in Hsize, Hle.
  destruct v as [[buf cap] k]. cbn [size_ data_ buffer_ capacity_] in *.
  destruct buf as [[b o]|]; [|lia]. destruct Hbuf as (-> & Hb & Hheap).
  destruct (destroy_n_spec 1 b (length xs) w _ Hheap)
    as (w1 & blk1 & Hrun & Hb1 & Hl1 & Hraw & Hsame & Hfr & Hnx).
  { rewrite length_slots_of; rewrite ?length_app; cbn; lia. }
  { intros j Hj. exists x. apply lookup_slots_of_live.
    assert (j = length xs) as -> by lia.
    rewrite lookup_app_r by done. by rewrite Nat.sub_diag. }
  exists b, w1. split; [done|]. split.
  { unfold Vector_PopBack. rewrite (bind_normal this _ _ _ _ eq_refl). cbn [fst].
    unfold Vector_end. cbn [data_ size_].
    rewrite (bind_normal _ _ _ _ _
               (lift_eq _ _ _ _ _ (RawMemory_plus_ok (mkRawMemory (Some (b, 0)) cap) k w
                                     ltac:(cbn; lia)))).
    cbn [ptr_add ptr_sub buffer_].
    replace (0 + k - 1) with (length xs) by lia.
    rewrite (bind_normal _ _ _ _ _ (lift_eq _ _ _ _ _ Hrun)).
    cbn. by replace (k - 1) with (length xs) by lia. }
  split.
  { split; [done|]. cbn [data_ size_ buffer_ capacity_]. split; [lia|].
    split; [done|]. split; [lia|]. rewrite Hb1. f_equal.
    apply slots_of_intro.
    - rewrite Hl1, length_slots_of; rewrite ?length_app; cbn; lia.
    - lia.
    - intros j y Hy. pose proof (lookup_lt_Some _ _ _ Hy) as Hj.
      rewrite Hsame by lia. apply lookup_slots_of_live. by rewrite lookup_app_l.
    - intros j Hj. destruct (decide (j = length xs)) as [->|Hne].
      + apply Hraw. lia.
      + rewrite Hsame by lia. apply lookup_slots_of_raw.
        rewrite length_app. cbn. lia. }
  split; [done|]. split; [done|].
  rewrite (destroy_n_trace _ _ _ _ _ Hrun). done.
Qed.

(** [PopBack()] on a vector that is not empty removes the last element,
    whatever the operations of [T] do: one destructor call, on the last
    element; the buffer and the capacity stay, and so does every other
    allocation. *)
Theorem Vector_PopBack_removes_last (w : World T) (v : Vector) (xs : list T) (x : T) :
  Vector_repr w v (xs ++ [x]) →
  ∃ b w',
    buffer_ (data_ v) = Some (b, 0) ∧
    Vector_PopBack (v, w) = (Normal tt, (mkVector (data_ v) (length xs), w')) ∧
    Vector_repr w' (mkVector (data_ v) (length xs)) xs ∧
    (∀ b', b' ≠ b → heap w' !! b' = heap w !! b') ∧
    next_block w' = next_block w ∧
    trace w' = trace w ++ [EvDtor (Slot (b, length xs))].
Proof. apply Vector_PopBack_spec. Qed.

End Capacity.

(** ** [Erase] *)

Section Erase.
Context {T : Type} `{ElementType T} `{Faults T}.

Lemma copy_assign_same_block (b d s : nat) (w : World T) (blk : list (slot T)) (x y : T) :
  no_throw → heap w !! b = Some blk → blk !! d = Some (Live y) → blk !! s = Some (Live x) →
  ∃ w', copy_assign (Some (b, d)) (Some (b, s)) w = (Normal tt, w') ∧
        heap w' !! b = Some (<[s := Live x]> (<[d := Live x]> blk)) ∧
        (∀ b', b' ≠ b → heap w' !! b' = heap w !! b') ∧
        next_block w' = next_block w.
Proof.
  intros Hn Hb Hd Hs.
  destruct (assign_in_spec (λ l, EvCopyAssign (Slot l) x) x y b d w blk Hn Hb Hd)
    as (w1 & Hrun & Hb1 & Hfr & Hnb).
  exists w1. split.
  { unfold copy_assign.
    by rewrite (bind_normal _ _ _ _ _ (read_live _ _ _ _ _ Hb Hs)). }
  split; [|done]. rewrite Hb1. f_equal. symmetry. apply list_insert_id.
  destruct (decide (s = d)) as [->|Hne].
  - apply list_lookup_insert_eq. by eapply lookup_lt_Some.
  - by rewrite list_lookup_insert_ne.
Qed.

Section Shift.
Variables (assign : ptr → ptr → M T unit) (f : T → T).
Hypothesis assign_same_block :
  ∀ (b d s : nat) (w : World T) (blk : list (slot T)) (x y : T),
    heap w !! b = Some blk → blk !! d = Some (Live y) → blk !! s = Some (Live x) →
    ∃ w', assign (Some (b, d)) (Some (b, s)) w = (Normal tt, w') ∧
          heap w' !! b = Some (<[s := Live (f x)]> (<[d := Live x]> blk)) ∧
          (∀ b', b' ≠ b → heap w' !! b' = heap w !! b') ∧
          next_block w' = next_block w.

(** [std::move] or [std::copy] of the [n] elements that start at slot
    [k + 1] to the range that starts at slot [k]: every element moves
    down by one slot, and the last slot of the source still holds an
    object. *)
Lemma assign_forward_shift (b : nat) :
  ∀ (n k : nat) (w : World T) (blk : list (slot T)),
    heap w !! b = Some blk →
    (∀ j, k ≤ j ≤ k + n → ∃ y, blk !! j = Some (Live y)) →
    ∃ w' blk',
      assign_forward assign (Some (b, k + 1)) (Some (b, k)) n w = (Normal tt, w') ∧
      heap w' !! b = Some blk' ∧ length blk' = length blk ∧
      (∀ b', b' ≠ b → heap w' !! b' = heap w !! b') ∧
      next_block w' = next_block w ∧
      (∀ j, k ≤ j < k + n → blk' !! j = blk !! (S j)) ∧
      (∀ j, j < k ∨ k + n < j → blk' !! j = blk !! j) ∧
      (∃ y, blk' !! (k + n) = Some (Live y)).
Proof.
  induction n as [|n IH]; intros k w blk Hb Hlive.
  - exists w, blk. cbn. repeat split; try done.
    + intros j ?; lia.
    + apply Hlive. lia.
  - destruct (Hlive k) as [y Hy]; [lia|].
    destruct (Hlive (k + 1)) as [x Hx]; [lia|].
    destruct (assign_same_block b k (k + 1) w blk x y Hb Hy Hx)
      as (w1 & Hrun & Hb1 & Hfr1 & Hnb1).
    destruct (IH (k + 1) w1 _ Hb1)
      as (w' & blk' & Hrun' & Hb' & Hlen' & Hfr' & Hnb' & Hdown & Hout & Hlast).
    { intros j Hj. destruct (decide (j = k + 1)) as [->|Hne].
      - eexists. apply list_lookup_insert_eq. rewrite length_insert.
        by eapply lookup_lt_Some.
      - rewrite !list_lookup_insert_ne by lia. apply Hlive. lia. }
    exists w', blk'. split.
    { cbn [assign_forward]. rewrite (bind_normal _ _ _ _ _ Hrun). exact Hrun'. }
    split; [done|]. split; [by rewrite Hlen', !length_insert|].
    split; [intros b' Hb''; rewrite Hfr' by done; by apply Hfr1|].
    split; [congruence|]. split.
    { intros j Hj. destruct (decide (j = k)) as [->|Hne].
      - rewrite Hout by lia. rewrite list_lookup_insert_ne by lia.
        rewrite list_lookup_insert_eq by (by eapply lookup_lt_Some).
        by replace (S k) with (k + 1) by lia.
      - rewrite Hdown by lia. rewrite !list_lookup_insert_ne by lia. done. }
    split.
    { intros j Hj. rewrite Hout by lia. by rewrite !list_lookup_insert_ne by lia. }
    by replace (k + S n) with (k + 1 + n) by lia.
Qed.

End Shift.

(** [Erase(pos)] when nothing throws. *)
Lemma Vector_Erase_spec (w : World T) (v : Vector) (xs : list T) (k : nat) :
  no_throw → Vector_repr w v xs → k < length xs →
  ∃ w',
    Vector_Erase (ptr_add (Vector_begin v) k) (v, w) =
      (Normal (ptr_add (Vector_begin v) k), (mkVector (data_ v) (length xs - 1), w')) ∧
    Vector_repr w' (mkVector (data_ v) (length xs - 1)) (delete k xs) ∧
    (∀ b, off_block b (buffer_ (data_ v)) → heap w' !! b = heap w !! b) ∧
    next_block w' = next_block w.
Proof.
  intros Hn Hrepr Hk. pose proof Hrepr as (Hsize & Hle & Hbuf).
  destruct v as [[buf cap] n]. cbn [size_ data_ buffer_ capacity_] in *.
  destruct buf as [[b o]|]; [|lia]. destruct Hbuf as (-> & Hb & Hheap).
  cbn [Vector_begin RawMemory_GetAddress data_ buffer_ ptr_add].
  assert (Hshift : ∃ w1 blk1,
            (if is_nothrow_move_assignable
             then std_move (Some (b, 0 + k + 1)) (Some (b, 0 + n)) (Some (b, 0 + k))
             else std_copy (Some (b, 0 + k + 1)) (Some (b, 0 + n)) (Some (b, 0 + k))) w
              = (Normal tt, w1) ∧
            heap w1 !! b = Some blk1 ∧ length blk1 = length (slots_of xs cap) ∧
            (∀ b', b' ≠ b → heap w1 !! b' = heap w !! b') ∧
            next_block w1 = next_block w ∧
            (∀ j, k ≤ j < n - 1 → blk1 !! j = slots_of xs cap !! (S j)) ∧
            (∀ j, j < k ∨ n - 1 < j → blk1 !! j = slots_of xs cap !! j) ∧
            (∃ y, blk1 !! (n - 1) = Some (Live y))).
  { assert (Hlive : ∀ j, k ≤ j ≤ k + (n - S k) →
              ∃ y, slots_of xs cap !! j = Some (Live y)).
    { intros j Hj. destruct (lookup_lt_is_Some_2 xs j) as [y Hy]; [lia|].
      exists y. by apply lookup_slots_of_live. }
    unfold std_move, std_copy. cbn [ptr_diff].
    replace (0 + n - (0 + k + 1)) with (n - S k) by lia.
    replace (n - 1) with (k + (n - S k)) by lia.
    destruct is_nothrow_move_assignable.
    - apply (assign_forward_shift move_assign moved_from); [|done|done].
      intros b0 d s w0 blk x0 y0 ? ? ?. by apply (move_assign_same_block b0 d s w0 blk x0 y0).
    - apply (assign_forward_shift copy_assign (λ x, x)); [|done|done].
      intros b0 d s w0 blk x0 y0 ? ? ?. by apply (copy_assign_same_block b0 d s w0 blk x0 y0). }
  destruct Hshift as (w1 & blk1 & Hrun1 & Hb1 & Hl1 & Hfr1 & Hnx1 & Hdown & Hout & [y Hy]).
  assert (Hld : length (delete k xs) = length xs - 1).
  { apply length_delete. by apply lookup_lt_is_Some_2. }
  assert (Hlys : length (delete k xs ++ [y]) = n).
  { rewrite length_app, Hld. cbn. lia. }
  assert (Hrepr1 : Vector_repr w1 (mkVector (mkRawMemory (Some (b, 0)) cap) n)
                     (delete k xs ++ [y])).
  { split; [done|]. cbn [data_ size_ buffer_ capacity_]. split; [lia|].
    split; [done|]. split; [lia|]. rewrite Hb1. f_equal.
    apply slots_of_intro; [by rewrite Hl1, length_slots_of|lia| |].
    - intros j z Hz. pose proof (lookup_lt_Some _ _ _ Hz) as Hj.
      destruct (decide (j = n - 1)) as [->|Hne].
      + rewrite lookup_app_r in Hz by lia.
        replace (n - 1 - length (delete k xs)) with 0 in Hz by lia. cbn in Hz. congruence.
      + rewrite lookup_app_l in Hz by lia.
        destruct (decide (j < k)) as [Hjk|Hjk].
        * rewrite list_lookup_delete_lt in Hz by done.
          rewrite Hout by lia. by apply lookup_slots_of_live.
        * rewrite list_lookup_delete_ge in Hz by lia.
          rewrite Hdown by lia. by apply lookup_slots_of_live.
    - intros j Hj. rewrite Hout by lia. apply lookup_slots_of_raw. lia. }
  destruct (Vector_PopBack_spec w1 _ _ y Hrepr1)
    as (b' & w2 & Hbuf2 & Hrun2 & Hrepr2 & Hfr2 & Hnx2 & _).
  cbn [data_ buffer_] in Hbuf2. injection Hbuf2 as <-.
  rewrite Hld in Hrun2, Hrepr2.
  exists w2. split.
  { unfold Vector_Erase. rewrite (bind_normal this _ _ _ _ eq_refl). cbn [fst].
    unfold Vector_end. cbn [data_ size_].
    rewrite (bind_normal _ _ _ _ _
               (lift_eq _ _ _ _ _ (RawMemory_plus_ok (mkRawMemory (Some (b, 0)) cap) n w
                                     ltac:(cbn; lia)))).
    cbn [ptr_add buffer_].
    erewrite bind_normal; cycle 1.
    { destruct is_nothrow_move_assignable; apply lift_eq, Hrun1. }
    rewrite (bind_normal _ _ _ _ _ Hrun2). reflexivity. }
  split; [done|]. split; [|congruence].
  intros b' Hoff. assert (b' ≠ b) by (intros ->; by apply (Hoff 0)).
  rewrite Hfr2 by done. by apply Hfr1.
Qed.

(** [Erase(pos)] removes the element at [pos], closes the gap and
    returns [pos]. The buffer and the capacity stay, and no other
    allocation is touched. *)
Theorem Vector_Erase_removes (w : World T) (v : Vector) (xs : list T) (k : nat) :
  no_throw → Vector_repr w v xs → k < length xs →
  ∃ w',
    Vector_Erase (ptr_add (Vector_begin v) k) (v, w) =
      (Normal (ptr_add (Vector_begin v) k), (mkVector (data_ v) (length xs - 1), w')) ∧
    Vector_repr w' (mkVector (data_ v) (length xs - 1)) (delete k xs) ∧
    (∀ b, off_block b (buffer_ (data_ v)) → heap w' !! b = heap w !! b) ∧
    next_block w' = next_block w.
Proof. apply Vector_Erase_spec. Qed.

Lemma emits_assign_forward (Q : event T → Prop) (assign : ptr → ptr → M T unit) (n : nat) :
  (∀ d s, always (emits Q) (assign d s)) →
  ∀ first d_first, always (emits Q) (assign_forward assign first d_first n).
Proof.
  intros Ha. induction n as [|n IH]; intros first d_first; cbn [assign_forward].
  - apply always_ret, _.
  - apply always_bind; [apply _|apply Ha|by intros _].
Qed.

Lemma emits_copy_assign (Q : event T → Prop) (dst src : ptr) :
  (∀ o x, Q (EvCopyAssign o x)) → always (emits Q) (copy_assign dst src).
Proof.
  intros He. apply always_bind; [apply _|apply emits_read|intros x].
  by apply emits_assign_in.
Qed.

Lemma emits_Vector_PopBack (Q : event T → Prop) :
  (∀ o, Q (EvDtor o)) → always (on_world (emits Q)) Vector_PopBack.
Proof.
  intros Hd. unfold Vector_PopBack.
  apply always_bind; [apply _|by apply on_world_same; [apply _|]|intros v].
  apply always_bind; [apply _|apply on_world_lift, emits_RawMemory_plus|intros e].
  apply always_bind; [apply _|by apply on_world_lift, emits_destroy_n|intros _].
  by apply on_world_same; [apply _|].
Qed.

(** [Erase] closes the gap by move assignments when the move assignment
    of [T] cannot throw, and by copy assignments otherwise. Whatever the
    outcome, it does nothing else to the elements but destroy: it
    constructs nothing, allocates nothing and releases nothing. *)
Theorem Vector_Erase_policy (pos : ptr) :
  always (on_world (emits (if is_nothrow_move_assignable
                           then move_assign_or_dtor else copy_assign_or_dtor)))
         (Vector_Erase pos).
Proof.
  unfold Vector_Erase.
  apply always_bind; [apply _|by apply on_world_same; [apply _|]|intros v].
  apply always_bind; [apply _|apply on_world_lift, emits_RawMemory_plus|intros e].
  destruct is_nothrow_move_assignable.
  - apply always_bind; [apply _| |intros _].
    { apply on_world_lift. apply emits_assign_forward. intros d s.
      by apply emits_move_assign. }
    apply always_bind; [apply _|by apply emits_Vector_PopBack|intros _].
    apply always_ret, _.
  - apply always_bind; [apply _| |intros _].
    { apply on_world_lift. apply emits_assign_forward. intros d s.
      by apply emits_copy_assign. }
    apply always_bind; [apply _|by apply emits_Vector_PopBack|intros _].
    apply always_ret, _.
Qed.

End Erase.

(** ** Appending, and insertion followed by removal *)

Section Append.
Context {T : Type} `{ElementType T} `{Faults T}.

Lemma insert_at_end (xs : list T) (x : T) :
  take (length xs) xs ++ x :: drop (length xs) xs = xs ++ [x].
Proof. by rewrite firstn_all, drop_all. Qed.

(** [EmplaceBack(args...)] when nothing throws. *)
Lemma Vector_EmplaceBack_spec (w : World T) (v : Vector) (xs : list T)
    (args : EmplaceArgs T) (x : T) :
  no_throw → Vector_repr w v xs → args_value v xs args x →
  (N.of_nat (size_ v) * 2 < size_t_modulus)%N →
  ∃ v' w',
    Vector_EmplaceBack args (v, w) =
      (Normal (ptr_add (Vector_begin v') (length xs)), (v', w')) ∧
    Vector_repr w' v' (xs ++ [x]) ∧
    size_ v' = S (size_ v).
Proof.
  intros Hn Hrepr Hargs Hfit. pose proof Hrepr as (Hsize & Hle & _).
  destruct (Vector_Emplace_spec w v xs (length xs) args x Hn Hrepr (le_n _) Hargs Hfit)
    as (v' & w' & Hrun & Hrepr' & Hsize').
  rewrite insert_at_end in Hrepr'.
  exists v', w'. split; [|done].
  unfold Vector_EmplaceBack. rewrite (bind_normal this _ _ _ _ eq_refl). cbn [fst].
  unfold Vector_end.
  rewrite (bind_normal _ _ _ _ _
             (lift_eq _ _ _ _ _ (RawMemory_plus_ok (data_ v) (size_ v) w ltac:(lia)))).
  rewrite Hsize. exact Hrun.
Qed.

(** [EmplaceBack] and both overloads of [PushBack] append: the vector
    holds the former sequence followed by the new element, and
    [EmplaceBack] returns the address of that element. The argument may
    be an element of the vector itself, also when the buffer is
    reallocated. *)
Theorem Vector_PushBack_appends (w : World T) (v : Vector) (xs : list T) :
  no_throw → Vector_repr w v xs →
  (N.of_nat (size_ v) * 2 < size_t_modulus)%N →
  (∀ args x, args_value v xs args x →
     ∃ v' w', Vector_EmplaceBack args (v, w) =
                (Normal (ptr_add (Vector_begin v') (length xs)), (v', w')) ∧
              Vector_repr w' v' (xs ++ [x]) ∧
              read (ptr_add (Vector_begin v') (length xs)) w' = (Normal x, w')) ∧
  (∀ value x, args_value v xs (ByCopy value) x →
     ∃ v' w', Vector_PushBack_copy value (v, w) = (Normal tt, (v', w')) ∧
              Vector_repr w' v' (xs ++ [x])) ∧
  (∀ x, ∃ v' w', Vector_PushBack_move x (v, w) = (Normal tt, (v', w')) ∧
                 Vector_repr w' v' (xs ++ [x])).
Proof.
  intros Hn Hrepr Hfit. split; [|split].
  - intros args x Hargs.
    destruct (Vector_EmplaceBack_spec w v xs args x Hn Hrepr Hargs Hfit)
      as (v' & w' & Hrun & Hrepr' & _).
    exists v', w'. split; [done|]. split; [done|].
    destruct Hrepr' as (Hsize' & Hle' & Hbuf'). rewrite length_app in Hsize', Hle'.
    cbn in Hsize', Hle'.
    destruct v' as [[buf cap] n]. cbn [size_ data_ buffer_ capacity_] in *.
    destruct buf as [[b o]|]; [|lia]. destruct Hbuf' as (-> & _ & Hheap).
    cbn [Vector_begin RawMemory_GetAddress data_ buffer_ ptr_add].
    eapply read_live; [exact Hheap|]. apply lookup_slots_of_live.
    rewrite lookup_app_r by done. by rewrite Nat.sub_diag.
  - intros value x Hargs.
    destruct (Vector_EmplaceBack_spec w v xs (ByCopy value) x Hn Hrepr Hargs Hfit)
      as (v' & w' & Hrun & Hrepr' & _).
    exists v', w'. split; [|done].
    unfold Vector_PushBack_copy. by rewrite (bind_normal _ _ _ _ _ Hrun).
  - intros x.
    destruct (Vector_PushBack_move_spec w v xs x Hn Hrepr Hfit)
      as (v' & w' & Hrun & Hrepr' & _).
    by exists v', w'.
Qed.

(** [PushBack] followed by [PopBack] gives the sequence back; the
    capacity [PushBack] has grown to is kept. *)
Theorem Vector_PushBack_PopBack (w : World T) (v : Vector) (xs : list T)
    (value : const_ref T) (x : T) :
  no_throw → Vector_repr w v xs → args_value v xs (ByCopy value) x →
  (N.of_nat (size_ v) * 2 < size_t_modulus)%N →
  ∃ v1 w1 v2 w2,
    Vector_PushBack_copy value (v, w) = (Normal tt, (v1, w1)) ∧
    Vector_PopBack (v1, w1) = (Normal tt, (v2, w2)) ∧
    Vector_repr w2 v2 xs ∧
    data_ v2 = data_ v1 ∧
    Vector_Capacity v2 =
      (if size_ v =? Vector_Capacity v then GrowthCapacity (size_ v) else Vector_Capacity v).
Proof.
  intros Hn Hrepr Hargs Hfit.
  destruct (Vector_EmplaceBack_spec w v xs (ByCopy value) x Hn Hrepr Hargs Hfit)
    as (v1 & w1 & Hrun & Hrepr1 & _).
  assert (Hpush : Vector_PushBack_copy value (v, w) = (Normal tt, (v1, w1))).
  { unfold Vector_PushBack_copy. by rewrite (bind_normal _ _ _ _ _ Hrun). }
  destruct (Vector_PopBack_spec w1 v1 xs x Hrepr1)
    as (b & w2 & _ & Hpop & Hrepr2 & _).
  eexists v1, w1, _, w2. split; [done|]. split; [exact Hpop|]. split; [done|].
  split; [done|].
  by apply (Vector_PushBack_copy_capacity value v v1 w w1).
Qed.

(** [Insert] at a position followed by [Erase] at the position that
    [Insert] returned gives the sequence back. *)
Theorem Vector_Insert_Erase (w : World T) (v : Vector) (xs : list T)
    (k : nat) (args : EmplaceArgs T) (x : T) :
  no_throw → Vector_repr w v xs → k ≤ length xs → args_value v xs args x →
  (N.of_nat (size_ v) * 2 < size_t_modulus)%N →
  ∃ p v1 w1 v2 w2,
    match args with
    | ByCopy value => Vector_Insert_copy (ptr_add (Vector_begin v) k) value (v, w)
    | ByMove y => Vector_Insert_move (ptr_add (Vector_begin v) k) y (v, w)
    end = (Normal p, (v1, w1)) ∧
    Vector_repr w1 v1 (take k xs ++ x :: drop k xs) ∧
    Vector_Erase p (v1, w1) = (Normal p, (v2, w2)) ∧
    Vector_repr w2 v2 xs ∧
    data_ v2 = data_ v1.
Proof.
  intros Hn Hrepr Hk Hargs Hfit.
  destruct (Vector_Emplace_spec w v xs k args x Hn Hrepr Hk Hargs Hfit)
    as (v1 & w1 & Hrun & Hrepr1 & Hsize1).
  assert (Hlen : length (take k xs ++ x :: drop k xs) = S (length xs)).
  { rewrite length_app, length_cons, length_take, length_drop. lia. }
  destruct (Vector_Erase_spec w1 v1 _ k Hn Hrepr1 ltac:(lia))
    as (w2 & Herase & Hrepr2 & _).
  assert (Hdel : delete k (take k xs ++ x :: drop k xs) = xs).
  { replace k with (length (take k xs)) at 1 by (rewrite length_take; lia).
    rewrite delete_middle. apply take_drop. }
  rewrite Hdel in Hrepr2.
  eexists _, v1, w1, _, w2. split.
  { destruct args as [value|y]; exact Hrun. }
  split; [done|]. split; [exact Herase|]. split; [done|]. done.
Qed.

End Append.

(** ** Assignment between two vectors *)

Section AssignmentBetween.
Context {T : Type} `{ElementType T} `{Faults T}.

(** A vector is not affected by changes to allocations other than its
    buffer. *)
Lemma Vector_repr_frame (w w' : World T) (v : Vector) (xs : list T) :
  Vector_repr w v xs → next_block w ≤ next_block w' →
  (∀ b, ¬ off_block b (buffer_ (data_ v)) → heap w' !! b = heap w !! b) →
  Vector_repr w' v xs.
Proof.
  intros (Hsize & Hle & Hbuf) Hnx Hfr. split; [done|]. split; [done|].
  destruct (buffer_ (data_ v)) as [[b o]|]; [|done].
  destruct Hbuf as (-> & Hb & Hheap). split; [done|]. split; [lia|].
  rewrite Hfr; [done|]. intros Hoff. by apply (Hoff 0).
Qed.

Lemma off_block_disjoint (a rhs : Vector) (b : block) :
  disjoint_buffers a rhs → ¬ off_block b (buffer_ (data_ rhs)) →
  off_block b (buffer_ (data_ a)).
Proof.
  unfold disjoint_buffers. intros Hd Hoff o Heq. rewrite Heq in Hd.
  destruct (buffer_ (data_ rhs)) as [[b' o']|].
  - apply Hoff. intros o'' [= -> _]. done.
  - by apply Hoff.
Qed.

(** [std::copy] of [n] elements between two allocations. *)
Lemma assign_forward_copy (bd bs : nat) :
  no_throw → bs ≠ bd →
  ∀ (n od os : nat) (w : World T) (dblk sblk : list (slot T)),
    heap w !! bd = Some dblk → heap w !! bs = Some sblk →
    (∀ j, j < n → ∃ x, sblk !! (os + j) = Some (Live x)) →
    (∀ j, j < n → ∃ y, dblk !! (od + j) = Some (Live y)) →
    ∃ w' dblk',
      assign_forward copy_assign (Some (bs, os)) (Some (bd, od)) n w = (Normal tt, w') ∧
      heap w' !! bd = Some dblk' ∧ length dblk' = length dblk ∧
      (∀ b, b ≠ bd → heap w' !! b = heap w !! b) ∧
      next_block w' = next_block w ∧
      (∀ j, j < n → dblk' !! (od + j) = sblk !! (os + j)) ∧
      (∀ o, o < od ∨ od + n ≤ o → dblk' !! o = dblk !! o).
Proof.
  intros Hn Hne. induction n as [|n IH]; intros od os w dblk sblk Hd Hs Hsrc Hdst.
  - exists w, dblk. cbn. repeat split; try done. intros j ?; lia.
  - destruct (Hsrc 0) as [x Hx]; [lia|]. destruct (Hdst 0) as [y Hy]; [lia|].
    rewrite Nat.add_0_r in Hx, Hy.
    destruct (assign_in_spec (λ l, EvCopyAssign (Slot l) x) x y bd od w dblk Hn Hd Hy)
      as (w1 & Hrun & Hd1 & Hfr1 & Hnb1).
    assert (Hs1 : heap w1 !! bs = Some sblk) by (by rewrite Hfr1).
    destruct (IH (od + 1) (os + 1) w1 _ _ Hd1 Hs1)
      as (w' & dblk' & Hrun' & Hd' & Hl' & Hfr' & Hnb' & Hin & Hout).
    { intros j Hj. replace (os + 1 + j) with (os + S j) by lia. apply Hsrc. lia. }
    { intros j Hj. rewrite list_lookup_insert_ne by lia.
      replace (od + 1 + j) with (od + S j) by lia. apply Hdst. lia. }
    exists w', dblk'. split.
    { cbn [assign_forward ptr_add]. erewrite bind_normal; [exact Hrun'|].
      unfold copy_assign. by rewrite (bind_normal _ _ _ _ _ (read_live _ _ _ _ _ Hs Hx)). }
    split; [done|]. split; [by rewrite Hl', length_insert|].
    split; [intros b Hb; rewrite Hfr' by done; by apply Hfr1|].
    split; [congruence|]. split.
    { intros [|j] Hj.
      - rewrite !Nat.add_0_r. rewrite Hout by lia. rewrite Hx.
        apply list_lookup_insert_eq. by eapply lookup_lt_Some.
      - replace (od + S j) with (od + 1 + j) by lia.
        replace (os + S j) with (os + 1 + j) by lia. apply Hin. lia. }
    intros o Ho. rewrite Hout by lia. apply list_lookup_insert_ne. lia.
Qed.

(** The copy assignment that reallocates, when the destructor of [a]'s
    former contents returns. *)
Lemma Vector_copy_assign_grow (w : World T) (a rhs : Vector) (xs ys : list T) :
  no_throw → Vector_repr w a xs → Vector_repr w rhs ys → disjoint_buffers a rhs →
  Vector_Capacity a < length ys →
  is_trivially_destructible || (length xs <=? 1) = true →
  ∃ a' w',
    Vector_copy_assign false rhs (a, w) = (Normal tt, (a', w')) ∧
    Vector_repr w' a' ys ∧ Vector_repr w' rhs ys ∧
    data_ a' = mkRawMemory (Some (next_block w, 0)) (length ys) ∧
    (∀ b o, buffer_ (data_ a) = Some (b, o) → heap w' !! b = None) ∧
    (∀ b, off_block b (buffer_ (data_ a)) → keeps T b w w').
Proof.
  intros Hn Ha Hr Hdisj Hcap Hok.
  destruct (Vector_copy_ctor_spec rhs ys w Hn Hr)
    as (rc & w1 & Hrun1 & Hrc1 & Hr1 & Hdata & Hkeep & Hnx1).
  destruct (decide (ys = [])) as [->|Hys]; [cbn in Hcap; lia|].
  assert (Ha1 : Vector_repr w1 a xs) by (by eapply Vector_repr_keeps).
  destruct (Vector_dtor_spec w1 a xs Ha1 Hok) as (w2 & Hrun2 & Hnx2 & Hfr2 & Hrel).
  pose proof Hr as (Hrs & _). pose proof Hrc1 as (Hrcs & _).
  destruct a as [[bufa capa] na]. destruct rc as [datac nc].
  cbn [data_ size_] in Hdata, Hrcs. subst datac nc.
  cbn [data_ size_ buffer_ capacity_ Vector_Capacity RawMemory_Capacity] in *.
  eexists _, w2. split.
  { unfold Vector_copy_assign. rewrite (bind_normal this _ _ _ _ eq_refl). cbn [fst].
    cbn [data_ RawMemory_Capacity capacity_].
    destruct (Nat.ltb_spec capa (size_ rhs)) as [_|Hge]; [|lia].
    rewrite (bind_normal _ _ _ _ _ (lift_eq _ _ _ _ _ Hrun1)).
    unfold Vector_Swap. rewrite RawMemory_Swap_eq. cbn [data_ size_].
    rewrite (bind_normal (set_this _) _ _ _ _ eq_refl). cbn [fst snd].
    apply lift_eq, Hrun2. }
  assert (Hba : ∀ b, ¬ off_block b (Some (next_block w, 0)) → off_block b bufa).
  { intros b Hoff o ->. apply Hoff. intros o' [= <- _].
    destruct Ha as (_ & _ & _ & Hlt & _). lia. }
  split.
  { eapply (Vector_repr_frame w1); [exact Hrc1|lia|].
    intros b Hoff. apply Hfr2. cbn [data_ buffer_] in Hoff. by apply Hba. }
  split.
  { eapply (Vector_repr_frame w1); [done|lia|].
    intros b Hoff. apply Hfr2.
    by apply (off_block_disjoint (mkVector (mkRawMemory bufa capa) na) rhs). }
  split; [done|]. split.
  { intros b o ->. by destruct Hrel. }
  intros b Hoff Hb. destruct (Hkeep b Hb) as [Hb1 Heq1]. split; [lia|].
  rewrite Hfr2 by done. done.
Qed.

(** The two [std::copy] calls of the copy assignment: a prefix of the
    elements of [rhs] is assigned to the first elements of [a]. *)
Lemma Vector_copy_prefix (w : World T) (a rhs : Vector) (xs ys : list T) (n : nat) :
  no_throw → Vector_repr w a xs → Vector_repr w rhs ys → disjoint_buffers a rhs →
  n ≤ length xs → n ≤ length ys →
  ∃ w',
    std_copy (Vector_begin rhs) (ptr_add (Vector_begin rhs) n) (Vector_begin a) w
      = (Normal tt, w') ∧
    Vector_repr w' a (take n ys ++ drop n xs) ∧
    (∀ b, off_block b (buffer_ (data_ a)) → heap w' !! b = heap w !! b) ∧
    next_block w' = next_block w.
Proof.
  intros Hn Ha Hr Hdisj Hnx Hny.
  destruct (decide (n = 0)) as [->|Hpos].
  { exists w. split.
    - unfold std_copy. replace (ptr_diff _ _) with 0; [done|].
      destruct (Vector_begin rhs) as [[b o]|]; cbn; lia.
    - by rewrite take_0, drop_0. }
  pose proof Ha as (Hsa & Hla & Hba). pose proof Hr as (Hsr & Hlr & Hbr).
  destruct a as [[bufa capa] na]. destruct rhs as [[bufr capr] nr].
  unfold disjoint_buffers in Hdisj.
  cbn [data_ size_ buffer_ capacity_ Vector_begin RawMemory_GetAddress] in *.
  destruct bufa as [[ba oa]|]; [|lia]. destruct bufr as [[br o2]|]; [|lia].
  destruct Hba as (-> & Hba & Hha). destruct Hbr as (-> & Hbr & Hhr).
  destruct (assign_forward_copy ba br Hn ltac:(done) n 0 0 w _ _ Hha Hhr)
    as (w' & dblk' & Hrun & Hd' & Hl' & Hfr & Hnb & Hin & Hout).
  { intros j Hj. destruct (lookup_lt_is_Some_2 ys j) as [y Hy]; [lia|].
    exists y. by apply lookup_slots_of_live. }
  { intros j Hj. destruct (lookup_lt_is_Some_2 xs j) as [y Hy]; [lia|].
    exists y. by apply lookup_slots_of_live. }
  exists w'. split.
  { unfold std_copy. cbn [ptr_add ptr_diff]. by replace (0 + n - 0) with n by lia. }
  assert (Hlen : length (take n ys ++ drop n xs) = length xs).
  { rewrite length_app, length_take, length_drop. lia. }
  split.
  { split; [by rewrite Hlen|]. cbn [data_ size_ buffer_ capacity_].
    split; [by rewrite Hlen|]. split; [done|]. split; [lia|]. rewrite Hd'. f_equal.
    apply slots_of_intro.
    - by rewrite Hl', length_slots_of.
    - by rewrite Hlen.
    - intros j x Hx. destruct (decide (j < n)) as [Hj|Hj].
      + rewrite lookup_app_l in Hx by (rewrite length_take; lia).
        rewrite lookup_take_lt in Hx by done.
        rewrite (Hin j Hj : dblk' !! j = _). by apply lookup_slots_of_live.
      + rewrite lookup_app_r in Hx by (rewrite length_take; lia).
        rewrite length_take, lookup_drop in Hx.
        replace (n + (j - n `min` length ys)) with j in Hx by lia.
        rewrite Hout by lia. by apply lookup_slots_of_live.
    - intros j Hj. rewrite Hlen in Hj. rewrite Hout by lia.
      apply lookup_slots_of_raw. lia. }
  split; [|done]. intros b Hoff. apply Hfr. intros ->. by apply (Hoff 0).
Qed.

(** The copy assignment that keeps the buffer, in the cases where the
    new elements land where they belong: [rhs] is not longer than [a],
    or [a] is empty. *)
Lemma Vector_copy_assign_in_place (w : World T) (a rhs : Vector) (xs ys : list T) :
  no_throw → Vector_repr w a xs → Vector_repr w rhs ys → disjoint_buffers a rhs →
  length ys ≤ Vector_Capacity a → length ys ≤ length xs ∨ xs = [] →
  ∃ w',
    Vector_copy_assign false rhs (a, w) = (Normal tt, (mkVector (data_ a) (length ys), w')) ∧
    Vector_repr w' (mkVector (data_ a) (length ys)) ys ∧ Vector_repr w' rhs ys ∧
    (∀ b, off_block b (buffer_ (data_ a)) → heap w' !! b = heap w !! b) ∧
    next_block w' = next_block w.
Proof.
  intros Hn Ha Hr Hdisj Hcap Hcase.
  pose proof Ha as (Hsa & Hla & Hba). pose proof Hr as (Hsr & Hlr & Hbr).
  unfold Vector_Capacity, RawMemory_Capacity in Hcap.
  assert (Hkeep_rhs : ∀ w', next_block w' = next_block w →
            (∀ b, off_block b (buffer_ (data_ a)) → heap w' !! b = heap w !! b) →
            Vector_repr w' rhs ys).
  { intros w' Hnx Hfr. eapply (Vector_repr_frame w); [done|lia|].
    intros b Hoff. apply Hfr. by apply (off_block_disjoint a rhs). }
  unfold Vector_copy_assign. rewrite (bind_normal this _ _ _ _ eq_refl). cbn [fst].
  destruct (Nat.ltb_spec (RawMemory_Capacity (data_ a)) (size_ rhs)) as [Hlt|_];
    [unfold RawMemory_Capacity in Hlt; lia|].
  destruct (Nat.ltb_spec (size_ rhs) (size_ a)) as [Hshrink|Hgrow].
  - (* fewer elements than before *)
    destruct (Vector_copy_prefix w a rhs xs ys (length ys) Hn Ha Hr Hdisj ltac:(lia) (le_n _))
      as (w1 & Hrun1 & Ha1 & Hfr1 & Hnx1).
    rewrite firstn_all in Ha1. rewrite <- Hsr in Hrun1.
    destruct Ha1 as (_ & _ & Hba1).
    destruct a as [[bufa capa] na]. cbn [data_ size_ buffer_ capacity_] in *.
    destruct bufa as [[ba oa]|]; [|lia]. destruct Hba1 as (-> & _ & Hh1).
    destruct (destroy_n_spec (na - size_ rhs) ba (0 + size_ rhs) w1 _ Hh1)
      as (w2 & blk2 & Hrun2 & Hb2 & Hl2 & Hraw & Hsame & Hfr2 & Hnx2).
    { rewrite length_slots_of; rewrite ?length_app, ?length_drop; lia. }
    { intros j Hj.
      destruct (lookup_lt_is_Some_2 (ys ++ drop (length ys) xs) j) as [y Hy].
      { rewrite length_app, length_drop. lia. }
      exists y. by apply lookup_slots_of_live. }
    exists w2. split.
    { erewrite bind_normal; cycle 1.
      { rewrite (bind_normal _ _ _ _ _ (lift_eq _ _ _ _ _ Hrun1)).
        rewrite (bind_normal _ _ _ _ _
                   (lift_eq _ _ _ _ _
                      (RawMemory_plus_ok (mkRawMemory (Some (ba, 0)) capa) (size_ rhs) w1
                         ltac:(cbn; lia)))).
        cbn [ptr_add buffer_]. apply lift_eq, Hrun2. }
      destruct (Nat.leb_spec na (size_ rhs)) as [|_]; [lia|].
      rewrite (bind_normal (ret tt) _ _ _ _ eq_refl). cbn. by rewrite Hsr. }
    assert (Hfr : ∀ b, off_block b (Some (ba, 0)) → heap w2 !! b = heap w !! b).
    { intros b Hoff. rewrite Hfr2 by (intros ->; by apply (Hoff 0)). by apply Hfr1. }
    split.
    { split; [done|]. cbn [data_ size_ buffer_ capacity_]. split; [lia|].
      split; [done|]. split; [lia|]. rewrite Hb2. f_equal.
      apply slots_of_intro.
      - rewrite Hl2, length_slots_of; rewrite ?length_app, ?length_drop; lia.
      - lia.
      - intros j y Hy. pose proof (lookup_lt_Some _ _ _ Hy) as Hj.
        rewrite Hsame by lia. apply lookup_slots_of_live. by rewrite lookup_app_l.
      - intros j Hj. destruct (decide (j < na)) as [Hjn|Hjn].
        + apply Hraw. lia.
        + rewrite Hsame by lia. apply lookup_slots_of_raw.
          rewrite length_app, length_drop. lia. }
    split; [apply Hkeep_rhs; [congruence|done]|]. split; [done|congruence].
  - (* as many elements as before, or an empty target *)
    rewrite (bind_normal (ret tt) _ _ _ _ eq_refl).
    destruct (Nat.leb_spec (size_ a) (size_ rhs)) as [_|]; [|lia].
    destruct (Vector_copy_prefix w a rhs xs ys (size_ a) Hn Ha Hr Hdisj ltac:(lia) ltac:(lia))
      as (w1 & Hrun1 & Ha1 & Hfr1 & Hnx1).
    rewrite (drop_ge xs) in Ha1 by lia. rewrite app_nil_r in Ha1.
    assert (Hplus : RawMemory_plus (data_ rhs) (size_ a) w1 =
                      (Normal (ptr_add (buffer_ (data_ rhs)) (size_ a)), w1)).
    { apply RawMemory_plus_ok. lia. }
    destruct (decide (size_ rhs = size_ a)) as [Heq|Hne].
    + (* the same number of elements *)
      exists w1. split.
      { erewrite bind_normal; cycle 1.
        { rewrite (bind_normal _ _ _ _ _ (lift_eq _ _ _ _ _ Hrun1)).
          rewrite (bind_normal _ _ _ _ _ (lift_eq _ _ _ _ _ Hplus)).
          rewrite Heq, Nat.sub_diag. reflexivity. }
        cbn. by rewrite Hsr. }
      rewrite firstn_all2 in Ha1 by lia.
      split.
      { destruct Ha1 as (_ & Hl1 & Hb1). split; [done|]. split; [done|]. done. }
      split; [by apply Hkeep_rhs|done].
    + (* an empty target *)
      destruct Hcase as [Hle | ->]; [lia|]. cbn [length] in *.
      rewrite Hsa in *. rewrite take_0 in Ha1.
      destruct a as [[bufa capa] na]. destruct rhs as [[bufr capr] nr].
      unfold disjoint_buffers in Hdisj.
      cbn [data_ size_ buffer_ capacity_ Vector_begin RawMemory_GetAddress] in *.
      subst na. destruct bufa as [[ba oa]|]; [|lia]. destruct bufr as [[br o2]|]; [|lia].
      destruct Ha1 as (_ & _ & -> & Hba1 & Hh1). destruct Hbr as (-> & Hbr & Hhr).
      cbn [data_ capacity_ buffer_ size_ take] in Hh1.
      assert (Hhr1 : heap w1 !! br = Some (slots_of ys capr)).
      { rewrite Hfr1; [done|]. intros o [= -> _]. done. }
      destruct (uninitialized_copy_loop_spec ba 0 br (0 + 0) Hn ltac:(done) nr 0 w1 _ _ Hh1 Hhr1)
        as (w2 & dblk2 & Hrun2 & Hd2 & Hfr2 & Hnx2 & Hl2 & Hin2 & Hout2).
      { rewrite length_slots_of; cbn; lia. }
      { intros j Hj. destruct (lookup_lt_is_Some_2 ys j) as [y Hy]; [lia|].
        exists y. by apply lookup_slots_of_live. }
      exists w2. split.
      { erewrite bind_normal; cycle 1.
        { rewrite (bind_normal _ _ _ _ _ (lift_eq _ _ _ _ _ Hrun1)).
          rewrite (bind_normal _ _ _ _ _ (lift_eq _ _ _ _ _ Hplus)).
          cbn [ptr_add buffer_]. rewrite Nat.sub_0_r.
          apply lift_eq. exact Hrun2. }
        cbn. by rewrite Hsr. }
      assert (Hfr : ∀ b, off_block b (Some (ba, 0)) → heap w2 !! b = heap w !! b).
      { intros b Hoff. rewrite Hfr2 by (intros ->; by apply (Hoff 0)). by apply Hfr1. }
      split.
      { split; [done|]. cbn [data_ size_ buffer_ capacity_]. split; [lia|].
        split; [done|]. split; [lia|]. rewrite Hd2. f_equal.
        apply slots_of_intro.
        - rewrite Hl2, length_slots_of; cbn; lia.
        - lia.
        - intros j y Hy. pose proof (lookup_lt_Some _ _ _ Hy) as Hj.
          rewrite (Hin2 j ltac:(lia) : dblk2 !! j = _).
          by apply lookup_slots_of_live.
        - intros j Hj. rewrite Hout2 by lia. apply lookup_slots_of_raw. cbn. lia. }
      split; [apply Hkeep_rhs; [congruence|done]|]. split; [done|congruence].
Qed.

(** The copy assignment that reallocates, when the destructor of [a]'s
    former contents does not return. *)
Lemma Vector_copy_assign_grow_undefined (w : World T) (a rhs : Vector) (xs ys : list T) :
  no_throw → Vector_repr w a xs → Vector_repr w rhs ys →
  Vector_Capacity a < length ys →
  is_trivially_destructible || (length xs <=? 1) = false →
  (Vector_copy_assign false rhs (a, w)).1 = Undefined.
Proof.
  intros Hn Ha Hr Hcap Hbad. pose proof Hr as (Hsr & _).
  destruct (Vector_copy_ctor_spec rhs ys w Hn Hr)
    as (rc & w1 & Hrun1 & Hrc1 & Hr1 & Hdata & Hkeep & Hnx1).
  assert (Ha1 : Vector_repr w1 a xs) by (by eapply Vector_repr_keeps).
  pose proof (Vector_dtor_undefined w1 a xs Ha1 Hbad) as Hundef.
  unfold Vector_copy_assign. rewrite (bind_normal this _ _ _ _ eq_refl). cbn [fst].
  unfold Vector_Capacity in Hcap.
  destruct (Nat.ltb_spec (RawMemory_Capacity (data_ a)) (size_ rhs)) as [_|]; [|lia].
  rewrite (bind_normal _ _ _ _ _ (lift_eq _ _ _ _ _ Hrun1)).
  unfold Vector_Swap. rewrite RawMemory_Swap_eq.
  rewrite (bind_normal (set_this _) _ _ _ _ eq_refl). cbn [fst snd].
  destruct a as [[bufa capa] na]. cbn [data_ size_ buffer_ capacity_] in *.
  unfold lift. cbn [fst snd].
  destruct (Vector_dtor _ w1) as [o w2]. cbn in Hundef. by subst o.
Qed.

(** [a = rhs] for two distinct vectors, when nothing throws. When [rhs]
    is not longer than the capacity of [a], and is not longer than [a]
    or [a] is empty, [a] comes to hold the sequence of [rhs] in the
    buffer it had, and [rhs] is as it was. When [rhs] is longer than the
    capacity of [a], a copy is built in a new buffer and the former
    contents of [a] are handed to [~Vector()]: if the destructor of [T]
    is trivial or [a] held at most one element, [a] comes to hold the
    sequence of [rhs], the old buffer is released and [rhs] is as it
    was; otherwise the behaviour is undefined. *)
Theorem Vector_copy_assign_copies (w : World T) (a rhs : Vector) (xs ys : list T) :
  no_throw → Vector_repr w a xs → Vector_repr w rhs ys → disjoint_buffers a rhs →
  (length ys ≤ Vector_Capacity a → length ys ≤ length xs ∨ xs = [] →
   ∃ a' w',
     Vector_copy_assign false rhs (a, w) = (Normal tt, (a', w')) ∧
     Vector_repr w' a' ys ∧ Vector_repr w' rhs ys ∧
     data_ a' = data_ a ∧
     (∀ b, off_block b (buffer_ (data_ a)) → keeps T b w w')) ∧
  (Vector_Capacity a < length ys →
   if is_trivially_destructible || (length xs <=? 1)
   then ∃ a' w',
          Vector_copy_assign false rhs (a, w) = (Normal tt, (a', w')) ∧
          Vector_repr w' a' ys ∧ Vector_repr w' rhs ys ∧
          Vector_Capacity a' = length ys ∧
          (∀ b o, buffer_ (data_ a) = Some (b, o) → heap w' !! b = None) ∧
          (∀ b, off_block b (buffer_ (data_ a)) → keeps T b w w')
   else (Vector_copy_assign false rhs (a, w)).1 = Undefined).
Proof.
  intros Hn Ha Hr Hdisj. split.
  - intros Hge Hcase.
    destruct (Vector_copy_assign_in_place w a rhs xs ys Hn Ha Hr Hdisj Hge Hcase)
      as (w' & Hrun & Ha' & Hr' & Hfr & Hnx).
    eexists _, w'. split; [exact Hrun|]. split; [done|]. split; [done|]. split; [done|].
    intros b Hoff Hb. split; [lia|]. by apply Hfr.
  - intros Hlt. destruct (is_trivially_destructible || (length xs <=? 1)) eqn:Hok.
    + destruct (Vector_copy_assign_grow w a rhs xs ys Hn Ha Hr Hdisj Hlt Hok)
        as (a' & w' & Hrun & Ha' & Hr' & Hdata & Hrel & Hkeep).
      exists a', w'. split; [done|]. split; [done|]. split; [done|].
      split; [unfold Vector_Capacity; by rewrite Hdata|]. done.
    + by apply (Vector_copy_assign_grow_undefined w a rhs xs ys).
Qed.

(** [a = std::move(rhs)] for two distinct vectors, whatever the
    operations of [T] throw. When [rhs] is not longer than the capacity
    of [a], the two buffers are exchanged, both objects get the size of
    [rhs] and the store is not touched. When [rhs] is longer, [a] takes
    over the buffer and the size of [rhs], [rhs] is left empty without
    a buffer, and the former contents of [a] are handed to
    [~Vector()]: if the destructor of [T] is trivial or [a] held at
    most one element, the old buffer is released and nothing else is
    touched; otherwise the behaviour is undefined. *)
Theorem Vector_move_assign_takes (w : World T) (a rhs : Vector) (xs ys : list T) :
  Vector_repr w a xs → Vector_repr w rhs ys → disjoint_buffers a rhs →
  (length ys ≤ Vector_Capacity a →
   Vector_move_assign false rhs (a, w) =
     (Normal (mkVector (data_ a) (length ys)), (rhs, w))) ∧
  (Vector_Capacity a < length ys →
   if is_trivially_destructible || (length xs <=? 1)
   then ∃ w',
          Vector_move_assign false rhs (a, w) = (Normal Vector_default, (rhs, w')) ∧
          Vector_repr w' rhs ys ∧
          (∀ b o, buffer_ (data_ a) = Some (b, o) → heap w' !! b = None) ∧
          (∀ b, off_block b (buffer_ (data_ a)) → heap w' !! b = heap w !! b)
   else (Vector_move_assign false rhs (a, w)).1 = Undefined).
Proof.
  intros Ha Hr Hdisj. pose proof Hr as (Hsr & _). split.
  - intros Hge. rewrite Vector_move_assign_in_place by lia. rewrite Hsr.
    destruct rhs as [datar nr]. cbn [size_ data_] in *. by rewrite Hsr.
  - intros Hlt.
    assert (Hrun : Vector_move_assign false rhs (a, w) =
              (r <- lift (Vector_dtor a) ;; ret Vector_default) (rhs, w)).
    { unfold Vector_move_assign. rewrite (bind_normal this _ _ _ _ eq_refl). cbn [fst].
      unfold Vector_Capacity in Hlt.
      destruct (Nat.ltb_spec (RawMemory_Capacity (data_ a)) (size_ rhs)) as [_|]; [|lia].
      unfold Vector_move_ctor, RawMemory_move_ctor. rewrite RawMemory_Swap_eq.
      unfold Vector_Swap. rewrite RawMemory_Swap_eq. cbn [data_ size_].
      rewrite (bind_normal (set_this _) _ _ _ _ eq_refl). cbn [fst snd].
      destruct a as [[bufa capa] na]. by destruct rhs as [[bufr capr] nr]. }
    rewrite Hrun.
    destruct (is_trivially_destructible || (length xs <=? 1)) eqn:Hok.
    + destruct (Vector_dtor_spec w a xs Ha Hok) as (w2 & Hrun2 & Hnx2 & Hfr2 & Hrel).
      exists w2. split.
      { by rewrite (bind_normal _ _ _ _ _ (lift_eq _ _ _ _ _ Hrun2)). }
      split.
      { eapply (Vector_repr_frame w); [done|lia|].
        intros b Hoff. apply Hfr2. by apply (off_block_disjoint a rhs). }
      split; [|done].
      intros b o Hb. rewrite Hb in Hrel. by destruct Hrel.
    + pose proof (Vector_dtor_undefined w a xs Ha Hok) as Hundef.
      unfold bind, lift. cbn [fst snd].
      destruct (Vector_dtor a w) as [o w2]. cbn in Hundef. by subst o.
Qed.

(** When the copy assignment that reallocates throws, the exception
    comes from building the copy: [a], [rhs] and every allocation that
    existed are as they were. *)
Theorem Vector_copy_assign_strong (w w' : World T) (a a' rhs : Vector) (xs ys : list T)
    (e : exn) :
  Vector_repr w a xs → Vector_repr w rhs ys → Vector_Capacity a < length ys →
  Vector_copy_assign false rhs (a, w) = (Thrown e, (a', w')) →
  a' = a ∧ Vector_repr w' a xs ∧ Vector_repr w' rhs ys ∧ ∀ b, keeps T b w w'.
Proof.
  intros Ha Hr Hcap. pose proof Hr as (Hsr & _).
  unfold Vector_copy_assign. rewrite (bind_normal this _ _ _ _ eq_refl). cbn [fst].
  unfold Vector_Capacity in Hcap.
  destruct (Nat.ltb_spec (RawMemory_Capacity (data_ a)) (size_ rhs)) as [_|]; [|lia].
  pose proof (Vector_copy_ctor_cases rhs ys w Hr) as Hc.
  unfold bind at 1, lift at 1. cbn [fst snd].
  destruct (Vector_copy_ctor rhs w) as [[rc|e0|] w1]; [| |done].
  - unfold Vector_Swap. rewrite RawMemory_Swap_eq.
    rewrite (bind_normal (set_this _) _ _ _ _ eq_refl). cbn [fst snd].
    intros Hthrown. exfalso.
    exact (raises_lift never _ (raises_Vector_dtor _) _ e (f_equal fst Hthrown)).
  - intros [= <- <- <-]. destruct Hc as (_ & Hr1 & Hkeep & _).
    split; [done|]. split; [by eapply Vector_repr_keeps|]. done.
Qed.

End AssignmentBetween.

(** ** Appending when the capacity suffices *)

Section SpareCapacity.
Context {T : Type} `{ElementType T} `{Faults T}.

(** A constructor call that throws has changed nothing. *)
Lemma construct_in_thrown (dst : ptr) (ev : loc → event T) (x : T)
    (w w' : World T) (e : exn) :
  construct_in dst ev x w = (Thrown e, w') → w' = w.
Proof.
  unfold construct_in. destruct dst as [l|]; [|done].
  destruct (slot_at w (Some l)); [|done].
  destruct (raises w (ev l)); [|done]. by intros [= _ <-].
Qed.

Lemma construct_from_thrown (dst : ptr) (args : EmplaceArgs T)
    (w w' : World T) (e : exn) :
  construct_from dst args w = (Thrown e, w') → w' = w.
Proof.
  destruct args as [[y|p]|y]; cbn [construct_from].
  - apply construct_in_thrown.
  - unfold copy_construct, bind.
    destruct (read p w) as [[x| |] w0] eqn:Hread.
    + apply read_normal in Hread as ->. apply construct_in_thrown.
    + unfold read in Hread. by repeat case_match.
    + done.
  - apply construct_in_thrown.
Qed.

Lemma Vector_EmplaceBack_thrown (args : EmplaceArgs T) (v : Vector) (w : World T)
    (e : exn) (s' : Vector * World T) :
  size_ v < Vector_Capacity v →
  Vector_EmplaceBack args (v, w) = (Thrown e, s') → s' = (v, w).
Proof.
  intros Hlt. unfold Vector_Capacity, RawMemory_Capacity in Hlt.
  unfold Vector_EmplaceBack. rewrite (bind_normal this _ _ _ _ eq_refl). cbn [fst].
  unfold Vector_end.
  rewrite (bind_normal _ _ _ _ _
             (lift_eq _ _ _ _ _ (RawMemory_plus_ok (data_ v) (size_ v) w ltac:(lia)))).
  unfold Vector_Emplace. rewrite (bind_normal this _ _ _ _ eq_refl). cbn [fst].
  destruct (Nat.eqb_spec (size_ v) (RawMemory_Capacity (data_ v))) as [Heq|_];
    [unfold RawMemory_Capacity in Heq; lia|].
  unfold Vector_NoReallocationEmplace. rewrite (bind_normal this _ _ _ _ eq_refl). cbn [fst].
  unfold Vector_end.
  rewrite (bind_normal _ _ _ _ _
             (lift_eq _ _ _ _ _ (RawMemory_plus_ok (data_ v) (size_ v) w ltac:(lia)))).
  destruct (decide (ptr_add (buffer_ (data_ v)) (size_ v) =
                    ptr_add (buffer_ (data_ v)) (size_ v))) as [_|]; [|done].
  unfold bind at 1. unfold bind at 1.
  rewrite (lift_eq _ _ _ _ _ (RawMemory_plus_ok (data_ v) (size_ v) w ltac:(lia))).
  unfold lift at 1. cbn [fst snd].
  destruct (construct_from _ args w) as [[[]|e0|] w1] eqn:Hc; [done| |done].
  apply construct_from_thrown in Hc as ->. by intros [= _ <-].
Qed.

(** An append that finds spare capacity and fails has changed nothing:
    when [EmplaceBack] or [PushBack] leaves by an exception, the vector
    and the store are exactly as before the call. *)
Theorem Vector_PushBack_spare_capacity_strong (v : Vector) (w : World T)
    (e : exn) (s' : Vector * World T) :
  size_ v < Vector_Capacity v →
  (∀ args, Vector_EmplaceBack args (v, w) = (Thrown e, s') → s' = (v, w)) ∧
  (∀ value, Vector_PushBack_copy value (v, w) = (Thrown e, s') → s' = (v, w)) ∧
  (∀ x, Vector_PushBack_move x (v, w) = (Thrown e, s') → s' = (v, w)).
Proof.
  intros Hlt. split; [|split].
  - intros args. by apply Vector_EmplaceBack_thrown.
  - intros value. unfold Vector_PushBack_copy, bind.
    destruct (Vector_EmplaceBack (ByCopy value) (v, w)) as [[p|e0|] s1] eqn:Hrun; [done| |done].
    apply Vector_EmplaceBack_thrown in Hrun as ->; [|done]. by intros [= _ <-].
  - intros x. unfold Vector_Capacity, RawMemory_Capacity in Hlt.
    unfold Vector_PushBack_move. rewrite (bind_normal this _ _ _ _ eq_refl). cbn [fst].
    destruct (Nat.eqb_spec (size_ v) (RawMemory_Capacity (data_ v))) as [Heq|_];
      [unfold RawMemory_Capacity in Heq; lia|].
    rewrite (bind_normal _ _ _ _ _
               (lift_eq _ _ _ _ _ (RawMemory_plus_ok (data_ v) (size_ v) w ltac:(lia)))).
    unfold bind, lift. cbn [fst snd]. unfold move_construct_at.
    destruct (construct_in _ _ x w) as [[[]|e0|] w1] eqn:Hc; [done| |done].
    apply construct_in_thrown in Hc as ->. by intros [= _ <-].
Qed.

End SpareCapacity.

(** ** The theorems above on concrete vectors of [int] *)

Lemma Vector_at_bounds_witness :
  let H := int_type in
  let F := no_faults Z in
  let w : World Z := mkWorld {[ 0 := [Live 4; Live 5; Raw]%Z ]} 1 [] in
  let v := mkVector (mkRawMemory (Some (0, 0)) 3) 2 in
  Vector_repr w v [4; 5]%Z ∧
  Vector_at v 1 w = (Normal 5%Z, w) ∧
  Vector_at v 2 w = (Undefined, w).
Proof.
  intros HT HF w v.
  assert (Hrepr : Vector_repr w v [4; 5]%Z) by holds_by_computation.
  split; [exact Hrepr|]. split.
  - exact (Vector_at_bounds w v [4; 5]%Z 1 Hrepr).
  - exact (Vector_at_bounds w v [4; 5]%Z 2 Hrepr).
Defined.

Lemma Vector_iterator_range_witness :
  let H := int_type in
  let F := no_faults Z in
  let w : World Z := mkWorld {[ 0 := [Live 4; Live 5; Raw]%Z ]} 1 [] in
  let v := mkVector (mkRawMemory (Some (0, 0)) 3) 2 in
  Vector_repr w v [4; 5]%Z ∧
  Vector_end v w = (Normal (Some (0, 2)), w) ∧
  read (ptr_add (Vector_begin v) 1) w = (Normal 5%Z, w).
Proof.
  intros HT HF w v.
  assert (Hrepr : Vector_repr w v [4; 5]%Z) by holds_by_computation.
  split; [exact Hrepr|].
  destruct (Vector_iterator_range w v [4; 5]%Z Hrepr) as (Hend & _ & Hread).
  split; [exact Hend|]. exact (Hread 1 5%Z eq_refl).
Defined.

Lemma RawMemory_sized_dtor_witness :
  let H := int_type in
  let F := no_faults Z in
  let w := empty_world Z in
  let m := mkRawMemory (Some (0, 0)) 2 in
  let w1 : World Z := mkWorld {[ 0 := [Raw; Raw] ]} 1 [EvAllocate 0 2] in
  RawMemory_sized 2 w = (Normal m, w1) ∧
  ∃ w2, RawMemory_dtor m w1 = (Normal tt, w2) ∧
        heap w2 !! 0 = None ∧
        trace w2 = [EvAllocate 0 2; EvDeallocate 0].
Proof.
  intros HT HF w m w1.
  assert (Hrun : RawMemory_sized 2 w = (Normal m, w1)) by (vm_compute; reflexivity).
  split; [exact Hrun|].
  destruct (RawMemory_sized_dtor 2 w w1 m Hrun) as (w2 & Hdtor & _ & Hpos & _).
  exists w2. split; [exact Hdtor|]. exact (Hpos ltac:(lia)).
Defined.

Lemma Vector_sized_spec_witness :
  let H := int_type in
  let F := no_faults Z in
  no_throw ∧ allocation_fits 2 ∧
  ∃ v w', Vector_sized 2 (empty_world Z) = (Normal v, w') ∧
          Vector_repr w' v [0; 0]%Z ∧
          Vector_Size v = 2 ∧ Vector_Capacity v = 2.
Proof.
  intros HT HF.
  assert (Hn : no_throw) by (intros tr e; reflexivity).
  assert (Hfit : allocation_fits 2) by reflexivity.
  split; [exact Hn|]. split; [exact Hfit|].
  destruct (Vector_sized_spec 2 (empty_world Z) Hn Hfit)
    as (v & w' & Hrun & Hrepr & Hsize & Hcap & _).
  exists v, w'. split; [exact Hrun|]. split; [exact Hrepr|]. split; [exact Hsize|exact Hcap].
Defined.

(** [Vector(3)] when the default constructor throws on the second
    element: the first element is destroyed and the buffer released. *)
Lemma Vector_sized_outcome_witness :
  let H := throwing_type in
  let F := second_value_throws in
  allocation_fits 3 ∧
  ∃ w', Vector_sized 3 (empty_world Z) = (Thrown element_exn, w') ∧
        heap w' !! 0 = None ∧
        trace w' = [EvAllocate 0 3; EvValueCtor (Slot (0, 0)); EvDtor (Slot (0, 0));
                    EvDeallocate 0].
Proof.
  intros HT HF.
  assert (Hfit : allocation_fits 3) by reflexivity.
  split; [exact Hfit|].
  pose proof (Vector_sized_outcome 3 (empty_world Z) Hfit) as Ho.
  destruct (Vector_sized 3 (empty_world Z)) as [[v|e|] w'] eqn:Hrun;
    [vm_compute in Hrun; discriminate Hrun| |destruct Ho].
  assert (He : e = element_exn) by (vm_compute in Hrun; congruence).
  subst e. exists w'. split; [reflexivity|].
  destruct Ho as (_ & _ & [[Hba _]|(_ & Hnone & _)]); [discriminate Hba|].
  split; [exact Hnone|].
  vm_compute in Hrun. injection Hrun as <-. vm_compute; reflexivity.
Defined.

Lemma Vector_copy_ctor_copies_witness :
  let H := int_type in
  let F := no_faults Z in
  let w : World Z := mkWorld {[ 0 := [Live 4; Live 5; Raw]%Z ]} 1 [] in
  let other := mkVector (mkRawMemory (Some (0, 0)) 3) 2 in
  no_throw ∧ Vector_repr w other [4; 5]%Z ∧
  ∃ v w', Vector_copy_ctor other w = (Normal v, w') ∧
          Vector_repr w' v [4; 5]%Z ∧
          Vector_repr w' other [4; 5]%Z ∧
          Vector_Capacity v = 2 ∧
          disjoint_buffers v other.
Proof.
  intros HT HF w other.
  assert (Hn : no_throw) by (intros tr e; reflexivity).
  assert (Hrepr : Vector_repr w other [4; 5]%Z) by holds_by_computation.
  split; [exact Hn|]. split; [exact Hrepr|].
  destruct (Vector_copy_ctor_copies other [4; 5]%Z w Hn Hrepr)
    as (v & w' & Hrun & Hv & Ho & Hcap & Hdisj & _).
  exists v, w'. split; [exact Hrun|]. split; [exact Hv|]. split; [exact Ho|].
  split; [exact Hcap|exact Hdisj].
Defined.

(** The copy of the second of three elements throws: the first copy is
    destroyed and the buffer released. *)
Lemma Vector_copy_ctor_outcome_witness :
  let H := throwing_type in
  let F := copy_of_2_throws in
  let w : World Z := mkWorld {[ 0 := [Live 1; Live 2; Live 3]%Z ]} 1 [] in
  let other := mkVector (mkRawMemory (Some (0, 0)) 3) 3 in
  Vector_repr w other [1; 2; 3]%Z ∧
  ∃ w', Vector_copy_ctor other w = (Thrown element_exn, w') ∧
        Vector_repr w' other [1; 2; 3]%Z ∧
        heap w' !! 1 = None ∧
        trace w' = [EvAllocate 1 3; EvCopyCtor (Slot (1, 0)) 1%Z;
                    EvDtor (Slot (1, 0)); EvDeallocate 1].
Proof.
  intros HT HF w other.
  assert (Hrepr : Vector_repr w other [1; 2; 3]%Z) by holds_by_computation.
  split; [exact Hrepr|].
  pose proof (Vector_copy_ctor_outcome other [1; 2; 3]%Z w Hrepr) as Ho.
  destruct (Vector_copy_ctor other w) as [[v|e|] w'] eqn:Hrun;
    [vm_compute in Hrun; discriminate Hrun| |destruct Ho].
  assert (He : e = element_exn) by (vm_compute in Hrun; congruence).
  subst e. exists w'. split; [reflexivity|].
  destruct Ho as (_ & Ho & _ & _). split; [exact Ho|].
  vm_compute in Hrun. injection Hrun as <-. split; vm_compute; reflexivity.
Defined.

(** The destructor of a vector holding 4, 5: for [int] it returns after
    two destructor calls on the first slot; for a type whose destructor
    is not trivial it has no defined behaviour. *)
Lemma Vector_dtor_releases_witness :
  let w : World Z := mkWorld {[ 0 := [Live 4; Live 5; Raw]%Z ]} 1 [] in
  let v := mkVector (mkRawMemory (Some (0, 0)) 3) 2 in
  (let H := int_type in
   let F := no_faults Z in
   Vector_repr w v [4; 5]%Z ∧
   ∃ w', Vector_dtor v w = (Normal tt, w') ∧
         heap w' !! 0 = None ∧
         trace w' = [EvDtor (Slot (0, 0)); EvDtor (Slot (0, 0)); EvDeallocate 0]) ∧
  (let H := throwing_type in
   let F := no_faults Z in
   Vector_repr w v [4; 5]%Z ∧ (Vector_dtor v w).1 = Undefined).
Proof.
  intros w v. split.
  - intros HT HF.
    assert (Hrepr : Vector_repr w v [4; 5]%Z) by holds_by_computation.
    split; [exact Hrepr|].
    destruct (@Vector_dtor_releases Z HT w v [4; 5]%Z Hrepr)
      as (w' & Hrun & _ & _ & Hrel).
    exists w'. split; [exact Hrun|]. exact Hrel.
  - intros HT HF.
    assert (Hrepr : Vector_repr w v [4; 5]%Z) by holds_by_computation.
    split; [exact Hrepr|].
    exact (@Vector_dtor_releases Z HT w v [4; 5]%Z Hrepr).
Defined.

Lemma Vector_Reserve_keeps_contents_witness :
  let H := int_type in
  let F := no_faults Z in
  let w : World Z := mkWorld {[ 0 := [Live 4; Live 5; Raw]%Z ]} 1 [] in
  let v := mkVector (mkRawMemory (Some (0, 0)) 3) 2 in
  no_throw ∧ Vector_repr w v [4; 5]%Z ∧ allocation_fits 3 ∧
  ∃ v' w', Vector_Reserve 3 (v, w) = (Normal tt, (v', w')) ∧
           Vector_repr w' v' [4; 5]%Z ∧
           Vector_Capacity v' = 3 ∧
           heap w' !! 0 = None ∧
           buffer_ (data_ v') = Some (1, 0).
Proof.
  intros HT HF w v.
  assert (Hn : no_throw) by (intros tr e; reflexivity).
  assert (Hrepr : Vector_repr w v [4; 5]%Z) by holds_by_computation.
  assert (Hfit : allocation_fits 3) by reflexivity.
  split; [exact Hn|]. split; [exact Hrepr|]. split; [exact Hfit|].
  destruct (Vector_Reserve_keeps_contents 3 w v [4; 5]%Z Hn Hrepr (λ _, Hfit))
    as (v' & w' & Hrun & Hrepr' & Hcap & _ & Hge & _).
  destruct (Hge (le_n 3)) as [Hold Hnew].
  exists v', w'. split; [exact Hrun|]. split; [exact Hrepr'|]. split; [exact Hcap|].
  split; [exact (Hold 0 0 eq_refl)|]. apply Hnew. lia.
Defined.

Lemma Vector_Resize_contents_witness :
  let H := int_type in
  let F := no_faults Z in
  let w : World Z := mkWorld {[ 0 := [Live 4; Live 5; Raw]%Z ]} 1 [] in
  let v := mkVector (mkRawMemory (Some (0, 0)) 3) 2 in
  no_throw ∧ Vector_repr w v [4; 5]%Z ∧ allocation_fits 4 ∧
  (∃ v' w', Vector_Resize 4 (v, w) = (Normal tt, (v', w')) ∧
            Vector_repr w' v' [4; 5; 0; 0]%Z ∧ Vector_Capacity v' = 4) ∧
  (∃ v' w', Vector_Resize 1 (v, w) = (Normal tt, (v', w')) ∧
            Vector_repr w' v' [4]%Z ∧ Vector_Capacity v' = 3).
Proof.
  intros HT HF w v.
  assert (Hn : no_throw) by (intros tr e; reflexivity).
  assert (Hrepr : Vector_repr w v [4; 5]%Z) by holds_by_computation.
  assert (Hfit : allocation_fits 4) by reflexivity.
  split; [exact Hn|]. split; [exact Hrepr|]. split; [exact Hfit|]. split.
  - destruct (Vector_Resize_contents 4 w v [4; 5]%Z Hn Hrepr (λ _, Hfit))
      as (v' & w' & Hrun & Hrepr' & Hcap & _).
    exists v', w'. split; [exact Hrun|]. split; [exact Hrepr'|exact Hcap].
  - destruct (Vector_Resize_contents 1 w v [4; 5]%Z Hn Hrepr)
      as (v' & w' & Hrun & Hrepr' & Hcap & _).
    { cbn. lia. }
    exists v', w'. split; [exact Hrun|]. split; [exact Hrepr'|exact Hcap].
Defined.

Lemma Vector_PopBack_removes_last_witness :
  let H := int_type in
  let F := no_faults Z in
  let w : World Z := mkWorld {[ 0 := [Live 4; Live 5; Raw]%Z ]} 1 [] in
  let v := mkVector (mkRawMemory (Some (0, 0)) 3) 2 in
  Vector_repr w v ([4] ++ [5])%Z ∧
  ∃ w', Vector_PopBack (v, w) = (Normal tt, (mkVector (data_ v) 1, w')) ∧
        Vector_repr w' (mkVector (data_ v) 1) [4]%Z ∧
        trace w' = [EvDtor (Slot (0, 1))].
Proof.
  intros HT HF w v.
  assert (Hrepr : Vector_repr w v ([4] ++ [5])%Z) by holds_by_computation.
  split; [exact Hrepr|].
  destruct (Vector_PopBack_removes_last w v [4]%Z 5%Z Hrepr)
    as (b & w' & Hb & Hrun & Hrepr' & _ & _ & Htr).
  injection Hb as <-.
  exists w'. split; [exact Hrun|]. split; [exact Hrepr'|exact Htr].
Defined.

Lemma Vector_Erase_removes_witness :
  let H := int_type in
  let F := no_faults Z in
  let w : World Z := mkWorld {[ 0 := [Live 4; Live 5; Live 6; Raw]%Z ]} 1 [] in
  let v := mkVector (mkRawMemory (Some (0, 0)) 4) 3 in
  no_throw ∧ Vector_repr w v [4; 5; 6]%Z ∧ 1 < length [4; 5; 6]%Z ∧
  ∃ w', Vector_Erase (Some (0, 1)) (v, w) =
          (Normal (Some (0, 1)), (mkVector (data_ v) 2, w')) ∧
        Vector_repr w' (mkVector (data_ v) 2) [4; 6]%Z.
Proof.
  intros HT HF w v.
  assert (Hn : no_throw) by (intros tr e; reflexivity).
  assert (Hrepr : Vector_repr w v [4; 5; 6]%Z) by holds_by_computation.
  assert (Hk : 1 < length [4; 5; 6]%Z) by (cbn; lia).
  split; [exact Hn|]. split; [exact Hrepr|]. split; [exact Hk|].
  destruct (Vector_Erase_removes w v [4; 5; 6]%Z 1 Hn Hrepr Hk) as (w' & Hrun & Hrepr' & _).
  exists w'. split; [exact Hrun|exact Hrepr'].
Defined.

(** [v.PushBack(v[0])] on a full vector: the buffer is reallocated and
    the argument is an element of the vector. *)
Lemma Vector_PushBack_appends_witness :
  let H := int_type in
  let F := no_faults Z in
  let w : World Z := mkWorld {[ 0 := [Live 4; Live 5]%Z ]} 1 [] in
  let v := mkVector (mkRawMemory (Some (0, 0)) 2) 2 in
  no_throw ∧ Vector_repr w v [4; 5]%Z ∧
  (N.of_nat (size_ v) * 2 < size_t_modulus)%N ∧
  args_value v [4; 5]%Z (ByCopy (RefSlot (Some (0, 0)))) 4%Z ∧
  ∃ v' w', Vector_PushBack_copy (RefSlot (Some (0, 0))) (v, w) = (Normal tt, (v', w')) ∧
           Vector_repr w' v' [4; 5; 4]%Z.
Proof.
  intros HT HF w v.
  assert (Hn : no_throw) by (intros tr e; reflexivity).
  assert (Hrepr : Vector_repr w v [4; 5]%Z) by holds_by_computation.
  assert (Hfit : (N.of_nat (size_ v) * 2 < size_t_modulus)%N) by reflexivity.
  assert (Hargs : args_value v [4; 5]%Z (ByCopy (RefSlot (Some (0, 0)))) 4%Z)
    by (exists 0; split; reflexivity).
  split; [exact Hn|]. split; [exact Hrepr|]. split; [exact Hfit|]. split; [exact Hargs|].
  destruct (Vector_PushBack_appends w v [4; 5]%Z Hn Hrepr Hfit) as (_ & Hcopy & _).
  exact (Hcopy (RefSlot (Some (0, 0))) 4%Z Hargs).
Defined.

Lemma Vector_PushBack_PopBack_witness :
  let H := int_type in
  let F := no_faults Z in
  let w : World Z := mkWorld {[ 0 := [Live 4; Live 5]%Z ]} 1 [] in
  let v := mkVector (mkRawMemory (Some (0, 0)) 2) 2 in
  no_throw ∧ Vector_repr w v [4; 5]%Z ∧
  args_value v [4; 5]%Z (ByCopy (RefObject 7%Z)) 7%Z ∧
  (N.of_nat (size_ v) * 2 < size_t_modulus)%N ∧
  ∃ v1 w1 v2 w2,
    Vector_PushBack_copy (RefObject 7%Z) (v, w) = (Normal tt, (v1, w1)) ∧
    Vector_PopBack (v1, w1) = (Normal tt, (v2, w2)) ∧
    Vector_repr w2 v2 [4; 5]%Z ∧
    Vector_Capacity v2 = 4.
Proof.
  intros HT HF w v.
  assert (Hn : no_throw) by (intros tr e; reflexivity).
  assert (Hrepr : Vector_repr w v [4; 5]%Z) by holds_by_computation.
  assert (Hfit : (N.of_nat (size_ v) * 2 < size_t_modulus)%N) by reflexivity.
  assert (Hargs : args_value v [4; 5]%Z (ByCopy (RefObject 7%Z)) 7%Z) by reflexivity.
  split; [exact Hn|]. split; [exact Hrepr|]. split; [exact Hargs|]. split; [exact Hfit|].
  destruct (Vector_PushBack_PopBack w v [4; 5]%Z (RefObject 7%Z) 7%Z Hn Hrepr Hargs Hfit)
    as (v1 & w1 & v2 & w2 & Hpush & Hpop & Hrepr2 & _ & Hcap).
  exists v1, w1, v2, w2. split; [exact Hpush|]. split; [exact Hpop|].
  split; [exact Hrepr2|exact Hcap].
Defined.

Lemma Vector_Insert_Erase_witness :
  let H := int_type in
  let F := no_faults Z in
  let w : World Z := mkWorld {[ 0 := [Live 4; Live 5; Raw]%Z ]} 1 [] in
  let v := mkVector (mkRawMemory (Some (0, 0)) 3) 2 in
  no_throw ∧ Vector_repr w v [4; 5]%Z ∧ 1 ≤ length [4; 5]%Z ∧
  args_value v [4; 5]%Z (ByMove 7%Z) 7%Z ∧
  (N.of_nat (size_ v) * 2 < size_t_modulus)%N ∧
  ∃ p v1 w1 v2 w2,
    Vector_Insert_move (Some (0, 1)) 7%Z (v, w) = (Normal p, (v1, w1)) ∧
    Vector_repr w1 v1 [4; 7; 5]%Z ∧
    Vector_Erase p (v1, w1) = (Normal p, (v2, w2)) ∧
    Vector_repr w2 v2 [4; 5]%Z.
Proof.
  intros HT HF w v.
  assert (Hn : no_throw) by (intros tr e; reflexivity).
  assert (Hrepr : Vector_repr w v [4; 5]%Z) by holds_by_computation.
  assert (Hk : 1 ≤ length [4; 5]%Z) by (cbn; lia).
  assert (Hfit : (N.of_nat (size_ v) * 2 < size_t_modulus)%N) by reflexivity.
  assert (Hargs : args_value v [4; 5]%Z (ByMove 7%Z) 7%Z) by reflexivity.
  split; [exact Hn|]. split; [exact Hrepr|]. split; [exact Hk|]. split; [exact Hargs|].
  split; [exact Hfit|].
  destruct (Vector_Insert_Erase w v [4; 5]%Z 1 (ByMove 7%Z) 7%Z Hn Hrepr Hk Hargs Hfit)
    as (p & v1 & w1 & v2 & w2 & Hins & Hrepr1 & Herase & Hrepr2 & _).
  exists p, v1, w1, v2, w2. split; [exact Hins|]. split; [exact Hrepr1|].
  split; [exact Herase|exact Hrepr2].
Defined.

(** The cases: a longer source, for [int] and for a type whose
    destructor is not trivial; a shorter source; an empty target. *)
Lemma Vector_copy_assign_copies_witness :
  let w : World Z :=
    mkWorld {[ 0 := [Live 4; Live 5]%Z; 1 := [Live 1; Live 2; Live 3]%Z;
               2 := [Raw; Raw; Raw] ]} 3 [] in
  let a := mkVector (mkRawMemory (Some (0, 0)) 2) 2 in
  let rhs := mkVector (mkRawMemory (Some (1, 0)) 3) 3 in
  let c := mkVector (mkRawMemory (Some (2, 0)) 3) 0 in
  (let H := int_type in
   let F := no_faults Z in
   no_throw ∧ Vector_repr w a [4; 5]%Z ∧ Vector_repr w rhs [1; 2; 3]%Z ∧
   Vector_repr w c [] ∧
   (∃ a' w', Vector_copy_assign false rhs (a, w) = (Normal tt, (a', w')) ∧
             Vector_repr w' a' [1; 2; 3]%Z ∧ Vector_repr w' rhs [1; 2; 3]%Z) ∧
   (∃ rhs' w', Vector_copy_assign false a (rhs, w) = (Normal tt, (rhs', w')) ∧
               Vector_repr w' rhs' [4; 5]%Z ∧ Vector_repr w' a [4; 5]%Z) ∧
   (∃ c' w', Vector_copy_assign false rhs (c, w) = (Normal tt, (c', w')) ∧
             Vector_repr w' c' [1; 2; 3]%Z ∧ Vector_repr w' rhs [1; 2; 3]%Z)) ∧
  (let H := throwing_type in
   let F := no_faults Z in
   no_throw ∧ Vector_repr w a [4; 5]%Z ∧ Vector_repr w rhs [1; 2; 3]%Z ∧
   (Vector_copy_assign false rhs (a, w)).1 = Undefined).
Proof.
  intros w a rhs c. split.
  - intros HT HF.
    assert (Hn : no_throw) by (intros tr e; reflexivity).
    assert (Ha : Vector_repr w a [4; 5]%Z) by holds_by_computation.
    assert (Hr : Vector_repr w rhs [1; 2; 3]%Z) by holds_by_computation.
    assert (Hc : Vector_repr w c []) by holds_by_computation.
    split; [exact Hn|]. split; [exact Ha|]. split; [exact Hr|]. split; [exact Hc|].
    split; [|split].
    + destruct (proj2 (@Vector_copy_assign_copies Z HT HF w a rhs [4; 5]%Z [1; 2; 3]%Z
                         Hn Ha Hr ltac:(cbn; lia)) ltac:(cbn; lia))
        as (a' & w' & Hrun & Ha' & Hr' & _).
      exists a', w'. split; [exact Hrun|]. split; [exact Ha'|exact Hr'].
    + destruct (proj1 (@Vector_copy_assign_copies Z HT HF w rhs a [1; 2; 3]%Z [4; 5]%Z
                         Hn Hr Ha ltac:(cbn; lia)) ltac:(cbn; lia)
                  ltac:(left; cbn; lia))
        as (a' & w' & Hrun & Ha' & Hr' & _).
      exists a', w'. split; [exact Hrun|]. split; [exact Ha'|exact Hr'].
    + destruct (proj1 (@Vector_copy_assign_copies Z HT HF w c rhs [] [1; 2; 3]%Z
                         Hn Hc Hr ltac:(cbn; lia)) ltac:(cbn; lia)
                  ltac:(right; reflexivity))
        as (a' & w' & Hrun & Ha' & Hr' & _).
      exists a', w'. split; [exact Hrun|]. split; [exact Ha'|exact Hr'].
  - intros HT HF.
    assert (Hn : no_throw) by (intros tr e; reflexivity).
    assert (Ha : Vector_repr w a [4; 5]%Z) by holds_by_computation.
    assert (Hr : Vector_repr w rhs [1; 2; 3]%Z) by holds_by_computation.
    split; [exact Hn|]. split; [exact Ha|]. split; [exact Hr|].
    exact (proj2 (@Vector_copy_assign_copies Z HT HF w a rhs [4; 5]%Z [1; 2; 3]%Z
                    Hn Ha Hr ltac:(cbn; lia)) ltac:(cbn; lia)).
Defined.

(** The copy of the second element of [rhs] throws. *)
Lemma Vector_copy_assign_strong_witness :
  let H := throwing_type in
  let F := copy_of_2_throws in
  let w : World Z :=
    mkWorld {[ 0 := [Live 4; Live 5]%Z; 1 := [Live 1; Live 2; Live 3]%Z ]} 2 [] in
  let a := mkVector (mkRawMemory (Some (0, 0)) 2) 2 in
  let rhs := mkVector (mkRawMemory (Some (1, 0)) 3) 3 in
  Vector_repr w a [4; 5]%Z ∧ Vector_repr w rhs [1; 2; 3]%Z ∧
  Vector_Capacity a < length [1; 2; 3]%Z ∧
  ∃ w', Vector_copy_assign false rhs (a, w) = (Thrown element_exn, (a, w')) ∧
        Vector_repr w' a [4; 5]%Z ∧ Vector_repr w' rhs [1; 2; 3]%Z.
Proof.
  intros HT HF w a rhs.
  assert (Ha : Vector_repr w a [4; 5]%Z) by holds_by_computation.
  assert (Hr : Vector_repr w rhs [1; 2; 3]%Z) by holds_by_computation.
  assert (Hcap : Vector_Capacity a < length [1; 2; 3]%Z) by (cbn; lia).
  split; [exact Ha|]. split; [exact Hr|]. split; [exact Hcap|].
  eexists. split; [vm_compute; reflexivity|].
  refine (let Hs := Vector_copy_assign_strong w _ a a rhs [4; 5]%Z [1; 2; 3]%Z element_exn
                      Ha Hr Hcap _ in conj (proj1 (proj2 Hs)) (proj1 (proj2 (proj2 Hs)))).
  vm_compute; reflexivity.
Defined.

(** [a = std::move(rhs)] with a longer [rhs], for [int] and for a type
    whose destructor is not trivial. *)
Lemma Vector_move_assign_takes_witness :
  let w : World Z :=
    mkWorld {[ 0 := [Live 4; Live 5]%Z; 1 := [Live 1; Live 2; Live 3]%Z ]} 2 [] in
  let a := mkVector (mkRawMemory (Some (0, 0)) 2) 2 in
  let rhs := mkVector (mkRawMemory (Some (1, 0)) 3) 3 in
  (let H := int_type in
   let F := no_faults Z in
   Vector_repr w a [4; 5]%Z ∧ Vector_repr w rhs [1; 2; 3]%Z ∧ disjoint_buffers a rhs ∧
   ∃ w', Vector_move_assign false rhs (a, w) = (Normal Vector_default, (rhs, w')) ∧
         Vector_repr w' rhs [1; 2; 3]%Z ∧
         heap w' !! 0 = None) ∧
  (let H := throwing_type in
   let F := no_faults Z in
   Vector_repr w a [4; 5]%Z ∧ Vector_repr w rhs [1; 2; 3]%Z ∧ disjoint_buffers a rhs ∧
   (Vector_move_assign false rhs (a, w)).1 = Undefined).
Proof.
  intros w a rhs. split.
  - intros HT HF.
    assert (Ha : Vector_repr w a [4; 5]%Z) by holds_by_computation.
    assert (Hr : Vector_repr w rhs [1; 2; 3]%Z) by holds_by_computation.
    assert (Hd : disjoint_buffers a rhs) by (cbn; lia).
    split; [exact Ha|]. split; [exact Hr|]. split; [exact Hd|].
    destruct (proj2 (@Vector_move_assign_takes Z HT w a rhs [4; 5]%Z [1; 2; 3]%Z Ha Hr Hd)
                ltac:(cbn; lia))
      as (w' & Hrun & Hrepr & Hrel & _).
    exists w'. split; [exact Hrun|]. split; [exact Hrepr|]. exact (Hrel 0 0 eq_refl).
  - intros HT HF.
    assert (Ha : Vector_repr w a [4; 5]%Z) by holds_by_computation.
    assert (Hr : Vector_repr w rhs [1; 2; 3]%Z) by holds_by_computation.
    assert (Hd : disjoint_buffers a rhs) by (cbn; lia).
    split; [exact Ha|]. split; [exact Hr|]. split; [exact Hd|].
    exact (proj2 (@Vector_move_assign_takes Z HT w a rhs [4; 5]%Z [1; 2; 3]%Z Ha Hr Hd)
             ltac:(cbn; lia)).
Defined.

(** [PushBack(2)] on a vector with a spare slot, when copying 2 throws. *)
Lemma Vector_PushBack_spare_capacity_strong_witness :
  let H := throwing_type in
  let F := copy_of_2_throws in
  let w : World Z := mkWorld {[ 0 := [Live 1; Raw]%Z ]} 1 [] in
  let v := mkVector (mkRawMemory (Some (0, 0)) 2) 1 in
  size_ v < Vector_Capacity v ∧
  Vector_PushBack_copy (RefObject 2%Z) (v, w) = (Thrown element_exn, (v, w)).
Proof.
  intros HT HF w v.
  assert (Hlt : size_ v < Vector_Capacity v) by (cbn; lia).
  split; [exact Hlt|].
  destruct (Vector_PushBack_copy (RefObject 2%Z) (v, w)) as [o s'] eqn:Hrun.
  assert (Ho : o = Thrown element_exn) by (vm_compute in Hrun; congruence).
  subst o. f_equal.
  exact (proj1 (proj2 (Vector_PushBack_spare_capacity_strong v w element_exn s' Hlt))
           (RefObject 2%Z) Hrun).
Defined.
